(** * summarize_sgfs: the result-aggregation engine of [GameResultSummary]

    A shallow embedding of [python/summarize_sgfs.py].  The aggregator object
    is a record, its methods are computations in a small state-and-exception
    monad whose state also holds the lines written by [print].  The
    collaborators that live outside the file (the file system, the sgfmill
    parser, the [elo] module, the iteration order of Python sets) are taken
    as parameters.

    Conventions:
    - Python [int] is [Z].
    - The floats of the rating input are binary64 numbers, [spec_float]
      with the operations of the IEEE standard as [SpecFloat] defines them.
      The entries of the result matrix, which are sums of counts and of
      halves of counts, the komi and the prior are written as the rationals
      they denote, in [Q].
    - Python [str] is [string], the UTF-8 encoding of the text; [len]
      counts the code points.  A player name is a [str] or [None].
    - [bytes] is [list Byte.byte]. *)

From Stdlib Require Import QArith Qround.
From Stdlib Require Import SpecFloat.
From Stdlib.Strings Require Import Ascii Byte.
From stdpp Require Import gmap strings list fin_maps pretty.
Close Scope Q_scope.

(** ** Python built-ins used by the module *)

(** [s.split(sep)] for a one-character separator: never the empty list. *)
Fixpoint py_split (sep : Ascii.ascii) (s : string) : list string :=
  match s with
  | EmptyString => [EmptyString]
  | String c r =>
      if Ascii.eqb c sep then EmptyString :: py_split sep r
      else match py_split sep r with
           | [] => [String c EmptyString]
           | seg :: segs => String c seg :: segs
           end
  end.

Definition lower_ascii (c : Ascii.ascii) : Ascii.ascii :=
  let n := nat_of_ascii c in
  if (65 <=? n)%nat && (n <=? 90)%nat then ascii_of_nat (n + 32) else c.

(** [s.lower()] *)
Fixpoint py_lower (s : string) : string :=
  match s with
  | EmptyString => EmptyString
  | String c r => String (lower_ascii c) (py_lower r)
  end.

(** [file.split(".")[-1].lower()] *)
Definition extension (file : string) : string :=
  py_lower (List.last (py_split "."%char file) EmptyString).

Definition starts_with_slash (s : string) : bool :=
  match s with
  | String c _ => Ascii.eqb c "/"%char
  | EmptyString => false
  end.

Fixpoint ends_with_slash (s : string) : bool :=
  match s with
  | EmptyString => false
  | String c EmptyString => Ascii.eqb c "/"%char
  | String _ r => ends_with_slash r
  end.

(** [os.path.join(a, b)] of [posixpath]. *)
Definition path_join (a b : string) : string :=
  if starts_with_slash b then b
  else if String.eqb a "" || ends_with_slash a then a +:+ b
  else a +:+ "/" +:+ b.

Definition newline : Byte.byte := Byte.x0a.

(** [f.readlines()] on a file opened in binary mode: every line keeps its
    terminator, a last line without one is still a line. *)
Fixpoint readlines_from (cur : list Byte.byte) (bs : list Byte.byte)
  : list (list Byte.byte) :=
  match bs with
  | [] => match cur with [] => [] | _ => [cur] end
  | b :: r =>
      if Byte.eqb b newline then (cur ++ [b]) :: readlines_from [] r
      else readlines_from (cur ++ [b]) r
  end.

Definition readlines (bs : list Byte.byte) : list (list Byte.byte) :=
  readlines_from [] bs.

(** [len(s)]: the number of code points, that is of the bytes that do not
    continue a character (the bytes 10xxxxxx do). *)
Definition continues_character (c : Ascii.ascii) : bool :=
  let n := nat_of_ascii c in (128 <=? n)%nat && (n <? 192)%nat.

Fixpoint py_len (s : string) : nat :=
  match s with
  | EmptyString => 0
  | String c r => if continues_character c then py_len r else S (py_len r)
  end.

(** [f"{s:<{w}}"] and [f"{s:>{w}}"] for a string [s]: padded with spaces
    to [w] characters. *)
Fixpoint spaces (n : nat) : string :=
  match n with
  | O => EmptyString
  | S m => String " "%char (spaces m)
  end.
Definition ljust (s : string) (w : nat) : string := s +:+ spaces (w - py_len s).
Definition rjust (s : string) (w : nat) : string := spaces (w - py_len s) +:+ s.

Definition concat_strings (l : list string) : string := foldr String.append "" l.

(** ** Exceptions *)

Inductive exn : Type :=
  | KeyError          (* [d[k]] on an absent key *)
  | ValueError        (* [max] of an empty sequence, [math.log10] out of
                         its domain, a record sgfmill cannot read *)
  | ZeroDivisionError
  | OSError           (* [os.listdir] or [open] refused by the system *)
  | TypeError         (* [len(None)], [format(None, "<12")] *)
  | OverflowError     (* an [int] too large for a [float] *)
  | OtherError (class_name : string).   (* any other class, by its name *)

Inductive result (A : Type) : Type :=
  | Ok (a : A)
  | Raise (e : exn).
Arguments Ok {A} a.
Arguments Raise {A} e.

#[global] Instance exn_eq_dec : EqDecision exn.
Proof. solve_decision. Defined.

Definition result_map {A B} (f : A → B) (r : result A) : result B :=
  match r with
  | Ok a => Ok (f a)
  | Raise e => Raise e
  end.

Definition result_bind {A B} (r : result A) (k : A → result B) : result B :=
  match r with
  | Ok a => k a
  | Raise e => Raise e
  end.

(** ** Floats *)

(** A Python [float]: an IEEE binary64 number. *)
Abbreviation float := spec_float.

(** [float(z)], the conversion Python applies to an [int] operand of a
    float operation: the nearest float, ties to even; [OverflowError] when
    that is beyond the largest float. *)
Definition float_of_int (z : Z) : result float :=
  match binary_normalize 53 1024 z 0 false with
  | S754_infinity _ => Raise OverflowError
  | x => Ok x
  end.

(** The literal [0.5]. *)
Definition float_half : float := S754_finite false 4503599627370496 (-53).

Definition float_mul (x y : float) : float := SFmul 53 1024 x y.
Definition float_add (x y : float) : float := SFadd 53 1024 x y.

(** [x / y] on floats: [ZeroDivisionError] on a zero of either sign. *)
Definition float_truediv (x y : float) : result float :=
  match y with
  | S754_zero _ => Raise ZeroDivisionError
  | _ => Ok (SFdiv 53 1024 x y)
  end.

(** ** Data model *)

(** [@dataclass class Record] *)
Record Record_ : Type := mkRecord { win : Z; lost : Z; draw : Z }.

#[global] Instance Record_eq_dec : EqDecision Record_.
Proof. solve_decision. Defined.

(** [Record()] *)
Definition Record_new : Record_ := mkRecord 0 0 0.

(** A player name as sgfmill gives it: a [str], or [None] when the record
    has no [PB] or [PW] property. *)
Abbreviation player := (option string).

(** The dictionary [{(black_player_name, white_player_name): Record}]. *)
Abbreviation table := (gmap (player * player) Record_).

(** The fields of a [GameResultSummary] instance. *)
Record GameResultSummary : Type := mkSummary {
  results : table;
  _all_sgfs_files : gset string;
  _all_sgf_files : gset string;
  _new_sgfs_files : gset string;
  _new_sgf_files : gset string;
  _warning : bool;
  _elo_prior : Q
}.

Definition set_results (t : table) (g : GameResultSummary) :=
  mkSummary t (_all_sgfs_files g) (_all_sgf_files g) (_new_sgfs_files g)
            (_new_sgf_files g) (_warning g) (_elo_prior g).
Definition set_all_sgfs_files (s : gset string) (g : GameResultSummary) :=
  mkSummary (results g) s (_all_sgf_files g) (_new_sgfs_files g)
            (_new_sgf_files g) (_warning g) (_elo_prior g).
Definition set_all_sgf_files (s : gset string) (g : GameResultSummary) :=
  mkSummary (results g) (_all_sgfs_files g) s (_new_sgfs_files g)
            (_new_sgf_files g) (_warning g) (_elo_prior g).
Definition set_new_sgfs_files (s : gset string) (g : GameResultSummary) :=
  mkSummary (results g) (_all_sgfs_files g) (_all_sgf_files g) s
            (_new_sgf_files g) (_warning g) (_elo_prior g).
Definition set_new_sgf_files (s : gset string) (g : GameResultSummary) :=
  mkSummary (results g) (_all_sgfs_files g) (_all_sgf_files g)
            (_new_sgfs_files g) s (_warning g) (_elo_prior g).
Definition set_warning (b : bool) (g : GameResultSummary) :=
  mkSummary (results g) (_all_sgfs_files g) (_all_sgf_files g)
            (_new_sgfs_files g) (_new_sgf_files g) b (_elo_prior g).

(** What a running program consists of: the object and the console. *)
Record World : Type := mkWorld {
  self : GameResultSummary;
  stdout : list string;       (* printed lines, oldest first *)
  stderr : list string        (* messages of [warnings.warn] *)
}.

(** ** The monad of methods: the state survives a raised exception, as the
    mutations of a Python object do. *)

Definition M (A : Type) : Type := World → World * result A.

Definition ret {A} (a : A) : M A := λ w, (w, Ok a).
Definition raise {A} (e : exn) : M A := λ w, (w, Raise e).
Definition bind {A B} (c : M A) (k : A → M B) : M B :=
  λ w, match c w with
       | (w', Ok a) => k a w'
       | (w', Raise e) => (w', Raise e)
       end.

Declare Scope py_scope.
Delimit Scope py_scope with py.
Notation "'let!' x ':=' c 'in' k" := (bind c (λ x, k))
  (at level 10, x name, c at level 100, k at level 200) : py_scope.
Notation "c '>>' k" := (bind c (λ _, k))
  (at level 100, k at level 200, right associativity) : py_scope.
Open Scope py_scope.

Definition get_self : M GameResultSummary := λ w, (w, Ok (self w)).
Definition update (f : GameResultSummary → GameResultSummary) : M unit :=
  λ w, (mkWorld (f (self w)) (stdout w) (stderr w), Ok tt).
Definition print (line : string) : M unit :=
  λ w, (mkWorld (self w) (stdout w ++ [line]) (stderr w), Ok tt).
Definition warn (msg : string) : M unit :=
  λ w, (mkWorld (self w) (stdout w) (stderr w ++ [msg]), Ok tt).

(** A call of a collaborator that prints [lines] and then returns or
    raises. *)
Definition printing {A} (call : list string * result A) : M A :=
  λ w, (mkWorld (self w) (stdout w ++ call.1) (stderr w), call.2).

(** [for x in l: body(x)] *)
Fixpoint for_each {A} (l : list A) (body : A → M unit) : M unit :=
  match l with
  | [] => ret tt
  | x :: r => body x >> for_each r body
  end.

(** [idx = start; for x in l: body(idx, x); idx += 1] *)
Fixpoint for_counting {A} (idx : nat) (l : list A) (body : nat → A → M unit)
  : M unit :=
  match l with
  | [] => ret tt
  | x :: r => body idx x >> for_counting (S idx) r body
  end.

(** State and outcome of running a method. *)
Definition state_after {A} (c : M A) (w : World) : GameResultSummary := self (c w).1.
Definition outcome {A} (c : M A) (w : World) : result A := (c w).2.

(** [for x in l: acc = body(acc, x)], for loops that build a local value. *)
Fixpoint for_fold {A B} (l : list A) (acc : B) (body : B → A → M B) : M B :=
  match l with
  | [] => ret acc
  | x :: r => let! acc' := body acc x in for_fold r acc' body
  end.

(** [max(l)] with the comparison [gt]: the first maximal item, [ValueError]
    on an empty sequence. *)
Definition py_max {A} (gt : A → A → bool) (l : list A) : result A :=
  match l with
  | [] => Raise ValueError
  | x :: r => Ok (fold_left (λ best y, if gt y best then y else best) r x)
  end.

(** [max(l, key=key)]: the key of every item is computed as the items
    come, the first item with the largest key is kept; [ValueError] on an
    empty sequence. *)
Definition py_max_key {A} (key : A → result nat) (l : list A) : result A :=
  match l with
  | [] => Raise ValueError
  | x :: r =>
      result_bind (key x) (λ kx,
        result_map fst
          (fold_left
             (λ best y,
                result_bind best (λ '(b, kb),
                  result_map (λ ky, if (kb <? ky)%nat then (y, ky) else (b, kb))
                             (key y)))
             r (Ok (x, kx))))
  end.

(** [len(pla)] and [f"{pla:<{w}}"] for a player name: [TypeError] on
    [None]. *)
Definition len_name (pla : player) : result nat :=
  match pla with
  | Some s => Ok (py_len s)
  | None => Raise TypeError
  end.

Definition format_left (pla : player) (w : nat) : result string :=
  match pla with
  | Some s => Ok (ljust s w)
  | None => Raise TypeError
  end.

(** ** Entries of the result matrix: the [int] 0 of the diagonal and the
    [float] sums elsewhere. *)
Inductive cell : Type :=
  | CInt (z : Z)
  | CFloat (q : Q).

Definition cell_val (c : cell) : Q :=
  match c with
  | CInt z => inject_Z z
  | CFloat q => q
  end.

Definition cell_gt (a b : cell) : bool := negb (Qle_bool (cell_val a) (cell_val b)).

Fixpoint ilog10_fuel (fuel : nat) (z : Z) : Z :=
  match fuel with
  | O => 0
  | S f => if (z <? 10)%Z then 0%Z else (1 + ilog10_fuel f (z / 10))%Z
  end.

(** [int(math.log10(x))]: [ValueError] unless [x > 0]; truncation towards
    zero gives 0 on (0, 10) and the floor above. *)
Definition int_log10 (x : Q) : result Z :=
  if Qle_bool x (inject_Z 0) then Raise ValueError
  else Ok (ilog10_fuel (S (Z.to_nat (Z.log2 (Qfloor x)))) (Qfloor x)).

(** [str(x)] of a float that is a non-negative multiple of 0.5. *)
Definition half_str (q : Q) : string :=
  pretty (Qfloor q) +:+ (if Qeq_bool q (inject_Z (Qfloor q)) then ".0" else ".5").

(** What [format] writes for an entry. *)
Definition cell_str (c : cell) : string :=
  match c with
  | CInt z => pretty z
  | CFloat q => half_str q
  end.

(** ** Collaborators *)

(** The part of [os] and [open] the module calls. *)
Record FileSystem : Type := mkFS {
  path_exists : string → bool;                 (* os.path.exists *)
  path_isfile : string → bool;                 (* os.path.isfile *)
  listdir : string → result (list string);     (* os.listdir *)
  walk : string → list (string * list string * list string);  (* os.walk *)
  read_bytes : string → result (list Byte.byte)  (* open(p, "rb").read() *)
}.

Inductive colour : Type := Black | White.      (* 'b' and 'w' *)

#[global] Instance colour_eq_dec : EqDecision colour.
Proof. solve_decision. Defined.

(** What the module asks of an [sgfmill] game.  The four accessors are
    taken as total, as the parser interface of the specification has them:
    a record on which one of them would raise counts as a record that
    [from_bytes] refuses.  [get_player_name] gives [None] for a player the
    record does not name. *)
Record Sgf_game : Type := mkGame {
  get_winner : option colour;
  get_player_name : colour → player;
  get_handicap : option Z;
  get_komi : Q
}.

(** The order in which a Python set is iterated: some enumeration of its
    elements, the same whenever the same set is iterated again. *)
Record SetOrder : Type := mkOrder {
  order : ∀ {A} `{Countable A}, gset A → list A;
  order_perm : ∀ {A} `{Countable A} (s : gset A), order s ≡ₚ elements s
}.

Definition elements_order : SetOrder :=
  mkOrder (λ A _ _, elements) (λ A _ _ s, reflexivity _).

(** The same enumeration backwards. *)
Definition reverse_order : SetOrder :=
  mkOrder (λ A _ _ s, reverse (elements s))
          (λ A _ _ s, reverse_Permutation (elements s)).

(** ** Fixtures for the examples below *)

Definition bytes_of (s : string) : list Byte.byte := String.list_byte_of_string s.

(** The content of a file with the given lines. *)
Definition lines_of (l : list string) : list Byte.byte :=
  flat_map (λ s, bytes_of s ++ [newline]) l.

(** A one-line record format: the first byte is the result ([b], [w] or
    [d] for a draw), an optional second byte changes the setting ([x]: the
    colours are swapped, [s]: Alice plays herself, [h]: a two-stone
    handicap, [k]: komi 5.0, [m]: komi 5.5, [n]: komi 7.5, [a]: the record
    does not name the black player). *)
Definition toy_game (winner : option colour) (flag : option Byte.byte) : Sgf_game :=
  let swapped := match flag with Some x78 => true | _ => false end in
  let selfplay := match flag with Some x73 => true | _ => false end in
  let anonymous := match flag with Some x61 => true | _ => false end in
  mkGame winner
    (λ c, match c with
          | Black => if anonymous then None
                     else if swapped then Some "Bob" else Some "Alice"
          | White => if swapped || selfplay then Some "Alice" else Some "Bob"
          end)
    (match flag with Some x68 => Some 2%Z | _ => None end)
    (match flag with
     | Some x6b => 5 # 1
     | Some x6d => 11 # 2
     | Some x6e => 15 # 2
     | _ => 7 # 1
     end)%Q.

Definition toy_from_bytes (bs : list Byte.byte) : option Sgf_game :=
  match bs with
  | [] => None
  | r :: rest =>
      let flag := match rest with
                  | f :: _ => if Byte.eqb f newline then None else Some f
                  | [] => None
                  end in
      match r with
      | x62 => Some (toy_game (Some Black) flag)
      | x77 => Some (toy_game (Some White) flag)
      | x64 => Some (toy_game None flag)
      | _ => None
      end
  end.

(** A directory [games] with a batch file, a single-game file and a text
    file, and next to it some loose files. *)
Definition toy_fs : FileSystem :=
  mkFS
    (λ p, bool_decide (p ∈ ["games"; "games/a.sgfs"; "games/b.sgf";
                            "games/notes.txt"; "bad.sgfs"; "one.sgf"; "draw.sgf";
                            "self.sgf"; "back.sgf"]))
    (λ p, bool_decide (p ∈ ["games/a.sgfs"; "games/b.sgf"; "games/notes.txt";
                            "bad.sgfs"; "one.sgf"; "draw.sgf"; "self.sgf";
                            "back.sgf"]))
    (λ p, if String.eqb p "games" then Ok ["a.sgfs"; "b.sgf"; "notes.txt"]
          else Raise OSError)
    (λ p, if String.eqb p "games"
          then [("games", [], ["a.sgfs"; "b.sgf"; "notes.txt"])] else [])
    (λ p, if String.eqb p "games/a.sgfs" then Ok (bytes_of "b")
          else if String.eqb p "games/b.sgf" then Ok (bytes_of "w")
          else if String.eqb p "bad.sgfs" then Ok (lines_of ["b"; "?"; "w"])
          else if String.eqb p "one.sgf" then Ok (bytes_of "b")
          else if String.eqb p "draw.sgf" then Ok (bytes_of "d")
          else if String.eqb p "self.sgf" then Ok (bytes_of "bs")
          else if String.eqb p "back.sgf" then Ok (bytes_of "wx")
          else Raise OSError).

(** A league of three rounds kept as batch files, the first of which has
    a record that cannot be read, and a final; a pool of files that can
    all be read; and a game whose black player has no name. *)
Definition league_fs : FileSystem :=
  mkFS
    (λ p, bool_decide (p ∈ ["league"; "league/round1.sgfs"; "league/round2.sgfs";
                            "league/round3.sgfs"; "league/final.sgf";
                            "pool"; "pool/east.sgfs"; "pool/west.sgfs";
                            "pool/first.sgf"; "pool/second.sgf"; "anon.sgf"]))
    (λ p, bool_decide (p ∈ ["league/round1.sgfs"; "league/round2.sgfs";
                            "league/round3.sgfs"; "league/final.sgf";
                            "pool/east.sgfs"; "pool/west.sgfs";
                            "pool/first.sgf"; "pool/second.sgf"; "anon.sgf"]))
    (λ p, if String.eqb p "league"
          then Ok ["round1.sgfs"; "round2.sgfs"; "round3.sgfs"; "final.sgf"]
          else if String.eqb p "pool"
          then Ok ["east.sgfs"; "west.sgfs"; "first.sgf"; "second.sgf"]
          else Raise OSError)
    (λ p, if String.eqb p "league"
          then [("league", [], ["round1.sgfs"; "round2.sgfs"; "round3.sgfs";
                                "final.sgf"])]
          else if String.eqb p "pool"
          then [("pool", [], ["east.sgfs"; "west.sgfs"; "first.sgf"; "second.sgf"])]
          else [])
    (λ p, if String.eqb p "league/round1.sgfs" then Ok (lines_of ["b"; "?"; "w"])
          else if String.eqb p "league/round2.sgfs" then Ok (lines_of ["b"; "w"])
          else if String.eqb p "league/round3.sgfs" then Ok (lines_of ["wx"; "d"])
          else if String.eqb p "league/final.sgf" then Ok (bytes_of "bx")
          else if String.eqb p "pool/east.sgfs" then Ok (lines_of ["b"; "wx"])
          else if String.eqb p "pool/west.sgfs" then Ok (lines_of ["d"])
          else if String.eqb p "pool/first.sgf" then Ok (bytes_of "bk")
          else if String.eqb p "pool/second.sgf" then Ok (bytes_of "wx")
          else if String.eqb p "anon.sgf" then Ok (bytes_of "ba")
          else Raise OSError).

(** A stand-in for the [elo] module: the observations are kept as they
    come, the report is their number, and the computation prints one line
    when it is asked to be verbose. *)
Definition toy_likelihood_of_games (a b : player) (total : Z) (winrate : float)
    (flip : bool) : result (list (player * player * Z * float)) :=
  Ok [(a, b, total, winrate)].
Definition toy_make_center_elos_prior (names : list player) (prior : Q)
  : result (list (player * player * Z * float)) := Ok [].
Definition toy_compute_elos (data : list (player * player * Z * float)) (verbose : bool)
  : list string * result nat :=
  (if verbose then ["optimizing"] else [], Ok (length data)).
Definition toy_EloInfo_str (info : nat) : string := pretty info.
Definition toy_float_str (x : Q) : string := half_str x.

(** ** The class *)

(** The set of all names that occur in a key: the [set] of the
    [itertools.chain] of all the [name_pair]s of [self.results.keys()]. *)
Definition player_names (t : table) : gset player :=
  set_bind (λ name_pair : player * player, {[name_pair.1; name_pair.2]}) (dom t).

(** [__init__] *)
Definition __init__ (elo_prior : Q) : GameResultSummary :=
  mkSummary ∅ ∅ ∅ ∅ ∅ false elo_prior.

Definition new_world (elo_prior : Q) : World := mkWorld (__init__ elo_prior) [] [].

(** [self.results[key]] *)
Definition getitem (key : player * player) : M Record_ :=
  λ w, match results (self w) !! key with
       | Some r => (w, Ok r)
       | None => (w, Raise KeyError)
       end.

(** [self.results[key] = r] *)
Definition setitem (key : player * player) (r : Record_) : M unit :=
  update (λ g, set_results (<[key := r]> (results g)) g).

(** [value] of a collaborator that may raise. *)
Definition lift {A} (r : result A) : M A := λ w, (w, r).

Section GameResultSummary.
Variable iteration : SetOrder.
Variable from_bytes : list Byte.byte → option Sgf_game.   (* sgf.Sgf_game.from_bytes *)

Variables Likelihood EloInfo : Type.
(** The [elo] module.  Its functions may raise; [compute_elos] is given
    its data and the keyword [verbose], and may print before it returns or
    raises. *)
Variable likelihood_of_games : player → player → Z → float → bool → result (list Likelihood).
Variable make_center_elos_prior : list player → Q → result (list Likelihood).
Variable compute_elos : list Likelihood → bool → list string * result EloInfo.
Variable EloInfo_str : EloInfo → string.
Variable float_str : Q → string.

(** *** Private functions *)

Definition _add_game_file_names (fs : FileSystem) (input_file_dir : string)
    (search_subdir : bool) : M unit :=
  if negb (path_exists fs input_file_dir) then
    print ("There is no directory under name " +:+ input_file_dir)
  else
    let! _files :=
      (if search_subdir then
         ret (flat_map (λ '(dirpath, dirnames, filenames),
                          map (path_join dirpath) filenames)
                       (walk fs input_file_dir))
       else
         let! names := lift (listdir fs input_file_dir) in
         ret (map (path_join input_file_dir) names)) in
    (* the locals [_new_sgfs_files] and [_new_sgf_files] *)
    let found_sgfs_files : gset string :=
      list_to_set (filter (λ file, extension file = "sgfs") _files) in
    let found_sgf_files : gset string :=
      list_to_set (filter (λ file, extension file = "sgf") _files) in
    update (λ g, set_new_sgfs_files (found_sgfs_files ∖ _all_sgfs_files g) g) >>
    update (λ g, set_new_sgf_files (found_sgf_files ∖ _all_sgf_files g) g) >>
    update (λ g, set_all_sgfs_files (_all_sgfs_files g ∪ found_sgfs_files) g) >>
    update (λ g, set_all_sgf_files (_all_sgf_files g ∪ found_sgf_files) g) >>
    let! g := get_self in
    print ("We found " +:+ pretty (size (_new_sgfs_files g))
           +:+ " new sgfs files and " +:+ pretty (size (_new_sgf_files g))
           +:+ " new sgf files in the search directory " +:+ input_file_dir +:+ ".").

Definition _add_a_game_file_name (fs : FileSystem) (input_file_name : string)
    : M unit :=
  if negb (path_isfile fs input_file_name) then
    print ("There is no file with name " +:+ input_file_name +:+ ".")
  else if String.eqb (extension input_file_name) "sgf" then
    update (λ g, set_new_sgf_files ({[input_file_name]} ∖ _all_sgf_files g) g) >>
    let! g := get_self in
    if decide (size (_new_sgf_files g) = 0) then
      print ("File name " +:+ input_file_name +:+ " has been added before")
    else
      update (λ g, set_all_sgf_files (_all_sgf_files g ∪ {[input_file_name]}) g)
  else if String.eqb (extension input_file_name) "sgfs" then
    update (λ g, set_new_sgfs_files ({[input_file_name]} ∖ _all_sgfs_files g) g) >>
    let! g := get_self in
    if decide (size (_new_sgfs_files g) = 0) then
      print ("File name " +:+ input_file_name +:+ " has been added before")
    else
      update (λ g, set_all_sgfs_files (_all_sgfs_files g ∪ {[input_file_name]}) g)
  else
    print (input_file_name +:+ " is not sgf or sgfs file, no game was added").

(** add a single game in a sgf string save the results in self.results. *)
Definition _add_a_single_sgf_string (sgf_string : list Byte.byte) : M unit :=
  match from_bytes sgf_string with
  | None => raise ValueError
  | Some game =>
      let winner := get_winner game in
      let pla_black := get_player_name game Black in
      let pla_white := get_player_name game White in
      (if bool_decide (get_handicap game ≠ None)
          || negb (Qle_bool (11 # 2) (get_komi game))
          || negb (Qle_bool (get_komi game) (15 # 2))
       then update (set_warning true) else ret tt) >>
      (let! g := get_self in
       if decide ((pla_black, pla_white) ∈ dom (results g)) then ret tt
       else setitem (pla_black, pla_white) Record_new) >>
      match winner with
      | Some Black =>
          let! r := getitem (pla_black, pla_white) in
          setitem (pla_black, pla_white) (mkRecord (win r + 1) (lost r) (draw r))
      | Some White =>
          let! r := getitem (pla_black, pla_white) in
          setitem (pla_black, pla_white) (mkRecord (win r) (lost r + 1) (draw r))
      | None =>
          let! r := getitem (pla_black, pla_white) in
          setitem (pla_black, pla_white) (mkRecord (win r) (lost r) (draw r + 1))
      end
  end.

(** Add a single sgfs file. Each row of such sgf file contain a single
    game as a sgf string *)
Definition _add_one_sgfs_file_to_result (fs : FileSystem) (sgfs_file_name : string)
    : M unit :=
  if negb (path_exists fs sgfs_file_name) then
    print ("There is no SGFs file as " +:+ sgfs_file_name)
  else
    let! content := lift (read_bytes fs sgfs_file_name) in
    let sgfs_strings := readlines content in
    for_each sgfs_strings _add_a_single_sgf_string.

(** Add a single sgf file. *)
Definition _add_one_sgf_file_to_result (fs : FileSystem) (sgf_file_name : string)
    : M unit :=
  if negb (path_exists fs sgf_file_name) then
    print ("There is no SGF file as " +:+ sgf_file_name)
  else
    let! sgf := lift (read_bytes fs sgf_file_name) in
    _add_a_single_sgf_string sgf.

(** add all sgfs files first *)
Definition _add_new_games_to_result_dict (fs : FileSystem) : M unit :=
  let! g := get_self in
  for_counting 1 (order iteration (_new_sgfs_files g)) (λ idx sgfs,
    _add_one_sgfs_file_to_result fs sgfs >>
    if decide (idx `mod` 10 = 0) then
      let! g := get_self in
      print ("Addedd " +:+ pretty idx +:+ " files out of "
             +:+ pretty (size (_new_sgfs_files g)) +:+ " sgfs files.")
    else ret tt) >>
  let! g := get_self in
  print ("We have added additional " +:+ pretty (size (_new_sgfs_files g))
         +:+ " sgfs files into the results.") >>
  let! g := get_self in
  for_counting 1 (order iteration (_new_sgf_files g)) (λ idx sgf,
    _add_one_sgf_file_to_result fs sgf >>
    if decide (idx `mod` 10 = 0) then
      let! g := get_self in
      print ("Added " +:+ pretty idx +:+ " files out of "
             +:+ pretty (size (_new_sgf_files g)) +:+ " sgf files.")
    else ret tt) >>
  let! g := get_self in
  print ("We have added additional " +:+ pretty (size (_new_sgf_files g))
         +:+ " sgf files into the results.").

(** Estimate and print elo values. This function must be called after
    add all the sgfs/sgf files. *)
Definition _estimate_elo : M EloInfo :=
  let! g := get_self in
  let pla_names := order iteration (player_names (results g)) in
  let! data :=
    for_fold pla_names [] (λ data pla_Balck,
      for_fold pla_names data (λ data pla_White,
        if decide (pla_Balck = pla_White) then ret data
        else
          let! record := getitem (pla_Balck, pla_White) in
          let total := (win record + lost record + draw record)%Z in
          (* win = record.win + 0.5 * record.draw *)
          let! draw_float := lift (float_of_int (draw record)) in
          let half_draws := float_mul float_half draw_float in
          let! win_float := lift (float_of_int (win record)) in
          let win := float_add win_float half_draws in
          (* winrate = win / total *)
          let! total_float := lift (float_of_int total) in
          let! winrate := lift (float_truediv win total_float) in
          let! games :=
            lift (likelihood_of_games pla_Balck pla_White total winrate false) in
          ret (data ++ games))) in
  let! g := get_self in
  let! prior := lift (make_center_elos_prior pla_names (_elo_prior g)) in
  let data := data ++ prior in
  printing (compute_elos data true).

Definition _print_player_info : M unit :=
  let! g := get_self in
  let pla_names := order iteration (player_names (results g)) in
  let! longest := lift (py_max_key len_name pla_names) in
  let! max_len := lift (len_name longest) in
  let title := "Player Name" in
  let title_space := (py_len title `max` max_len + 1)%nat in
  print (ljust title title_space +:+ ": Player ID") >>
  for_counting 0 pla_names (λ idx pla,
    let! padded := lift (format_left pla title_space) in
    print (padded +:+ ": " +:+ pretty idx)).

Definition _build_result_matrix : M (list (list cell)) :=
  let! g := get_self in
  let pla_names := order iteration (player_names (results g)) in
  for_fold pla_names [] (λ results_matrix pla1,
    let! row :=
      for_fold pla_names [] (λ row pla2,
        if decide (pla1 = pla2) then ret (row ++ [CInt 0])
        else
          let! pla1_pla2 := getitem (pla1, pla2) in
          let! pla2_pla1 := getitem (pla2, pla1) in
          let win := (inject_Z (win pla1_pla2) + inject_Z (lost pla2_pla1)
                      + (1 # 2) * inject_Z (draw pla1_pla2 + draw pla2_pla1))%Q in
          ret (row ++ [CFloat win])) in
    ret (results_matrix ++ [row])).

Definition _print_result_matrix : M unit :=
  let! results_matrix := _build_result_matrix in
  let! row_maxima :=
    for_fold results_matrix [] (λ maxima sublist,
      let! m := lift (py_max cell_gt sublist) in ret (maxima ++ [m])) in
  let! largest := lift (py_max cell_gt row_maxima) in
  let! digits := lift (int_log10 (cell_val largest)) in
  let max_game_played_space := Z.to_nat (digits + 5) in
  let row_format (first : string) (rest : list string) : string :=
    concat_strings (map (λ s, rjust s max_game_played_space) (first :: rest)) in
  print (row_format "" (map pretty (seq 0 (length results_matrix)))) >>
  for_counting 0 results_matrix (λ playerID row,
    print (row_format (pretty playerID) (map cell_str row))).

(** *** Public functions *)

(** add files under input_file_dir into the results and duplicate files
    will not be added. *)
Definition add_games (fs : FileSystem) (input_file_dir : string)
    (search_subdir : bool) : M unit :=
  _add_game_file_names fs input_file_dir search_subdir >>
  _add_new_games_to_result_dict fs.

(** add a new game file (sgfs or sgf) into the results and duplicate file
    will not be added. *)
Definition add_a_game_file (fs : FileSystem) (input_file_name : string) : M unit :=
  _add_a_game_file_name fs input_file_name >>
  _add_new_games_to_result_dict fs.

(** Clear all the records and reset to empty sets and empty dictionaries *)
Definition clear : M unit :=
  update (λ g, mkSummary ∅ ∅ ∅ ∅ ∅ false (_elo_prior g)).

(** Print estimated Bayes Elo scores centered as Elo prior *)
Definition print_elos : M EloInfo :=
  let! elo_info := _estimate_elo in
  print (EloInfo_str elo_info) >>
  let! g := get_self in
  print ("The prior is set as " +:+ float_str (_elo_prior g)
         +:+ ", and the estimated Bayes Elo:") >>
  (if _warning g
   then warn "There are handicap games or games with komi < 5.5 or komi > 7.5"
   else ret tt) >>
  ret elo_info.

(** Print game results in a matrix with item in row i and column j as the
    numbers of games player i beaten player j. We split draw game as 0.5
    to each player. *)
Definition print_game_results : M unit :=
  print "Player information:" >>
  _print_player_info >>
  print "Game Results by Player ID:" >>
  _print_result_matrix.

Definition get_game_results : M table :=
  let! g := get_self in ret (results g).

(** The script: one [add_games] per input directory, then both reports. *)
Definition main (fs : FileSystem) (input_dirs : list string) (search_subdir : bool)
    : M EloInfo :=
  for_each input_dirs (λ dir, add_games fs dir search_subdir) >>
  print_game_results >>
  print_elos.

(** *** The vocabulary of the properties *)

(** A record read with the absent key taken as [Record()]. *)
Definition lookup0 (t : table) (key : player * player) : Record_ :=
  default Record_new (t !! key).

(** One more game with the given winner. *)
Definition bump (winner : option colour) (r : Record_) : Record_ :=
  match winner with
  | Some Black => mkRecord (win r + 1) (lost r) (draw r)
  | Some White => mkRecord (win r) (lost r + 1) (draw r)
  | None => mkRecord (win r) (lost r) (draw r + 1)
  end.

Definition game_key (game : Sgf_game) : player * player :=
  (get_player_name game Black, get_player_name game White).

(** The table after one more game. *)
Definition fold_table (game : Sgf_game) (t : table) : table :=
  <[game_key game := bump (get_winner game) (lookup0 t (game_key game))]> t.

(** A handicap, or a komi outside of [5.5, 7.5]. *)
Definition nonstandard (game : Sgf_game) : Prop :=
  get_handicap game ≠ None
  ∨ (get_komi game < 11 # 2)%Q ∨ (15 # 2 < get_komi game)%Q.

Definition games_of (r : Record_) : Z := (win r + lost r + draw r)%Z.

(** The number of games a table records. *)
Definition total_games (t : table) : Z :=
  map_fold (λ _ r acc, (games_of r + acc)%Z) 0%Z t.

(** Every ordered pair of distinct players has its record. *)
Definition complete (t : table) : Prop :=
  ∀ a b, a ∈ player_names t → b ∈ player_names t → a ≠ b → is_Some (t !! (a, b)).

(** [reaches n w w']: execution leads from [w] to [w'] through [n]
    completed calls of [_add_a_single_sgf_string] and any number of steps
    that leave the table alone. *)
Inductive reaches : nat → World → World → Prop :=
  | reaches_here w : reaches 0 w w
  | reaches_aside n w w1 w2 :
      reaches n w w1 →
      results (self w2) = results (self w1) →
      reaches n w w2
  | reaches_game n w w1 sgf_string :
      reaches n w w1 →
      outcome (_add_a_single_sgf_string sgf_string) w1 = Ok tt →
      reaches (S n) w (_add_a_single_sgf_string sgf_string w1).1.

(** A step that leaves the table and the warning flag alone. *)
Definition aside (w w' : World) : Prop :=
  results (self w') = results (self w) ∧ _warning (self w') = _warning (self w).

(** [R] holds from the world a method starts in to the one it leaves. *)
Definition preserves (R : World → World → Prop) {A} (c : M A) : Prop :=
  ∀ w, R w (c w).1.

(** The entry of row [a], column [b] of a matrix laid out along [names]. *)
Definition entry (names : list player) (m : list (list cell)) (a b : player)
    (c : cell) : Prop :=
  ∃ i j row, names !! i = Some a ∧ names !! j = Some b
             ∧ m !! i = Some row ∧ row !! j = Some c.

(** The object after [_add_a_single_sgf_string] read [game]. *)
Definition folded (game : Sgf_game) (g : GameResultSummary) : GameResultSummary :=
  mkSummary (fold_table game (results g)) (_all_sgfs_files g) (_all_sgf_files g)
    (_new_sgfs_files g) (_new_sgf_files g)
    (if bool_decide (get_handicap game ≠ None)
        || negb (Qle_bool (11 # 2) (get_komi game))
        || negb (Qle_bool (get_komi game) (15 # 2))
     then true else _warning g)
    (_elo_prior g).

Definition flag_kept (w w' : World) : Prop :=
  _warning (self w) = true → _warning (self w') = true.

Definition one_more (r r' : Record_) : Prop :=
  (win r' = win r + 1 ∧ lost r' = lost r ∧ draw r' = draw r)%Z
  ∨ (win r' = win r ∧ lost r' = lost r + 1 ∧ draw r' = draw r)%Z
  ∨ (win r' = win r ∧ lost r' = lost r ∧ draw r' = draw r + 1)%Z.

Definition no_less (r r' : Record_) : Prop :=
  (win r ≤ win r' ∧ lost r ≤ lost r' ∧ draw r ≤ draw r')%Z.

Definition reaches_some (w w' : World) : Prop := ∃ n, reaches n w w'.

(** A session: calls of the public functions on one object.  An exception
    leaves the object as it is; the caller may carry on with it. *)
Inductive call : Type :=
  | AddGames (fs : FileSystem) (input_file_dir : string) (search_subdir : bool)
  | AddAGameFile (fs : FileSystem) (input_file_name : string)
  | Clear
  | PrintGameResults
  | PrintElos.

Definition perform (c : call) (w : World) : World :=
  match c with
  | AddGames fs dir sub => (add_games fs dir sub w).1
  | AddAGameFile fs name => (add_a_game_file fs name w).1
  | Clear => (clear w).1
  | PrintGameResults => (print_game_results w).1
  | PrintElos => (print_elos w).1
  end.

Definition session (calls : list call) (elo_prior : Q) : World :=
  fold_left (λ w c, perform c w) calls (new_world elo_prior).

Definition ingestion (c : call) : Prop :=
  match c with
  | AddGames _ _ _ | AddAGameFile _ _ => True
  | _ => False
  end.

Definition report (c : call) : Prop :=
  match c with
  | PrintGameResults | PrintElos => True
  | _ => False
  end.

(** [folded_since_clear elo_prior calls n]: in the session of [calls], [n]
    records have been folded since the object was made or, when the
    session has a call of [clear], since the last one.  An ingestion call
    adds the number of records it folds, a report adds nothing, and [clear]
    starts the count again. *)
Inductive folded_since_clear (elo_prior : Q) : list call → nat → Prop :=
  | since_new : folded_since_clear elo_prior [] 0
  | since_ingestion calls c n k :
      folded_since_clear elo_prior calls n →
      ingestion c →
      reaches k (session calls elo_prior) (session (calls ++ [c]) elo_prior) →
      folded_since_clear elo_prior (calls ++ [c]) (n + k)
  | since_report calls c n :
      folded_since_clear elo_prior calls n →
      report c →
      folded_since_clear elo_prior (calls ++ [c]) n
  | since_clear calls n :
      folded_since_clear elo_prior calls n →
      folded_since_clear elo_prior (calls ++ [Clear]) 0.

(** Results of the items of a list, up to the first exception. *)
Fixpoint collect {A B} (f : A → result B) (l : list A) : result (list B) :=
  match l with
  | [] => Ok []
  | x :: r =>
      match f x with
      | Raise e => Raise e
      | Ok y => match collect f r with
                | Raise e => Raise e
                | Ok ys => Ok (y :: ys)
                end
      end
  end.

(** What one turn of the inner loop of [_build_result_matrix] appends. *)
Definition cell_of (t : table) (pla1 pla2 : player) : result cell :=
  if decide (pla1 = pla2) then Ok (CInt 0)
  else match t !! (pla1, pla2) with
       | None => Raise KeyError
       | Some pla1_pla2 =>
           match t !! (pla2, pla1) with
           | None => Raise KeyError
           | Some pla2_pla1 =>
               Ok (CFloat (inject_Z (win pla1_pla2) + inject_Z (lost pla2_pla1)
                           + (1 # 2) * inject_Z (draw pla1_pla2 + draw pla2_pla1))%Q)
           end
       end.

(** The entry the documentation describes: the games [a] won against [b]
    with either colour, a draw counting one half. *)
Definition games_won (t : table) (a b : player) : Q :=
  (inject_Z (win (lookup0 t (a, b))) + inject_Z (lost (lookup0 t (b, a)))
   + (1 # 2) * inject_Z (draw (lookup0 t (a, b)) + draw (lookup0 t (b, a))))%Q.

Definition expected_cell (t : table) (a b : player) : cell :=
  if decide (a = b) then CInt 0 else CFloat (games_won t a b).

Definition expected_matrix (t : table) : list (list cell) :=
  let names := order iteration (player_names t) in
  map (λ a, map (expected_cell t a) names) names.

(** The win rate of a record as [_estimate_elo] computes it:
    [record.win + 0.5 * record.draw] divided by the number of games, in
    floats. *)
Definition win_rate (record : Record_) : result float :=
  result_bind (float_of_int (draw record)) (λ draw_float,
  result_bind (float_of_int (win record)) (λ win_float,
  result_bind (float_of_int (games_of record)) (λ total_float,
  float_truediv (float_add win_float (float_mul float_half draw_float)) total_float))).

(** What one turn of the inner loop of [_estimate_elo] adds to [data]. *)
Definition pair_data (t : table) (pla_Balck pla_White : player)
  : result (list Likelihood) :=
  if decide (pla_Balck = pla_White) then Ok []
  else match t !! (pla_Balck, pla_White) with
       | None => Raise KeyError
       | Some record =>
           result_bind (win_rate record) (λ winrate,
             likelihood_of_games pla_Balck pla_White (games_of record) winrate false)
       end.

(** The data that [_estimate_elo] hands to [elo.compute_elos], or the
    exception that ends the preparation. *)
Definition rating_input (t : table) (names : list player) (elo_prior : Q)
  : result (list Likelihood) :=
  result_bind
    (collect (λ a, result_map (@concat Likelihood) (collect (pair_data t a) names)) names)
    (λ yss, result_map (λ prior, concat yss ++ prior)
                       (make_center_elos_prior names elo_prior)).

(** Every record of the table has counted at least one game, and no
    counter is negative. *)
Definition sound (t : table) : Prop :=
  ∀ key r, t !! key = Some r →
           (0 ≤ win r ∧ 0 ≤ lost r ∧ 0 ≤ draw r ∧ 1 ≤ games_of r)%Z.

(** No record of the table has counted 2^53 games or more: every counter
    is an integer that a float holds exactly. *)
Definition moderate (t : table) : Prop :=
  map_Forall (λ _ r, (games_of r < 2 ^ 53)%Z) t.

(** [elo.likelihood_of_games] returns for every record of the table. *)
Definition elo_accepts (t : table) : Prop :=
  ∀ a b r winrate,
    t !! (a, b) = Some r → win_rate r = Ok winrate →
    ∃ games, likelihood_of_games a b (games_of r) winrate false = Ok games.

(** A check of [complete] that computes. *)
Definition complete_check (t : table) : bool :=
  forallb (λ a, forallb (λ b, bool_decide (a = b) || bool_decide (is_Some (t !! (a, b))))
                        (elements (player_names t)))
          (elements (player_names t)).

(** The table after the records of a list, read up to the first one that
    sgfmill refuses. *)
Fixpoint fold_records (sgf_strings : list (list Byte.byte)) (t : table) : table :=
  match sgf_strings with
  | [] => t
  | sgf_string :: rest =>
      match from_bytes sgf_string with
      | Some game => fold_records rest (fold_table game t)
      | None => t
      end
  end.

(** *** The vocabulary of the further properties *)


(** The four sets of file names and the prior are the same in both
    worlds. *)
Definition tracking_kept (w w' : World) : Prop :=
  _all_sgfs_files (self w') = _all_sgfs_files (self w)
  ∧ _all_sgf_files (self w') = _all_sgf_files (self w)
  ∧ _new_sgfs_files (self w') = _new_sgfs_files (self w)
  ∧ _new_sgf_files (self w') = _new_sgf_files (self w)
  ∧ _elo_prior (self w') = _elo_prior (self w).

(** Each tracked set holds names of its own extension only, and the new
    files of the last call are among the tracked ones. *)
Definition well_tracked (g : GameResultSummary) : Prop :=
  (∀ file, file ∈ _all_sgfs_files g → extension file = "sgfs")
  ∧ (∀ file, file ∈ _all_sgf_files g → extension file = "sgf")
  ∧ _new_sgfs_files g ⊆ _all_sgfs_files g
  ∧ _new_sgf_files g ⊆ _all_sgf_files g.

(** No tracked file is forgotten from [w] to [w']. *)
Definition tracking_grows (w w' : World) : Prop :=
  _all_sgfs_files (self w) ⊆ _all_sgfs_files (self w')
  ∧ _all_sgf_files (self w) ⊆ _all_sgf_files (self w').

(** The files a scan of a directory lists, when the system lets it. *)
Definition scanned (fs : FileSystem) (input_file_dir : string) (search_subdir : bool)
  : result (list string) :=
  if search_subdir then
    Ok (flat_map (λ '(dirpath, dirnames, filenames), map (path_join dirpath) filenames)
                 (walk fs input_file_dir))
  else result_map (map (path_join input_file_dir)) (listdir fs input_file_dir).

(** The object after a scan that listed [files]. *)
Definition scan_tracked (files : list string) (g : GameResultSummary) : GameResultSummary :=
  let found_sgfs_files : gset string :=
    list_to_set (filter (λ file, extension file = "sgfs") files) in
  let found_sgf_files : gset string :=
    list_to_set (filter (λ file, extension file = "sgf") files) in
  mkSummary (results g)
    (_all_sgfs_files g ∪ found_sgfs_files) (_all_sgf_files g ∪ found_sgf_files)
    (found_sgfs_files ∖ _all_sgfs_files g) (found_sgf_files ∖ _all_sgf_files g)
    (_warning g) (_elo_prior g).

(** The object after the games of a list, one after the other. *)
Fixpoint fold_games (games : list Sgf_game) (g : GameResultSummary) : GameResultSummary :=
  match games with
  | [] => g
  | game :: rest => fold_games rest (folded game g)
  end.

(** The games of a batch file and of a single-game file that can be read;
    none when the file is gone. *)
Definition batch_games (fs : FileSystem) (name : string) : list Sgf_game :=
  if path_exists fs name then
    match read_bytes fs name with
    | Ok content => omap from_bytes (readlines content)
    | Raise _ => []
    end
  else [].

Definition single_games (fs : FileSystem) (name : string) : list Sgf_game :=
  if path_exists fs name then
    match read_bytes fs name with
    | Ok content => match from_bytes content with Some game => [game] | None => [] end
    | Raise _ => []
    end
  else [].

(** A file that ingestion gets through: it is gone, or it can be read and
    sgfmill reads every record of it. *)
Definition good_batch (fs : FileSystem) (name : string) : Prop :=
  path_exists fs name = false
  ∨ ∃ content, read_bytes fs name = Ok content
               ∧ Forall (λ s, is_Some (from_bytes s)) (readlines content).

Definition good_single (fs : FileSystem) (name : string) : Prop :=
  path_exists fs name = false
  ∨ ∃ content game, read_bytes fs name = Ok content ∧ from_bytes content = Some game.

(** The object after the new files, taken in the order of [elements]. *)
Definition ingested (fs : FileSystem) (g : GameResultSummary) : GameResultSummary :=
  fold_games (flat_map (single_games fs) (elements (_new_sgf_files g)))
    (fold_games (flat_map (batch_games fs) (elements (_new_sgfs_files g))) g).

(** What [_estimate_elo] tells the [elo] module about the pair (a, b): the
    two names, the number of their games with these colours, and the win
    rate of black, a draw counting one half. *)
Definition observation (t : table) (a b : player) : list (player * player * Z * float) :=
  if decide (a = b) then []
  else match t !! (a, b) with
       | Some record =>
           match win_rate record with
           | Ok winrate => [(a, b, games_of record, winrate)]
           | Raise _ => []
           end
       | None => []
       end.

Definition observations (t : table) (names : list player)
  : list (player * player * Z * float) :=
  flat_map (λ a, flat_map (observation t a) names) names.

(** The data that [elo.likelihood_of_games] makes of the observations, one
    after the other. *)
Definition likelihoods (obs : list (player * player * Z * float))
  : result (list Likelihood) :=
  result_map (@concat Likelihood)
    (collect (λ '(a, b, total, winrate), likelihood_of_games a b total winrate false)
             obs).

(** The names of the players that have one. *)
Definition named (names : list player) : list string := omap id names.

(** The width of the name column of the player legend. *)
Definition legend_space (names : list string) : nat :=
  (py_len "Player Name" `max` max_list (py_len <$> names) + 1)%nat.

(** The lines of the player legend. *)
Definition legend (names : list string) : list string :=
  (ljust "Player Name" (legend_space names) +:+ ": Player ID")
  :: imap (λ idx pla, ljust pla (legend_space names) +:+ ": " +:+ pretty idx) names.

(** The column width that [_print_result_matrix] computes before it
    prints, or the exception that ends it. *)
Definition matrix_width (t : table) : result nat :=
  let names := order iteration (player_names t) in
  result_bind (collect (λ pla1, collect (cell_of t pla1) names) names) (λ results_matrix,
  result_bind (collect (py_max cell_gt) results_matrix) (λ row_maxima,
  result_bind (py_max cell_gt row_maxima) (λ largest,
  result_map (λ digits, Z.to_nat (digits + 5)) (int_log10 (cell_val largest))))).

(** A method that does not look at the console: from two worlds with the
    same object it leaves the same object and returns or raises the same. *)
Definition console_blind {A} (c : M A) : Prop :=
  ∀ w1 w2, self w1 = self w2 → self (c w1).1 = self (c w2).1 ∧ (c w1).2 = (c w2).2.

(** ** Running the monad *)

Lemma bind_ok {A B} (c : M A) (k : A → M B) w w' a :
  c w = (w', Ok a) → bind c k w = k a w'.
Proof. intros H. unfold bind. by rewrite H. Qed.

Lemma bind_raise {A B} (c : M A) (k : A → M B) w w' e :
  c w = (w', Raise e) → bind c k w = (w', Raise e).
Proof. intros H. unfold bind. by rewrite H. Qed.

Lemma world_eta w : mkWorld (self w) (stdout w) (stderr w) = w.
Proof. by destruct w. Qed.

(** ** Folding one game *)

Lemma nonstandard_test game :
  bool_decide (get_handicap game ≠ None)
  || negb (Qle_bool (11 # 2) (get_komi game))
  || negb (Qle_bool (get_komi game) (15 # 2)) = true
  ↔ nonstandard game.
Proof.
  unfold nonstandard.
  rewrite !orb_true_iff, bool_decide_eq_true, !negb_true_iff.
  rewrite <- !not_true_iff_false, !Qle_bool_iff.
  split; (intros [[H|H]|H]; [by left| right; left | right; right])
    || (intros [H|[H|H]]; [left; by left | left; right | right]).
  - by apply Qnot_le_lt.
  - by apply Qnot_le_lt.
  - by apply Qlt_not_le.
  - by apply Qlt_not_le.
Qed.

Lemma add_a_single_sgf_string_ok sgf_string game w :
  from_bytes sgf_string = Some game →
  _add_a_single_sgf_string sgf_string w
  = (mkWorld (folded game (self w)) (stdout w) (stderr w), Ok tt).
Proof.
  intros Hparse. unfold _add_a_single_sgf_string. rewrite Hparse.
  destruct w as [g out err]. unfold folded, fold_table, lookup0, game_key.
  set (key := (get_player_name game Black, get_player_name game White)).
  set (flag := bool_decide _ || _ || _).
  unfold bind, update, ret, get_self, setitem, getitem. simpl.
  destruct flag; simpl;
    (destruct (decide (key ∈ dom (results g))) as [Hin|Hin]; simpl;
     [ apply elem_of_dom in Hin as [r Hr]; rewrite Hr;
       destruct (get_winner game) as [[]|]; simpl; rewrite Hr; simpl; done
     | apply not_elem_of_dom in Hin; rewrite Hin;
       destruct (get_winner game) as [[]|]; simpl;
       rewrite lookup_insert_eq; unfold update, set_results, set_warning; simpl;
       by rewrite insert_insert_eq ]).
Qed.

Lemma add_a_single_sgf_string_fail sgf_string w :
  from_bytes sgf_string = None →
  _add_a_single_sgf_string sgf_string w = (w, Raise ValueError).
Proof. intros H. unfold _add_a_single_sgf_string. by rewrite H. Qed.

(** ** Relations that hold across a method

    A reflexive and transitive relation between worlds that holds across
    the steps of a method holds across the method. *)

Section Preservation.
Variable R : World → World → Prop.
Hypothesis R_refl : ∀ w, R w w.
Hypothesis R_trans : ∀ w1 w2 w3, R w1 w2 → R w2 w3 → R w1 w3.
Hypothesis R_console : ∀ w out err, R w (mkWorld (self w) out err).

Lemma preserves_bind {A B} (c : M A) (k : A → M B) :
  preserves R c → (∀ a, preserves R (k a)) → preserves R (bind c k).
Proof.
  intros Hc Hk w. unfold bind. specialize (Hc w).
  destruct (c w) as [w' [a|e]]; simpl in *; [|done].
  eapply R_trans; [exact Hc|apply Hk].
Qed.

Lemma preserves_ret {A} (a : A) : preserves R (ret a).
Proof. intros w. apply R_refl. Qed.

Lemma preserves_raise {A} e : preserves R (raise (A:=A) e).
Proof. intros w. apply R_refl. Qed.

Lemma preserves_lift {A} (r : result A) : preserves R (lift r).
Proof. intros w. apply R_refl. Qed.

Lemma preserves_get_self : preserves R get_self.
Proof. intros w. apply R_refl. Qed.

Lemma preserves_getitem key : preserves R (getitem key).
Proof. intros w. unfold getitem. destruct (_ !! _); apply R_refl. Qed.

Lemma preserves_print line : preserves R (print line).
Proof. intros w. apply R_console. Qed.

Lemma preserves_warn msg : preserves R (warn msg).
Proof. intros w. apply R_console. Qed.

Lemma preserves_printing {A} (call : list string * result A) :
  preserves R (printing call).
Proof. intros w. apply R_console. Qed.

Lemma preserves_for_each {A} (l : list A) body :
  (∀ x, preserves R (body x)) → preserves R (for_each l body).
Proof.
  intros Hb. induction l as [|x l IH]; simpl.
  - apply preserves_ret.
  - apply preserves_bind; [apply Hb|by intros _].
Qed.

Lemma preserves_for_counting {A} (l : list A) idx body :
  (∀ i x, preserves R (body i x)) → preserves R (for_counting idx l body).
Proof.
  intros Hb. revert idx. induction l as [|x l IH]; intros idx; simpl.
  - apply preserves_ret.
  - apply preserves_bind; [apply Hb|intros _; apply IH].
Qed.

Lemma preserves_for_fold {A B} (l : list A) (acc : B) body :
  (∀ b x, preserves R (body b x)) → preserves R (for_fold l acc body).
Proof.
  intros Hb. revert acc. induction l as [|x l IH]; intros acc; simpl.
  - apply preserves_ret.
  - apply preserves_bind; [apply Hb|intros b; apply IH].
Qed.

Ltac preserve :=
  repeat first
    [ apply preserves_ret | apply preserves_raise | apply preserves_lift
    | apply preserves_get_self | apply preserves_getitem
    | apply preserves_print | apply preserves_warn | apply preserves_printing
    | apply preserves_bind; [|intros ?]
    | apply preserves_for_each; intros ?
    | apply preserves_for_counting; intros ? ?
    | apply preserves_for_fold; intros ? ?
    | match goal with
      | |- preserves _ (if ?b then _ else _) => destruct b
      end ].

(** *** The reports *)

Lemma preserves_build_result_matrix : preserves R _build_result_matrix.
Proof. unfold _build_result_matrix. preserve. Qed.

Lemma preserves_print_game_results : preserves R print_game_results.
Proof.
  unfold print_game_results, _print_player_info, _print_result_matrix.
  preserve.
Qed.

Lemma preserves_print_elos : preserves R print_elos.
Proof. unfold print_elos, _estimate_elo. preserve. Qed.

(** *** Ingestion: the table and the flag change only by folding games *)

Hypothesis R_aside : ∀ w w', aside w w' → R w w'.
Hypothesis R_game : ∀ sgf_string w, R w (_add_a_single_sgf_string sgf_string w).1.

Lemma preserves_update f :
  (∀ g, results (f g) = results g ∧ _warning (f g) = _warning g) →
  preserves R (update f).
Proof. intros Hf w. apply R_aside. apply Hf. Qed.

Ltac preserve ::=
  repeat first
    [ apply preserves_ret | apply preserves_raise | apply preserves_lift
    | apply preserves_get_self | apply preserves_print
    | apply preserves_update; by intros []
    | apply preserves_bind; [|intros ?]
    | apply preserves_for_each; intros ?
    | apply preserves_for_counting; intros ? ?
    | apply R_game
    | match goal with
      | |- preserves _ (if ?b then _ else _) => destruct b
      end ].

Lemma preserves_add_one_sgfs_file fs name :
  preserves R (_add_one_sgfs_file_to_result fs name).
Proof.
  unfold _add_one_sgfs_file_to_result. preserve. intros w. apply R_game.
Qed.

Lemma preserves_add_one_sgf_file fs name :
  preserves R (_add_one_sgf_file_to_result fs name).
Proof.
  unfold _add_one_sgf_file_to_result. preserve. intros w. apply R_game.
Qed.

Lemma preserves_add_new_games fs : preserves R (_add_new_games_to_result_dict fs).
Proof.
  unfold _add_new_games_to_result_dict. preserve.
  - apply preserves_add_one_sgfs_file.
  - apply preserves_add_one_sgf_file.
Qed.

Lemma preserves_add_game_file_names fs dir sub :
  preserves R (_add_game_file_names fs dir sub).
Proof. unfold _add_game_file_names. preserve. Qed.

Lemma preserves_add_a_game_file_name fs name :
  preserves R (_add_a_game_file_name fs name).
Proof. unfold _add_a_game_file_name. preserve. Qed.

Lemma preserves_add_games fs dir sub : preserves R (add_games fs dir sub).
Proof.
  unfold add_games. apply preserves_bind.
  - apply preserves_add_game_file_names.
  - intros _. apply preserves_add_new_games.
Qed.

Lemma preserves_add_a_game_file fs name : preserves R (add_a_game_file fs name).
Proof.
  unfold add_a_game_file. apply preserves_bind.
  - apply preserves_add_a_game_file_name.
  - intros _. apply preserves_add_new_games.
Qed.
End Preservation.

(** ** The warning flag *)

Lemma flag_kept_game sgf_string w :
  flag_kept w (_add_a_single_sgf_string sgf_string w).1.
Proof.
  intros Hw. destruct (from_bytes sgf_string) as [game|] eqn:Hparse.
  - rewrite (add_a_single_sgf_string_ok _ _ _ Hparse). simpl.
    rewrite Hw. by destruct (_ || _).
  - by rewrite (add_a_single_sgf_string_fail _ _ Hparse).
Qed.

Lemma flag_kept_trans w1 w2 w3 : flag_kept w1 w2 → flag_kept w2 w3 → flag_kept w1 w3.
Proof. unfold flag_kept. auto. Qed.

Lemma flag_kept_aside w w' : aside w w' → flag_kept w w'.
Proof. intros [_ H] Hw. by rewrite H. Qed.

Lemma flag_set_by_game sgf_string game w :
  from_bytes sgf_string = Some game → nonstandard game →
  _warning (state_after (_add_a_single_sgf_string sgf_string) w) = true.
Proof.
  intros Hparse Hns. unfold state_after.
  rewrite (add_a_single_sgf_string_ok _ _ _ Hparse). simpl.
  apply nonstandard_test in Hns. by rewrite Hns.
Qed.

Lemma flag_untouched_by_standard_game sgf_string game w :
  from_bytes sgf_string = Some game →
  get_handicap game = None →
  (11 # 2 <= get_komi game)%Q → (get_komi game <= 15 # 2)%Q →
  _warning (state_after (_add_a_single_sgf_string sgf_string) w) = _warning (self w).
Proof.
  intros Hparse Hh Hlo Hhi. unfold state_after.
  rewrite (add_a_single_sgf_string_ok _ _ _ Hparse). simpl.
  rewrite Hh. apply Qle_bool_iff in Hlo, Hhi. rewrite Hlo, Hhi.
  by rewrite bool_decide_eq_false_2 by (intros H; by apply H).
Qed.

(** C8: a game with a handicap or with a komi below 5.5 or above 7.5 sets
    the warning flag at once, also in the middle of a batch; once set, the
    flag survives every later fold, every ingestion call and both
    reports; [clear] unsets it; a game without handicap whose komi lies
    in [5.5, 7.5], the two ends included, leaves the flag as it was. *)
Theorem warning_flag_sticky :
  (∀ sgf_string game w,
     from_bytes sgf_string = Some game → nonstandard game →
     _warning (state_after (_add_a_single_sgf_string sgf_string) w) = true)
  ∧ (∀ before sgf_string after game w,
       Forall (λ s, is_Some (from_bytes s)) before →
       from_bytes sgf_string = Some game → nonstandard game →
       _warning (state_after
                   (for_each (before ++ sgf_string :: after) _add_a_single_sgf_string)
                   w) = true)
  ∧ (∀ w, _warning (self w) = true →
       (∀ sgf_string,
          _warning (state_after (_add_a_single_sgf_string sgf_string) w) = true)
       ∧ (∀ fs dir sub, _warning (state_after (add_games fs dir sub) w) = true)
       ∧ (∀ fs name, _warning (state_after (add_a_game_file fs name) w) = true)
       ∧ _warning (state_after print_game_results w) = true
       ∧ _warning (state_after print_elos w) = true)
  ∧ (∀ w, _warning (state_after clear w) = false)
  ∧ (∀ sgf_string game w,
       from_bytes sgf_string = Some game → get_handicap game = None →
       (11 # 2 <= get_komi game)%Q → (get_komi game <= 15 # 2)%Q →
       _warning (state_after (_add_a_single_sgf_string sgf_string) w)
       = _warning (self w))
  ∧ (∀ sgf_string game w,
       from_bytes sgf_string = Some game → get_handicap game = None →
       (get_komi game == 11 # 2 ∨ get_komi game == 15 # 2)%Q →
       _warning (self w) = false →
       _warning (state_after (_add_a_single_sgf_string sgf_string) w) = false).
Proof.
  split; [exact flag_set_by_game|].
  split.
  { intros before sgf_string after game w Hall Hparse Hns. unfold state_after.
    revert w. induction Hall as [|s before [gs Hs] _ IH]; intros w; simpl.
    - unfold bind at 1.
      pose proof (flag_set_by_game _ _ w Hparse Hns) as Hset. unfold state_after in Hset.
      rewrite (add_a_single_sgf_string_ok _ _ _ Hparse) in *. simpl in Hset.
      apply (preserves_for_each flag_kept (λ w H, H) flag_kept_trans
               after _ flag_kept_game); simpl; done.
    - unfold bind at 1. rewrite (add_a_single_sgf_string_ok _ _ _ Hs). apply IH. }
  split.
  { intros w Hw. repeat split.
    - intros s. by apply flag_kept_game.
    - intros fs dir sub.
      by apply (preserves_add_games flag_kept (λ w H, H) flag_kept_trans
                  (λ w out err H, H) flag_kept_aside flag_kept_game).
    - intros fs name.
      by apply (preserves_add_a_game_file flag_kept (λ w H, H) flag_kept_trans
                  (λ w out err H, H) flag_kept_aside flag_kept_game).
    - by apply (preserves_print_game_results flag_kept (λ w H, H) flag_kept_trans
                  (λ w out err H, H)).
    - by apply (preserves_print_elos flag_kept (λ w H, H) flag_kept_trans
                  (λ w out err H, H)). }
  split; [done|].
  split; [exact flag_untouched_by_standard_game|].
  intros sgf_string game w Hparse Hh Hk Hw.
  rewrite <- Hw. apply (flag_untouched_by_standard_game _ _ _ Hparse Hh).
  - destruct Hk as [Hk|Hk]; rewrite Hk; by vm_compute.
  - destruct Hk as [Hk|Hk]; rewrite Hk; by vm_compute.
Qed.

(** ** Counting games *)

Lemma bump_one_more winner r : one_more r (bump winner r).
Proof. destruct winner as [[]|]; unfold one_more; simpl; auto. Qed.

Lemma games_of_bump winner r : games_of (bump winner r) = (games_of r + 1)%Z.
Proof. destruct winner as [[]|]; unfold games_of; simpl; lia. Qed.

Lemma total_games_insert_fresh (t : table) key r :
  t !! key = None → total_games (<[key := r]> t) = (games_of r + total_games t)%Z.
Proof.
  intros Hnone. unfold total_games.
  rewrite map_fold_insert_L; [done| |done].
  intros; lia.
Qed.

Lemma total_games_insert (t : table) key r :
  total_games (<[key := r]> t) = (games_of r + total_games (delete key t))%Z.
Proof.
  rewrite <- insert_delete_eq. apply total_games_insert_fresh, lookup_delete_eq.
Qed.

Lemma total_games_lookup0 (t : table) key :
  total_games t = (games_of (lookup0 t key) + total_games (delete key t))%Z.
Proof.
  unfold lookup0. destruct (t !! key) as [r|] eqn:Hr; simpl.
  - rewrite <- total_games_insert. by rewrite insert_id.
  - by rewrite delete_id.
Qed.

Lemma total_games_fold_table game t :
  total_games (fold_table game t) = (total_games t + 1)%Z.
Proof.
  unfold fold_table. rewrite total_games_insert, games_of_bump.
  rewrite (total_games_lookup0 t (game_key game)). lia.
Qed.

Lemma lookup0_fold_table game t key :
  lookup0 (fold_table game t) key
  = if decide (key = game_key game)
    then bump (get_winner game) (lookup0 t key) else lookup0 t key.
Proof.
  unfold fold_table. unfold lookup0 at 1. case_decide as Hk.
  - subst key. by rewrite lookup_insert_eq.
  - by rewrite lookup_insert_ne.
Qed.

Lemma no_less_refl r : no_less r r.
Proof. unfold no_less. lia. Qed.

Lemma no_less_trans r1 r2 r3 : no_less r1 r2 → no_less r2 r3 → no_less r1 r3.
Proof. unfold no_less. lia. Qed.

Lemma no_less_bump winner r : no_less r (bump winner r).
Proof. destruct winner as [[]|]; unfold no_less; simpl; lia. Qed.

Lemma reaches_trans n m w1 w2 w3 :
  reaches n w1 w2 → reaches m w2 w3 → reaches (n + m) w1 w3.
Proof.
  intros H12 H23. induction H23 as [|m w w' w'' _ IH Heq|m w w' s _ IH Hok].
  - by rewrite Nat.add_0_r.
  - eapply reaches_aside; [by apply IH|done].
  - rewrite Nat.add_succ_r. apply reaches_game; [by apply IH|done].
Qed.

Lemma reaches_some_refl w : reaches_some w w.
Proof. exists 0. constructor. Qed.

Lemma reaches_some_trans w1 w2 w3 :
  reaches_some w1 w2 → reaches_some w2 w3 → reaches_some w1 w3.
Proof. intros [n Hn] [m Hm]. exists (n + m). by eapply reaches_trans. Qed.

Lemma reaches_some_aside w w' : aside w w' → reaches_some w w'.
Proof. intros [H _]. exists 0. eapply reaches_aside; [constructor|done]. Qed.

Lemma reaches_some_console w out err : reaches_some w (mkWorld (self w) out err).
Proof. by apply reaches_some_aside. Qed.

Lemma reaches_some_game sgf_string w :
  reaches_some w (_add_a_single_sgf_string sgf_string w).1.
Proof.
  destruct (from_bytes sgf_string) as [game|] eqn:Hparse.
  - exists 1. apply reaches_game; [constructor|].
    unfold outcome. by rewrite (add_a_single_sgf_string_ok _ _ _ Hparse).
  - rewrite (add_a_single_sgf_string_fail _ _ Hparse). apply reaches_some_refl.
Qed.

Lemma reaches_counts n w w' :
  reaches n w w' →
  total_games (results (self w')) = (total_games (results (self w)) + Z.of_nat n)%Z
  ∧ ∀ key, no_less (lookup0 (results (self w)) key) (lookup0 (results (self w')) key).
Proof.
  induction 1 as [w|n w w1 w2 _ [IHt IHk] Heq|n w w1 s _ [IHt IHk] Hok].
  - split; [lia|]. intros key. apply no_less_refl.
  - rewrite Heq. done.
  - unfold outcome in Hok.
    destruct (from_bytes s) as [game|] eqn:Hparse.
    + rewrite (add_a_single_sgf_string_ok _ _ _ Hparse). simpl.
      rewrite total_games_fold_table, IHt. split; [lia|].
      intros key. eapply no_less_trans; [apply IHk|].
      rewrite lookup0_fold_table. case_decide; [apply no_less_bump|apply no_less_refl].
    + by rewrite (add_a_single_sgf_string_fail _ _ Hparse) in Hok.
Qed.

Lemma total_games_empty : total_games ∅ = 0%Z.
Proof. unfold total_games. apply map_fold_empty. Qed.

Lemma session_snoc calls c elo_prior :
  session (calls ++ [c]) elo_prior = perform c (session calls elo_prior).
Proof. unfold session. by rewrite fold_left_app. Qed.

Lemma same_self_reaches w w' : self w' = self w → reaches 0 w w'.
Proof. intros H. eapply reaches_aside; [constructor|by rewrite H]. Qed.

Lemma print_game_results_same_self w : self (print_game_results w).1 = self w.
Proof.
  apply (preserves_print_game_results (λ w w', self w' = self w)); try done.
  intros w1 w2 w3 H1 H2. by rewrite H2.
Qed.

Lemma print_elos_same_self w : self (print_elos w).1 = self w.
Proof.
  apply (preserves_print_elos (λ w w', self w' = self w)); try done.
  intros w1 w2 w3 H1 H2. by rewrite H2.
Qed.

Lemma report_same_self c w : report c → self (perform c w) = self w.
Proof.
  destruct c; simpl; try done; intros _.
  - apply print_game_results_same_self.
  - apply print_elos_same_self.
Qed.

Lemma ingestion_reaches c w : ingestion c → ∃ k, reaches k w (perform c w).
Proof.
  destruct c as [fs dir sub|fs name| | |]; simpl; try done; intros _.
  - apply (preserves_add_games reaches_some reaches_some_refl reaches_some_trans
             reaches_some_console reaches_some_aside reaches_some_game).
  - apply (preserves_add_a_game_file reaches_some reaches_some_refl
             reaches_some_trans reaches_some_console reaches_some_aside
             reaches_some_game).
Qed.

Lemma folded_since_clear_total elo_prior calls n :
  folded_since_clear elo_prior calls n →
  total_games (results (self (session calls elo_prior))) = Z.of_nat n.
Proof.
  induction 1 as [|calls c n k _ IH _ Hr|calls c n _ IH Hc|calls n _ IH].
  - apply total_games_empty.
  - apply reaches_counts in Hr as [Ht _]. rewrite Ht, IH. lia.
  - by rewrite session_snoc, report_same_self.
  - rewrite session_snoc. apply total_games_empty.
Qed.

Lemma session_folded_since_clear calls elo_prior :
  ∃ n, folded_since_clear elo_prior calls n.
Proof.
  induction calls as [|c calls [n Hn]] using rev_ind.
  - exists 0. constructor.
  - destruct c as [fs dir sub|fs name| | |].
    + destruct (ingestion_reaches (AddGames fs dir sub) (session calls elo_prior))
        as [k Hk]; [done|].
      exists (n + k). apply since_ingestion; [done|done|by rewrite session_snoc].
    + destruct (ingestion_reaches (AddAGameFile fs name) (session calls elo_prior))
        as [k Hk]; [done|].
      exists (n + k). apply since_ingestion; [done|done|by rewrite session_snoc].
    + exists 0. by eapply since_clear.
    + exists n. by apply since_report.
    + exists n. by apply since_report.
Qed.

(** C10: a record that parses makes [_add_a_single_sgf_string] return, puts
    at the key of its two players the old record (or a fresh one) with
    exactly one counter one higher, and leaves every other key alone; a
    record that does not parse leaves the object alone.  The ingestion
    calls change the table only through such folds; across [n] of them the
    sum of all counters grows by [n] and no counter of any key decreases;
    the reports leave the object alone and [clear] empties the table.
    Hence in every session the sum of all counters is the number of
    records folded by the ingestion calls that come after the last [clear],
    or by all of them when the session has no [clear]. *)
Theorem counter_conservation :
  (∀ sgf_string game w,
     from_bytes sgf_string = Some game →
     let t := results (self w) in
     let t' := results (state_after (_add_a_single_sgf_string sgf_string) w) in
     outcome (_add_a_single_sgf_string sgf_string) w = Ok tt
     ∧ (∃ r', t' !! game_key game = Some r' ∧ one_more (lookup0 t (game_key game)) r')
     ∧ (∀ key, key ≠ game_key game → t' !! key = t !! key)
     ∧ total_games t' = (total_games t + 1)%Z)
  ∧ (∀ sgf_string w,
       from_bytes sgf_string = None →
       state_after (_add_a_single_sgf_string sgf_string) w = self w)
  ∧ (∀ w fs,
       (∀ dir sub, ∃ n, reaches n w (add_games fs dir sub w).1)
       ∧ (∀ name, ∃ n, reaches n w (add_a_game_file fs name w).1))
  ∧ (∀ n w w',
       reaches n w w' →
       total_games (results (self w')) = (total_games (results (self w)) + Z.of_nat n)%Z
       ∧ ∀ key, no_less (lookup0 (results (self w)) key) (lookup0 (results (self w')) key))
  ∧ (∀ w, self (print_game_results w).1 = self w ∧ self (print_elos w).1 = self w)
  ∧ (∀ w, results (state_after clear w) = ∅
          ∧ total_games (results (state_after clear w)) = 0%Z)
  ∧ (∀ calls elo_prior,
       (∃ n, folded_since_clear elo_prior calls n)
       ∧ ∀ n, folded_since_clear elo_prior calls n →
              total_games (results (self (session calls elo_prior))) = Z.of_nat n).
Proof.
  split.
  { intros s game w Hparse t t'. subst t t'. unfold state_after, outcome.
    rewrite (add_a_single_sgf_string_ok _ _ _ Hparse). simpl.
    split; [done|]. split; [|split].
    - eexists. split; [apply lookup_insert_eq|apply bump_one_more].
    - intros key Hkey. by apply lookup_insert_ne.
    - apply total_games_fold_table. }
  split.
  { intros s w Hparse. unfold state_after.
    by rewrite (add_a_single_sgf_string_fail _ _ Hparse). }
  split.
  { intros w fs. split.
    - intros dir sub. by apply (ingestion_reaches (AddGames fs dir sub)).
    - intros name. by apply (ingestion_reaches (AddAGameFile fs name)). }
  split; [exact reaches_counts|].
  split.
  { intros w. split; [apply print_game_results_same_self|apply print_elos_same_self]. }
  split.
  { intros w. split; [done|apply total_games_empty]. }
  intros calls prior. split; [apply session_folded_since_clear|].
  intros n. apply folded_since_clear_total.
Qed.

(** ** The result matrix *)

Lemma for_fold_snoc {A B} (f : A → result B) (l : list A) (acc : list B)
    (body : list B → A → M (list B)) w :
  (∀ acc x, body acc x w = (w, result_map (λ y, acc ++ [y]) (f x))) →
  for_fold l acc body w = (w, result_map (λ ys, acc ++ ys) (collect f l)).
Proof.
  intros Hbody. revert acc. induction l as [|x l IH]; intros acc; simpl.
  - unfold ret. by rewrite app_nil_r.
  - unfold bind. rewrite Hbody. destruct (f x) as [y|e]; simpl; [|done].
    rewrite IH. destruct (collect f l) as [ys|e]; simpl; [|done].
    by rewrite <- app_assoc.
Qed.

Lemma collect_ok {A B} (f : A → result B) (g : A → B) (l : list A) :
  (∀ x, x ∈ l → f x = Ok (g x)) → collect f l = Ok (map g l).
Proof.
  induction l as [|x l IH]; intros Hf; simpl; [done|].
  rewrite Hf by left. rewrite IH; [done|]. intros y Hy. apply Hf. by right.
Qed.

Lemma collect_raise {A B} (f : A → result B) (l : list A) e :
  collect f l = Raise e → ∃ x, x ∈ l ∧ f x = Raise e.
Proof.
  induction l as [|x l IH]; simpl; [done|].
  destruct (f x) as [y|e'] eqn:Hx.
  - destruct (collect f l) as [ys|e'] eqn:Hl; [done|].
    intros [= ->]. destruct IH as (z & Hz & Hfz); [done|].
    exists z. split; [by right|done].
  - intros [= ->]. exists x. split; [left|done].
Qed.

Lemma collect_ok_inv {A B} (f : A → result B) (l : list A) ys :
  collect f l = Ok ys → ∀ x, x ∈ l → ∃ y, f x = Ok y.
Proof.
  revert ys. induction l as [|x l IH]; intros ys; simpl.
  - intros _ z Hz. by apply elem_of_nil in Hz.
  - destruct (f x) as [y|e] eqn:Hx; [|done].
    destruct (collect f l) as [ys'|e] eqn:Hl; [|done].
    intros _ z Hz. apply elem_of_cons in Hz as [->|Hz]; [eauto|].
    by eapply IH.
Qed.

Lemma result_map_id {A} (r : result A) : result_map (λ x, x) r = r.
Proof. by destruct r. Qed.

(** The builder is the double traversal of the player list. *)
Lemma build_result_matrix_collect w :
  _build_result_matrix w
  = (w, let names := order iteration (player_names (results (self w))) in
        collect (λ pla1, collect (cell_of (results (self w)) pla1) names) names).
Proof.
  unfold _build_result_matrix. unfold bind at 1, get_self. simpl.
  set (t := results (self w)). set (names := order iteration (player_names t)).
  rewrite (for_fold_snoc (λ pla1, collect (cell_of t pla1) names)).
  - simpl. by rewrite result_map_id.
  - intros acc pla1. unfold bind at 1.
    rewrite (for_fold_snoc (cell_of t pla1)).
    + simpl. rewrite result_map_id.
      destruct (collect (cell_of t pla1) names); reflexivity.
    + intros row pla2. unfold cell_of. case_decide; [done|].
      unfold bind, getitem, ret, t.
      destruct (results (self w) !! (pla1, pla2)); simpl; [|done].
      destruct (results (self w) !! (pla2, pla1)); simpl; done.
Qed.

Lemma elem_of_order `{Countable A} (s : gset A) x : x ∈ order iteration s ↔ x ∈ s.
Proof. rewrite (order_perm iteration s). apply elem_of_elements. Qed.

Lemma NoDup_order `{Countable A} (s : gset A) : NoDup (order iteration s).
Proof. rewrite (order_perm iteration s). apply NoDup_elements. Qed.

Lemma cell_of_complete t a b :
  complete t → a ∈ player_names t → b ∈ player_names t →
  cell_of t a b = Ok (expected_cell t a b).
Proof.
  intros Hc Ha Hb. unfold cell_of, expected_cell, games_won, lookup0.
  case_decide as Hab; [done|].
  destruct (Hc a b Ha Hb Hab) as [r1 ->].
  destruct (Hc b a Hb Ha) as [r2 ->]; [congruence|]. done.
Qed.

Lemma build_result_matrix_complete w :
  complete (results (self w)) →
  _build_result_matrix w = (w, Ok (expected_matrix (results (self w)))).
Proof.
  intros Hc. rewrite build_result_matrix_collect. simpl. f_equal.
  unfold expected_matrix. apply collect_ok. intros a Ha.
  apply collect_ok. intros b Hb. apply elem_of_order in Ha, Hb.
  by apply cell_of_complete.
Qed.

Lemma cell_of_raise t a b e : cell_of t a b = Raise e → e = KeyError.
Proof.
  unfold cell_of. case_decide; [done|].
  destruct (t !! (a, b)); [|congruence]. destruct (t !! (b, a)); congruence.
Qed.

Lemma build_result_matrix_missing w a b :
  a ∈ player_names (results (self w)) → b ∈ player_names (results (self w)) →
  a ≠ b → results (self w) !! (a, b) = None →
  _build_result_matrix w = (w, Raise KeyError).
Proof.
  intros Ha Hb Hab Hnone. rewrite build_result_matrix_collect. simpl. f_equal.
  set (t := results (self w)) in *. set (names := order iteration (player_names t)).
  destruct (collect _ names) as [m|e] eqn:Hm.
  - exfalso. eapply collect_ok_inv in Hm as [row Hrow]; [|by apply elem_of_order, Ha].
    eapply collect_ok_inv in Hrow as [c Hc]; [|by apply elem_of_order, Hb].
    unfold cell_of in Hc. rewrite decide_False, Hnone in Hc by done. done.
  - apply collect_raise in Hm as (x & _ & Hx).
    apply collect_raise in Hx as (y & _ & Hy).
    apply cell_of_raise in Hy. by subst e.
Qed.

Lemma entry_expected_matrix t a b :
  a ∈ player_names t → b ∈ player_names t →
  entry (order iteration (player_names t)) (expected_matrix t) a b (expected_cell t a b).
Proof.
  intros Ha Hb. apply elem_of_order, list_elem_of_lookup in Ha as [i Hi].
  apply elem_of_order, list_elem_of_lookup in Hb as [j Hj].
  exists i, j, (map (expected_cell t a) (order iteration (player_names t))).
  repeat split; [done|done| |].
  - unfold expected_matrix. by rewrite list_lookup_fmap, Hi.
  - by rewrite list_lookup_fmap, Hj.
Qed.

Lemma entry_unique names m a b c c' :
  NoDup names → entry names m a b c → entry names m a b c' → c = c'.
Proof.
  intros Hnd (i & j & row & Hi & Hj & Hrow & Hc) (i' & j' & row' & Hi' & Hj' & Hrow' & Hc').
  assert (i = i') as <- by (by eapply NoDup_lookup).
  assert (j = j') as <- by (by eapply NoDup_lookup).
  congruence.
Qed.

(** ** The preparation of the rating input *)

Lemma for_fold_extend {A B} (f : A → result (list B)) (l : list A) (acc : list B)
    (body : list B → A → M (list B)) w :
  (∀ acc x, body acc x w = (w, result_map (λ ys, acc ++ ys) (f x))) →
  for_fold l acc body w = (w, result_map (λ yss, acc ++ concat yss) (collect f l)).
Proof.
  intros Hbody. revert acc. induction l as [|x l IH]; intros acc; simpl.
  - unfold ret. by rewrite app_nil_r.
  - unfold bind. rewrite Hbody. destruct (f x) as [y|e]; simpl; [|done].
    rewrite IH. destruct (collect f l) as [ys|e]; simpl; [|done].
    by rewrite <- app_assoc.
Qed.

Lemma estimate_elo_run w :
  _estimate_elo w
  = match rating_input (results (self w))
            (order iteration (player_names (results (self w)))) (_elo_prior (self w))
    with
    | Raise e => (w, Raise e)
    | Ok data => printing (compute_elos data true) w
    end.
Proof.
  unfold _estimate_elo, rating_input. unfold bind at 1, get_self. simpl.
  set (t := results (self w)). set (names := order iteration (player_names t)).
  unfold bind at 1.
  rewrite (for_fold_extend
             (λ a, result_map (@concat Likelihood) (collect (pair_data t a) names))).
  - simpl. destruct (collect _ names) as [yss|e]; simpl; [|done].
    unfold bind, get_self, lift. simpl.
    by destruct (make_center_elos_prior names (_elo_prior (self w))).
  - intros acc a. rewrite (for_fold_extend (pair_data t a)).
    + by destruct (collect (pair_data t a) names).
    + intros data b. unfold pair_data.
      case_decide; [simpl; unfold ret; by rewrite app_nil_r|].
      unfold bind at 1. unfold getitem. fold t.
      destruct (t !! (a, b)) as [record|]; simpl; [|done].
      unfold win_rate, games_of, bind, lift, ret.
      destruct (float_of_int (draw record)) as [draw_float|e]; simpl; [|done].
      destruct (float_of_int (win record)) as [win_float|e]; simpl; [|done].
      destruct (float_of_int (win record + lost record + draw record))
        as [total_float|e]; simpl; [|done].
      destruct (float_truediv _ total_float) as [winrate|e]; simpl; [|done].
      by destruct (likelihood_of_games a b _ winrate false).
Qed.

Lemma sound_empty : sound ∅.
Proof. intros key r. by rewrite lookup_empty. Qed.

Lemma sound_fold_table game t : sound t → sound (fold_table game t).
Proof.
  intros Ht key r. unfold fold_table.
  destruct (decide (key = game_key game)) as [->|Hne].
  - rewrite lookup_insert_eq. intros [= <-]. unfold lookup0.
    destruct (t !! game_key game) as [r0|] eqn:Hr0; simpl.
    + specialize (Ht _ _ Hr0). rewrite games_of_bump.
      destruct (get_winner game) as [[]|]; simpl; unfold games_of in *; lia.
    + destruct (get_winner game) as [[]|]; vm_compute; intuition congruence.
  - rewrite lookup_insert_ne by done. apply Ht.
Qed.

Lemma sound_reaches n w w' :
  reaches n w w' → sound (results (self w)) → sound (results (self w')).
Proof.
  induction 1 as [w|n w w1 w2 _ IH Heq|n w w1 s _ IH Hok]; intros Hw.
  - done.
  - rewrite Heq. by apply IH.
  - unfold outcome in Hok. destruct (from_bytes s) as [game|] eqn:Hparse.
    + rewrite (add_a_single_sgf_string_ok _ _ _ Hparse). simpl.
      by apply sound_fold_table, IH.
    + by rewrite (add_a_single_sgf_string_fail _ _ Hparse) in Hok.
Qed.

Lemma sound_session calls elo_prior : sound (results (self (session calls elo_prior))).
Proof.
  induction calls as [|c calls IH] using rev_ind; [apply sound_empty|].
  rewrite session_snoc. destruct c as [fs dir sub|fs name| | |].
  - destruct (ingestion_reaches (AddGames fs dir sub) (session calls elo_prior))
      as [k Hk]; [done|]. by eapply sound_reaches.
  - destruct (ingestion_reaches (AddAGameFile fs name) (session calls elo_prior))
      as [k Hk]; [done|]. by eapply sound_reaches.
  - apply sound_empty.
  - by rewrite report_same_self.
  - by rewrite report_same_self.
Qed.

(** *** Floats of small integers *)

Lemma digits2_pos_iter (p k : positive) :
  digits2_pos (Pos.iter xO p k) = (digits2_pos p + k)%positive.
Proof.
  revert p. induction k as [|k IH] using Pos.peano_ind; intros p.
  - simpl. lia.
  - rewrite Pos.iter_succ. simpl. rewrite IH. lia.
Qed.

Lemma digits2_pos_size p : digits2_pos p = Pos.size p.
Proof. induction p as [p IH|p IH|]; simpl; by rewrite ?IH. Qed.

Lemma digits2_pos_small p : (Z.pos p < 2 ^ 53)%Z → (Z.pos (digits2_pos p) ≤ 53)%Z.
Proof.
  intros Hp. rewrite digits2_pos_size.
  destruct (Z_le_gt_dec (Z.pos (Pos.size p)) 53) as [|Hgt]; [done|]. exfalso.
  pose proof (Pos.size_le p) as Hle.
  assert (2 ^ 54 ≤ 2 ^ Z.pos (Pos.size p))%Z by (apply Z.pow_le_mono_r; lia).
  assert (Z.pos (2 ^ Pos.size p) = 2 ^ Z.pos (Pos.size p))%Z as Hpow
    by (by rewrite Pos2Z.inj_pow).
  assert (Z.pos (2 ^ Pos.size p) ≤ Z.pos p~0)%Z by (by apply Pos2Z.pos_le_pos).
  lia.
Qed.

(** A mantissa that needs no shift is not rounded. *)
Lemma binary_round_aux_exact s m e :
  (fexp 53 1024 (Z.pos (digits2_pos m) + e) - e = 0)%Z → (e ≤ 971)%Z →
  binary_round_aux 53 1024 s (Z.pos m) e loc_Exact = S754_finite s m e.
Proof.
  intros Hz He. unfold binary_round_aux, shr_fexp. cbn [Zdigits2]. rewrite Hz.
  cbn [shr shr_record_of_loc shr_m loc_of_shr_record round_nearest_even Zdigits2].
  rewrite Hz. cbn [shr shr_m].
  replace (e <=? 1024 - 53)%Z with true by (symmetry; apply Z.leb_le; lia). done.
Qed.

Lemma float_of_int_small z :
  (0 < z < 2 ^ 53)%Z → ∃ m e, float_of_int z = Ok (S754_finite false m e).
Proof.
  intros [Hpos Hlt]. destruct z as [|p|p]; [lia| |lia].
  pose proof (digits2_pos_small p Hlt) as Hd.
  unfold float_of_int, binary_normalize, binary_round.
  set (d := digits2_pos p) in *.
  assert (fexp 53 1024 (Z.pos d + 0) = Z.pos d - 53)%Z as Hfexp.
  { unfold fexp, emin. lia. }
  rewrite Hfexp. unfold shl_align.
  destruct (Z.pos d - 53 - 0)%Z as [|k|k] eqn:Hk; [|lia|].
  - rewrite binary_round_aux_exact; [by eexists _, _| |lia].
    fold d. unfold fexp, emin. lia.
  - rewrite binary_round_aux_exact; [by eexists _, _| |lia].
    rewrite digits2_pos_iter. fold d. unfold fexp, emin. lia.
Qed.

Lemma float_of_int_counter z :
  (0 ≤ z < 2 ^ 53)%Z → ∃ x, float_of_int z = Ok x.
Proof.
  intros [Hpos Hlt]. destruct (decide (z = 0%Z)) as [->|Hz]; [by eexists|].
  destruct (float_of_int_small z) as (m & e & Hm); [lia|]. by eexists.
Qed.



(** The win rate of a record with at least one game and fewer than 2^53
    is computed without an exception. *)
Lemma win_rate_ok r :
  (0 ≤ win r)%Z → (0 ≤ lost r)%Z → (0 ≤ draw r)%Z → (1 ≤ games_of r < 2 ^ 53)%Z →
  ∃ winrate, win_rate r = Ok winrate.
Proof.
  intros Hw Hl Hd Hn. unfold win_rate. unfold games_of in Hn.
  destruct (float_of_int_counter (draw r)) as [draw_float ->]; [lia|].
  destruct (float_of_int_counter (win r)) as [win_float ->]; [lia|].
  destruct (float_of_int_small (games_of r)) as (m & e & ->); [unfold games_of; lia|].
  simpl. by eexists.
Qed.


(** *** A pair without a record *)

(** The exceptions of one turn of the inner loop: the absent key, the
    arithmetic of the win rate, and whatever [elo.likelihood_of_games]
    raises. *)
Lemma pair_data_raise t a b e :
  pair_data t a b = Raise e →
  (a ≠ b ∧ t !! (a, b) = None ∧ e = KeyError)
  ∨ (∃ r, t !! (a, b) = Some r ∧ win_rate r = Raise e)
  ∨ (∃ r winrate, t !! (a, b) = Some r ∧ win_rate r = Ok winrate
                  ∧ likelihood_of_games a b (games_of r) winrate false = Raise e).
Proof.
  unfold pair_data. case_decide as Hab; [done|].
  destruct (t !! (a, b)) as [r|] eqn:Hr; [|intros [= <-]; by left].
  destruct (win_rate r) as [winrate|e'] eqn:Hrate; simpl.
  - intros H. right; right. by exists r, winrate.
  - intros [= <-]. right; left. by exists r.
Qed.

Lemma pair_data_raise_KeyError t a b e :
  sound t → moderate t → elo_accepts t →
  pair_data t a b = Raise e → e = KeyError.
Proof.
  intros Hs Hm Ha [(_ & _ & ->)|[(r & Hr & Hrate)|(r & winrate & Hr & Hrate & Helo)]]
    %pair_data_raise; [done| |].
  - destruct (Hs _ _ Hr) as (Hw & Hl & Hd & Hn). specialize (Hm _ _ Hr). simpl in Hm.
    destruct (win_rate_ok r) as [winrate Hok]; [done|done|done|lia|]. congruence.
  - destruct (Ha a b r winrate Hr Hrate) as [games Hok]. congruence.
Qed.

Lemma rating_input_raise t names elo_prior e :
  rating_input t names elo_prior = Raise e →
  (∃ a b, a ∈ names ∧ b ∈ names ∧ pair_data t a b = Raise e)
  ∨ make_center_elos_prior names elo_prior = Raise e.
Proof.
  unfold rating_input.
  destruct (collect _ names) as [yss|e'] eqn:Hyss; simpl.
  - destruct (make_center_elos_prior names elo_prior) as [prior|e'] eqn:Hp; [done|].
    intros [= <-]. by right.
  - intros [= <-]. left. apply collect_raise in Hyss as (a & Ha & Hrow).
    destruct (collect (pair_data t a) names) as [ys|e''] eqn:Hys; [done|].
    simpl in Hrow. injection Hrow as <-.
    apply collect_raise in Hys as (b & Hb & Hy). by exists a, b.
Qed.




(** ** The matrix of a complete table *)

Lemma complete_check_spec t : complete_check t = true → complete t.
Proof.
  unfold complete_check. rewrite forallb_forall. intros Hall a b Ha Hb Hab.
  apply elem_of_elements, list_elem_of_In, Hall in Ha.
  rewrite forallb_forall in Ha.
  apply elem_of_elements, list_elem_of_In, Ha in Hb.
  apply orb_true_iff in Hb as [Hb|Hb].
  - by apply bool_decide_eq_true in Hb.
  - by apply bool_decide_eq_true in Hb.
Qed.



Lemma expected_cell_off_diagonal t a b :
  a ≠ b → expected_cell t a b = CFloat (games_won t a b).
Proof. intros. unfold expected_cell. by rewrite decide_False. Qed.

Lemma lookup0_Some (t : table) key r : t !! key = Some r → lookup0 t key = r.
Proof. intros H. unfold lookup0. by rewrite H. Qed.







(** ** Stepping through a method *)

Lemma bind_bind {A B C} (c : M A) (k1 : A → M B) (k2 : B → M C) w :
  bind (bind c k1) k2 w = bind c (λ a, bind (k1 a) k2) w.
Proof. unfold bind. by destruct (c w) as [w1 [a|e]]. Qed.

Lemma bind_get_self {B} (k : GameResultSummary → M B) w :
  bind get_self k w = k (self w) w.
Proof. done. Qed.

Lemma bind_update {B} f (k : unit → M B) w :
  bind (update f) k w = k tt (mkWorld (f (self w)) (stdout w) (stderr w)).
Proof. done. Qed.

Lemma bind_print {B} line (k : unit → M B) w :
  bind (print line) k w = k tt (mkWorld (self w) (stdout w ++ [line]) (stderr w)).
Proof. done. Qed.

Lemma bind_ret {A B} (a : A) (k : A → M B) w : bind (ret a) k w = k a w.
Proof. done. Qed.

Lemma bind_lift_ok {A B} (a : A) (k : A → M B) w : bind (lift (Ok a)) k w = k a w.
Proof. done. Qed.

Ltac step :=
  repeat first
    [ rewrite bind_bind | rewrite bind_get_self | rewrite bind_update
    | rewrite bind_print | rewrite bind_ret | rewrite bind_lift_ok ];
  cbn [self stdout stderr results _all_sgfs_files _all_sgf_files _new_sgfs_files
       _new_sgf_files _warning _elo_prior set_results set_all_sgfs_files
       set_all_sgf_files set_new_sgfs_files set_new_sgf_files set_warning negb].

Lemma order_empty `{Countable A} : order iteration (∅ : gset A) = [].
Proof.
  apply Permutation_nil_r. rewrite (order_perm iteration ∅). by rewrite elements_empty.
Qed.

Lemma order_singleton `{Countable A} (x : A) : order iteration ({[x]} : gset A) = [x].
Proof.
  apply Permutation_singleton_r. rewrite (order_perm iteration {[x]}).
  by rewrite elements_singleton.
Qed.

(** A file that is not tracked yet becomes the only new file of its kind. *)
Lemma add_a_game_file_name_sgf fs name w :
  path_isfile fs name = true → extension name = "sgf" →
  name ∉ _all_sgf_files (self w) →
  _add_a_game_file_name fs name w
  = (mkWorld (set_all_sgf_files (_all_sgf_files (self w) ∪ {[name]})
                (set_new_sgf_files {[name]} (self w)))
       (stdout w) (stderr w), Ok tt).
Proof.
  intros Hfile Hext Hnew. unfold _add_a_game_file_name.
  rewrite Hfile, Hext. change (String.eqb "sgf" "sgf") with true. cbn [negb]. step.
  assert (({[name]} : gset string) ∖ _all_sgf_files (self w) = {[name]}) as ->
    by (by apply difference_disjoint_L, disjoint_singleton_l).
  rewrite size_singleton. by rewrite decide_False by done.
Qed.

Lemma add_a_game_file_name_sgfs fs name w :
  path_isfile fs name = true → extension name = "sgfs" →
  name ∉ _all_sgfs_files (self w) →
  _add_a_game_file_name fs name w
  = (mkWorld (set_all_sgfs_files (_all_sgfs_files (self w) ∪ {[name]})
                (set_new_sgfs_files {[name]} (self w)))
       (stdout w) (stderr w), Ok tt).
Proof.
  intros Hfile Hext Hnew. unfold _add_a_game_file_name.
  rewrite Hfile, Hext. change (String.eqb "sgfs" "sgf") with false.
  change (String.eqb "sgfs" "sgfs") with true. cbn [negb]. step.
  assert (({[name]} : gset string) ∖ _all_sgfs_files (self w) = {[name]}) as ->
    by (by apply difference_disjoint_L, disjoint_singleton_l).
  rewrite size_singleton. by rewrite decide_False by done.
Qed.

Lemma elem_of_player_names (t : table) p :
  p ∈ player_names t ↔ ∃ a b, is_Some (t !! (a, b)) ∧ (p = a ∨ p = b).
Proof.
  unfold player_names. rewrite elem_of_set_bind. split.
  - intros ([a b] & Hdom & Hp). apply elem_of_dom in Hdom.
    apply elem_of_union in Hp. rewrite !elem_of_singleton in Hp. eauto.
  - intros (a & b & Hsome & Hp). exists (a, b). split; [by apply elem_of_dom|].
    apply elem_of_union. by rewrite !elem_of_singleton.
Qed.

Lemma add_one_sgf_file_ok fs name sgf game w :
  path_exists fs name = true → read_bytes fs name = Ok sgf →
  from_bytes sgf = Some game →
  _add_one_sgf_file_to_result fs name w
  = (mkWorld (folded game (self w)) (stdout w) (stderr w), Ok tt).
Proof.
  intros Hex Hread Hparse. unfold _add_one_sgf_file_to_result.
  rewrite Hex, Hread. cbn [negb]. step. by apply add_a_single_sgf_string_ok.
Qed.

(** The second half of [add_a_game_file] when one single-game file is new
    and no batch file is. *)
Lemma add_new_games_single_sgf fs name sgf game w :
  _new_sgfs_files (self w) = ∅ → _new_sgf_files (self w) = {[name]} →
  path_exists fs name = true → read_bytes fs name = Ok sgf →
  from_bytes sgf = Some game →
  _add_new_games_to_result_dict fs w
  = (mkWorld (folded game (self w))
       (stdout w ++ ["We have added additional 0 sgfs files into the results."]
                 ++ ["We have added additional 1 sgf files into the results."])
       (stderr w), Ok tt).
Proof.
  intros Hsgfs Hsgf Hex Hread Hparse. unfold _add_new_games_to_result_dict.
  step. rewrite Hsgfs, order_empty. cbn [for_counting]. step.
  rewrite Hsgf, order_singleton. cbn [for_counting]. step.
  unfold bind at 1. erewrite add_one_sgf_file_ok by done.
  destruct (decide (1 `mod` 10 = 0)) as [H|_]; [by vm_compute in H|].
  step. cbn [folded _new_sgf_files]. rewrite Hsgf, Hsgfs, size_empty, size_singleton.
  unfold print. cbn [self stdout stderr]. by rewrite <- app_assoc.
Qed.

(** C2, with the matrix as the code gives it: folding a parsed game puts at
    the key (black, white) the old record, or a fresh one, with exactly the
    win counter raised when black won, exactly the lost counter when white
    won, and exactly the draw counter otherwise.  Ingesting into a new
    aggregator a single-game file in which Alice (black) beat Bob leaves
    the table with the one entry (Alice, Bob) -> 1, 0, 0; on that table the
    builder of the matrix raises [KeyError], the key (Bob, Alice) being
    absent; once a zero record stands at (Bob, Alice) the matrix has 1 at
    row Alice, column Bob and 0 at row Bob, column Alice. *)
Theorem fold_one_game :
  (∀ sgf_string game w,
     from_bytes sgf_string = Some game →
     let key := (get_player_name game Black, get_player_name game White) in
     let old := default Record_new (results (self w) !! key) in
     outcome (_add_a_single_sgf_string sgf_string) w = Ok tt
     ∧ results (state_after (_add_a_single_sgf_string sgf_string) w)
       = <[key := match get_winner game with
                  | Some Black => mkRecord (win old + 1) (lost old) (draw old)
                  | Some White => mkRecord (win old) (lost old + 1) (draw old)
                  | None => mkRecord (win old) (lost old) (draw old + 1)
                  end]> (results (self w)))
  ∧ (∀ fs name sgf game elo_prior,
       path_isfile fs name = true → path_exists fs name = true →
       extension name = "sgf" →
       read_bytes fs name = Ok sgf →
       from_bytes sgf = Some game →
       get_winner game = Some Black →
       get_player_name game Black = Some "Alice" →
       get_player_name game White = Some "Bob" →
       let w := (add_a_game_file fs name (new_world elo_prior)).1 in
       outcome (add_a_game_file fs name) (new_world elo_prior) = Ok tt
       ∧ results (self w) = {[ (Some "Alice", Some "Bob") := mkRecord 1 0 0 ]}
       ∧ _build_result_matrix w = (w, Raise KeyError)
       ∧ ∀ w',
           results (self w')
           = <[(Some "Bob", Some "Alice") := Record_new]> (results (self w)) →
           ∃ m c_ab c_ba,
             _build_result_matrix w' = (w', Ok m)
             ∧ entry (order iteration (player_names (results (self w')))) m
                     (Some "Alice") (Some "Bob") c_ab
             ∧ entry (order iteration (player_names (results (self w')))) m
                     (Some "Bob") (Some "Alice") c_ba
             ∧ (cell_val c_ab == 1)%Q ∧ (cell_val c_ba == 0)%Q).
Proof.
  split.
  { intros s game w Hparse key old. unfold outcome, state_after.
    rewrite (add_a_single_sgf_string_ok _ _ _ Hparse). simpl. split; [done|].
    unfold fold_table, bump, lookup0, game_key. fold key. fold old.
    by destruct (get_winner game) as [[]|]. }
  intros fs name sgf game prior Hfile Hex Hext Hread Hparse Hwin Hb Hw w.
  assert (add_a_game_file fs name (new_world prior)
          = (mkWorld (folded game
                        (set_all_sgf_files (∅ ∪ {[name]})
                           (set_new_sgf_files {[name]} (__init__ prior))))
               ([] ++ ["We have added additional 0 sgfs files into the results."]
                   ++ ["We have added additional 1 sgf files into the results."])
               [], Ok tt)) as Hrun.
  { unfold add_a_game_file. unfold bind at 1.
    rewrite add_a_game_file_name_sgf by (done || apply not_elem_of_empty).
    by erewrite add_new_games_single_sgf. }
  assert (results (self w) = {[ (Some "Alice", Some "Bob") := mkRecord 1 0 0 ]}) as Ht.
  { unfold w. rewrite Hrun. cbn [fst self folded results set_all_sgf_files
                                  set_new_sgf_files __init__].
    unfold fold_table, game_key, lookup0. rewrite Hb, Hw, Hwin, lookup_empty.
    by rewrite insert_empty. }
  assert (player_names {[ (Some "Alice", Some "Bob") := mkRecord 1 0 0 ]}
          = {[Some "Alice"; Some "Bob"]}) as Hnames1.
  { unfold player_names. by rewrite dom_singleton_L, set_bind_singleton_L. }
  split; [unfold outcome; by rewrite Hrun|]. split; [done|]. split.
  { apply (build_result_matrix_missing w (Some "Bob") (Some "Alice")); rewrite ?Ht.
    - rewrite Hnames1. apply elem_of_union_r. by apply elem_of_singleton.
    - rewrite Hnames1. apply elem_of_union_l. by apply elem_of_singleton.
    - done.
    - by rewrite lookup_singleton_ne. }
  intros w' Ht'. rewrite Ht in Ht'.
  assert (player_names (results (self w')) = {[Some "Alice"; Some "Bob"]}) as Hnames.
  { apply set_eq. intros x.
    rewrite elem_of_player_names, !elem_of_union, !elem_of_singleton, Ht'. split.
    - intros (a & b & [r Hr] & Hx).
      apply lookup_insert_Some in Hr as [[[= <- <-] _]|[_ Hr]].
      + destruct Hx as [->| ->]; [by right|by left].
      + apply lookup_singleton_Some in Hr as [[= <- <-] _].
        destruct Hx as [->| ->]; [by left|by right].
    - intros Hx. exists (Some "Alice"), (Some "Bob"). split; [|exact Hx].
      rewrite lookup_insert_ne, lookup_singleton_eq by done. eauto. }
  assert (complete (results (self w'))) as Hc.
  { intros a b. rewrite Hnames, !elem_of_union, !elem_of_singleton, Ht'.
    intros [->| ->] [->| ->] Hab.
    - destruct Hab; reflexivity.
    - rewrite lookup_insert_ne, lookup_singleton_eq by discriminate. eauto.
    - rewrite lookup_insert_eq. eauto.
    - destruct Hab; reflexivity. }
  exists (expected_matrix (results (self w'))),
    (expected_cell (results (self w')) (Some "Alice") (Some "Bob")),
    (expected_cell (results (self w')) (Some "Bob") (Some "Alice")).
  split; [by apply build_result_matrix_complete|].
  split.
  { apply entry_expected_matrix; rewrite Hnames;
      [apply elem_of_union_l|apply elem_of_union_r]; by apply elem_of_singleton. }
  split.
  { apply entry_expected_matrix; rewrite Hnames;
      [apply elem_of_union_r|apply elem_of_union_l]; by apply elem_of_singleton. }
  rewrite !expected_cell_off_diagonal by done. unfold games_won, lookup0.
  rewrite Ht'. rewrite lookup_insert_eq.
  rewrite lookup_insert_ne, lookup_singleton_eq by discriminate.
  split; vm_compute; reflexivity.
Qed.

(** ** What the early returns leave behind

    Both public calls go on to [_add_new_games_to_result_dict] whatever the
    first half did, with the sets of new files as the first half left
    them. *)

Lemma add_games_missing_directory fs dir sub w :
  path_exists fs dir = false →
  add_games fs dir sub w
  = _add_new_games_to_result_dict fs
      (mkWorld (self w) (stdout w ++ ["There is no directory under name " +:+ dir])
         (stderr w)).
Proof.
  intros Hex. unfold add_games, _add_game_file_names. rewrite Hex. cbn [negb].
  by step.
Qed.

Lemma add_a_game_file_tracked_sgf fs name w :
  path_isfile fs name = true → extension name = "sgf" →
  name ∈ _all_sgf_files (self w) →
  add_a_game_file fs name w
  = _add_new_games_to_result_dict fs
      (mkWorld (set_new_sgf_files ∅ (self w))
         (stdout w ++ ["File name " +:+ name +:+ " has been added before"])
         (stderr w)).
Proof.
  intros Hfile Hext Hin. unfold add_a_game_file, _add_a_game_file_name.
  rewrite Hfile, Hext. change (String.eqb "sgf" "sgf") with true. cbn [negb]. step.
  assert (({[name]} : gset string) ∖ _all_sgf_files (self w) = ∅) as ->.
  { apply set_eq. intros x. rewrite elem_of_difference, elem_of_singleton.
    split; [intros [-> Hx]; by destruct Hx|intros Hx; by apply not_elem_of_empty in Hx]. }
  rewrite size_empty. rewrite decide_True by done. by step.
Qed.

(** ** A record that does not parse *)

Lemma for_each_records sgf_strings w :
  results (self (for_each sgf_strings _add_a_single_sgf_string w).1)
  = fold_records sgf_strings (results (self w)).
Proof.
  revert w. induction sgf_strings as [|s rest IH]; intros w; simpl; [done|].
  unfold bind. destruct (from_bytes s) as [game|] eqn:Hparse.
  - rewrite (add_a_single_sgf_string_ok _ _ _ Hparse). by rewrite IH.
  - by rewrite (add_a_single_sgf_string_fail _ _ Hparse).
Qed.

Lemma for_each_parsed sgf_strings w :
  Forall (λ s, is_Some (from_bytes s)) sgf_strings →
  outcome (for_each sgf_strings _add_a_single_sgf_string) w = Ok tt
  ∧ stdout (for_each sgf_strings _add_a_single_sgf_string w).1 = stdout w.
Proof.
  intros Hall. revert w. unfold outcome.
  induction Hall as [|s rest [game Hs] _ IH]; intros w; simpl; [done|].
  unfold bind. rewrite (add_a_single_sgf_string_ok _ _ _ Hs).
  destruct (IH (mkWorld (folded game (self w)) (stdout w) (stderr w))) as [-> ->].
  done.
Qed.

Lemma for_each_abort before bad after w :
  Forall (λ s, is_Some (from_bytes s)) before →
  from_bytes bad = None →
  for_each (before ++ bad :: after) _add_a_single_sgf_string w
  = ((for_each before _add_a_single_sgf_string w).1, Raise ValueError).
Proof.
  intros Hall Hbad. revert w.
  induction Hall as [|s rest [game Hs] _ IH]; intros w; simpl.
  - unfold bind. by rewrite (add_a_single_sgf_string_fail _ _ Hbad).
  - unfold bind. rewrite (add_a_single_sgf_string_ok _ _ _ Hs). apply IH.
Qed.

Lemma fold_records_abort before bad after t :
  from_bytes bad = None →
  fold_records (before ++ bad :: after) t = fold_records before t.
Proof.
  intros Hbad. revert t. induction before as [|s rest IH]; intros t; simpl.
  - by rewrite Hbad.
  - destruct (from_bytes s); [apply IH|done].
Qed.

Lemma add_one_sgfs_file_abort fs name content before bad after w :
  path_exists fs name = true → read_bytes fs name = Ok content →
  readlines content = before ++ bad :: after →
  Forall (λ s, is_Some (from_bytes s)) before →
  from_bytes bad = None →
  _add_one_sgfs_file_to_result fs name w
  = ((for_each before _add_a_single_sgf_string w).1, Raise ValueError).
Proof.
  intros Hex Hread Hlines Hall Hbad. unfold _add_one_sgfs_file_to_result.
  rewrite Hex, Hread. cbn [negb]. step. rewrite Hlines. by apply for_each_abort.
Qed.

(** ** The extension of a file name *)

Lemma py_split_not_nil sep s : py_split sep s ≠ [].
Proof.
  destruct s as [|c r]; simpl; [discriminate|].
  destruct (Ascii.eqb c sep); [discriminate|]. destruct (py_split sep r); discriminate.
Qed.


Lemma last_py_split_cons sep c s :
  Ascii.eqb c sep = false →
  List.last (py_split sep (String c s)) EmptyString
  = match py_split sep s with
    | [seg] => String c seg
    | _ => List.last (py_split sep s) EmptyString
    end.
Proof.
  intros Hc. simpl. rewrite Hc. pose proof (py_split_not_nil sep s) as Hne.
  destruct (py_split sep s) as [|seg [|seg' segs]]; done.
Qed.










(** ** The sets of file names *)

Lemma tracking_kept_refl w : tracking_kept w w.
Proof. by repeat split. Qed.

Lemma tracking_kept_trans w1 w2 w3 :
  tracking_kept w1 w2 → tracking_kept w2 w3 → tracking_kept w1 w3.
Proof.
  intros (H1 & H2 & H3 & H4 & H5) (K1 & K2 & K3 & K4 & K5).
  repeat split; congruence.
Qed.

Lemma tracking_kept_console w out err : tracking_kept w (mkWorld (self w) out err).
Proof. by repeat split. Qed.

Lemma tracking_kept_game sgf_string w :
  tracking_kept w (_add_a_single_sgf_string sgf_string w).1.
Proof.
  destruct (from_bytes sgf_string) as [game|] eqn:Hparse.
  - rewrite (add_a_single_sgf_string_ok _ _ _ Hparse). by repeat split.
  - rewrite (add_a_single_sgf_string_fail _ _ Hparse). apply tracking_kept_refl.
Qed.

Lemma add_new_games_keeps_tracking fs w :
  tracking_kept w (_add_new_games_to_result_dict fs w).1.
Proof.
  apply (preserves_add_new_games tracking_kept tracking_kept_refl tracking_kept_trans
           tracking_kept_console tracking_kept_game).
Qed.

(** X2: folding the new files never touches the book-keeping: whatever the
    files hold, and whether the call returns or raises, the two tracked
    sets, the two sets of new files and the prior are afterwards what they
    were.  The same holds for the ingestion of one file. *)
Theorem ingestion_keeps_tracking :
  ∀ fs w,
    tracking_kept w (_add_new_games_to_result_dict fs w).1
    ∧ (∀ name, tracking_kept w (_add_one_sgfs_file_to_result fs name w).1)
    ∧ (∀ name, tracking_kept w (_add_one_sgf_file_to_result fs name w).1).
Proof.
  intros fs w. split; [apply add_new_games_keeps_tracking|]. split; intros name.
  - apply (preserves_add_one_sgfs_file tracking_kept tracking_kept_refl
             tracking_kept_trans tracking_kept_console tracking_kept_game).
  - apply (preserves_add_one_sgf_file tracking_kept tracking_kept_refl
             tracking_kept_trans tracking_kept_console tracking_kept_game).
Qed.

(** What the first half of [add_games] does. *)
Lemma add_game_file_names_run fs dir sub w :
  _add_game_file_names fs dir sub w
  = if path_exists fs dir then
      match scanned fs dir sub with
      | Raise e => (w, Raise e)
      | Ok files =>
          (mkWorld (scan_tracked files (self w))
             (stdout w
              ++ ["We found "
                  +:+ pretty (size (_new_sgfs_files (scan_tracked files (self w))))
                  +:+ " new sgfs files and "
                  +:+ pretty (size (_new_sgf_files (scan_tracked files (self w))))
                  +:+ " new sgf files in the search directory " +:+ dir +:+ "."])
             (stderr w), Ok tt)
      end
    else (mkWorld (self w) (stdout w ++ ["There is no directory under name " +:+ dir])
            (stderr w), Ok tt).
Proof.
  unfold _add_game_file_names, scanned.
  destruct (path_exists fs dir); cbn [negb]; [|done].
  destruct sub.
  - step. reflexivity.
  - rewrite bind_bind. unfold bind at 1, lift.
    destruct (listdir fs dir) as [names|e]; [|done]. cbn [result_map]. step.
    reflexivity.
Qed.

Lemma well_tracked_kept w w' :
  tracking_kept w w' → well_tracked (self w) → well_tracked (self w').
Proof.
  intros (H1 & H2 & H3 & H4 & _). unfold well_tracked. by rewrite H1, H2, H3, H4.
Qed.

Lemma well_tracked_scan files g : well_tracked g → well_tracked (scan_tracked files g).
Proof.
  intros (Hs & Hf & Hns & Hnf). unfold well_tracked, scan_tracked. simpl.
  split; [|split; [|split]].
  - intros file [Hin|Hin]%elem_of_union; [by apply Hs|].
    by apply elem_of_list_to_set, list_elem_of_filter in Hin as [Hext _].
  - intros file [Hin|Hin]%elem_of_union; [by apply Hf|].
    by apply elem_of_list_to_set, list_elem_of_filter in Hin as [Hext _].
  - intros file [Hin _]%elem_of_difference. by apply elem_of_union_r.
  - intros file [Hin _]%elem_of_difference. by apply elem_of_union_r.
Qed.

Lemma well_tracked_add_game_file_names fs dir sub w :
  well_tracked (self w) → well_tracked (self (_add_game_file_names fs dir sub w).1).
Proof.
  intros Hw. rewrite add_game_file_names_run.
  destruct (path_exists fs dir); [|done].
  destruct (scanned fs dir sub) as [files|e]; [|done]. by apply well_tracked_scan.
Qed.

Lemma well_tracked_add_a_game_file_name fs name w :
  well_tracked (self w) → well_tracked (self (_add_a_game_file_name fs name w).1).
Proof.
  intros (Hs & Hf & Hns & Hnf). unfold _add_a_game_file_name.
  destruct (path_isfile fs name); cbn [negb]; [|done].
  destruct (String.eqb (extension name) "sgf") eqn:Hsgf;
    [|destruct (String.eqb (extension name) "sgfs") eqn:Hsgfs; [|done]].
  - apply String.eqb_eq in Hsgf. step.
    destruct (decide (size ({[name]} ∖ _all_sgf_files (self w)) = 0)) as [Hz|Hz].
    + apply size_empty_inv in Hz. apply leibniz_equiv in Hz.
      unfold print. cbn [fst self]. unfold well_tracked. simpl. rewrite Hz.
      split; [done|]. split; [done|]. split; [done|]. apply empty_subseteq.
    + unfold update. cbn [fst self]. unfold well_tracked. simpl.
      split; [done|]. split; [|split; [done|]].
      * intros file [Hin|Hin]%elem_of_union; [by apply Hf|].
        apply elem_of_singleton in Hin. by subst.
      * intros file [Hin _]%elem_of_difference. by apply elem_of_union_r.
  - apply String.eqb_eq in Hsgfs. step.
    destruct (decide (size ({[name]} ∖ _all_sgfs_files (self w)) = 0)) as [Hz|Hz].
    + apply size_empty_inv in Hz. apply leibniz_equiv in Hz.
      unfold print. cbn [fst self]. unfold well_tracked. simpl. rewrite Hz.
      split; [done|]. split; [done|]. split; [apply empty_subseteq|done].
    + unfold update. cbn [fst self]. unfold well_tracked. simpl.
      split; [|split; [done|split; [|done]]].
      * intros file [Hin|Hin]%elem_of_union; [by apply Hs|].
        apply elem_of_singleton in Hin. by subst.
      * intros file [Hin _]%elem_of_difference. by apply elem_of_union_r.
Qed.

Lemma well_tracked_perform c w : well_tracked (self w) → well_tracked (self (perform c w)).
Proof.
  intros Hw. destruct c as [fs dir sub|fs name| | |]; simpl.
  - unfold add_games, bind.
    pose proof (well_tracked_add_game_file_names fs dir sub w Hw) as H1.
    destruct (_add_game_file_names fs dir sub w) as [w1 [[]|e]]; [|done].
    eapply well_tracked_kept; [apply add_new_games_keeps_tracking|done].
  - unfold add_a_game_file, bind.
    pose proof (well_tracked_add_a_game_file_name fs name w Hw) as H1.
    destruct (_add_a_game_file_name fs name w) as [w1 [[]|e]]; [|done].
    eapply well_tracked_kept; [apply add_new_games_keeps_tracking|done].
  - repeat split; intros file Hin; by apply not_elem_of_empty in Hin.
  - replace (self (print_game_results w).1) with (self w); [done|]. symmetry.
    apply (preserves_print_game_results (λ w w', self w' = self w)); try done.
    intros ??? H1 H2. by rewrite H2.
  - replace (self (print_elos w).1) with (self w); [done|]. symmetry.
    apply (preserves_print_elos (λ w w', self w' = self w)); try done.
    intros ??? H1 H2. by rewrite H2.
Qed.

Lemma well_tracked_session calls elo_prior : well_tracked (self (session calls elo_prior)).
Proof.
  unfold session. induction calls as [|c calls IH] using rev_ind; simpl.
  - repeat split; intros file Hin; by apply not_elem_of_empty in Hin.
  - rewrite fold_left_app. simpl. by apply well_tracked_perform.
Qed.

(** X3: in every session each tracked set holds only names of its own
    extension, so no path is tracked both as a batch file and as a
    single-game file, and the files that the last call took for new are
    among the tracked ones. *)
Theorem session_tracking_invariant :
  ∀ calls elo_prior,
    let g := self (session calls elo_prior) in
    (∀ file, file ∈ _all_sgfs_files g → extension file = "sgfs")
    ∧ (∀ file, file ∈ _all_sgf_files g → extension file = "sgf")
    ∧ _all_sgfs_files g ## _all_sgf_files g
    ∧ _new_sgfs_files g ⊆ _all_sgfs_files g
    ∧ _new_sgf_files g ⊆ _all_sgf_files g.
Proof.
  intros calls prior g.
  destruct (well_tracked_session calls prior) as (Hs & Hf & Hns & Hnf).
  split; [done|]. split; [done|]. split; [|done].
  intros file H1 H2. apply Hs in H1. apply Hf in H2. rewrite H1 in H2. discriminate H2.
Qed.

Lemma tracking_grows_refl w : tracking_grows w w.
Proof. by split. Qed.

Lemma tracking_grows_kept w w1 w2 :
  tracking_grows w w1 → tracking_kept w1 w2 → tracking_grows w w2.
Proof. intros [H1 H2] (K1 & K2 & _). unfold tracking_grows. by rewrite K1, K2. Qed.

Lemma tracking_grows_add_game_file_names fs dir sub w :
  tracking_grows w (_add_game_file_names fs dir sub w).1.
Proof.
  rewrite add_game_file_names_run. destruct (path_exists fs dir); [|by split].
  destruct (scanned fs dir sub) as [files|e]; [|by split].
  split; simpl; apply union_subseteq_l.
Qed.

Lemma tracking_grows_add_a_game_file_name fs name w :
  tracking_grows w (_add_a_game_file_name fs name w).1.
Proof.
  unfold _add_a_game_file_name.
  destruct (path_isfile fs name); cbn [negb]; [|by split].
  destruct (String.eqb (extension name) "sgf");
    [|destruct (String.eqb (extension name) "sgfs"); [|by split]].
  - step. destruct (decide _); [by split|]. split; simpl; [done|apply union_subseteq_l].
  - step. destruct (decide _); [by split|]. split; simpl; [apply union_subseteq_l|done].
Qed.

(** X4: the ingestion calls never forget a tracked file: whatever the call
    finds and however it ends, every name tracked before is tracked
    after. *)
Theorem tracked_files_are_kept :
  ∀ fs w,
    (∀ dir sub, tracking_grows w (add_games fs dir sub w).1)
    ∧ (∀ name, tracking_grows w (add_a_game_file fs name w).1).
Proof.
  intros fs w. split.
  - intros dir sub. unfold add_games, bind.
    pose proof (tracking_grows_add_game_file_names fs dir sub w) as H1.
    destruct (_add_game_file_names fs dir sub w) as [w1 [[]|e]]; [|done].
    eapply tracking_grows_kept; [done|apply add_new_games_keeps_tracking].
  - intros name. unfold add_a_game_file, bind.
    pose proof (tracking_grows_add_a_game_file_name fs name w) as H1.
    destruct (_add_a_game_file_name fs name w) as [w1 [[]|e]]; [|done].
    eapply tracking_grows_kept; [done|apply add_new_games_keeps_tracking].
Qed.

(** The second half of a call when no file is new. *)
Lemma add_new_games_nothing fs w :
  _new_sgfs_files (self w) = ∅ → _new_sgf_files (self w) = ∅ →
  _add_new_games_to_result_dict fs w
  = (mkWorld (self w)
       (stdout w ++ ["We have added additional 0 sgfs files into the results."]
                 ++ ["We have added additional 0 sgf files into the results."])
       (stderr w), Ok tt).
Proof.
  intros Hsgfs Hsgf. unfold _add_new_games_to_result_dict.
  step. rewrite Hsgfs, order_empty. cbn [for_counting]. step.
  rewrite Hsgf, order_empty. cbn [for_counting]. step.
  rewrite Hsgfs, Hsgf, size_empty. unfold print. cbn [self stdout stderr].
  by rewrite <- app_assoc.
Qed.

(** X5: scanning the same directory again, with the same listing, is a
    no-op on the results: the second call finds no new file, returns, and
    leaves the table, the flag and the tracked sets as the first call left
    them, also when the first call had ended in an exception. *)
Theorem rescan_adds_nothing :
  ∀ fs dir sub files w,
    path_exists fs dir = true →
    scanned fs dir sub = Ok files →
    let w1 := (add_games fs dir sub w).1 in
    let w2 := (add_games fs dir sub w1).1 in
    outcome (add_games fs dir sub) w1 = Ok tt
    ∧ results (self w2) = results (self w1)
    ∧ _warning (self w2) = _warning (self w1)
    ∧ _all_sgfs_files (self w2) = _all_sgfs_files (self w1)
    ∧ _all_sgf_files (self w2) = _all_sgf_files (self w1)
    ∧ _new_sgfs_files (self w2) = ∅
    ∧ _new_sgf_files (self w2) = ∅.
Proof.
  intros fs dir sub files w Hex Hscan w1 w2.
  set (found_sgfs := list_to_set (filter (λ file, extension file = "sgfs") files)
                     : gset string).
  set (found_sgf := list_to_set (filter (λ file, extension file = "sgf") files)
                    : gset string).
  assert (found_sgfs ⊆ _all_sgfs_files (self w1)
          ∧ found_sgf ⊆ _all_sgf_files (self w1)) as [Hsgfs Hsgf].
  { unfold w1, add_games, bind. rewrite add_game_file_names_run, Hex, Hscan.
    match goal with
    | |- context [_add_new_games_to_result_dict fs ?w0] =>
        destruct (add_new_games_keeps_tracking fs w0) as (K1 & K2 & _)
    end.
    rewrite K1, K2. simpl. split; apply union_subseteq_r. }
  assert (add_games fs dir sub w1
          = (mkWorld (scan_tracked files (self w1))
               (stdout (add_games fs dir sub w1).1) (stderr w1), Ok tt)) as Hrun.
  { unfold add_games at 1 2, bind. rewrite add_game_file_names_run, Hex, Hscan.
    rewrite add_new_games_nothing; [done|simpl..].
    - by apply subseteq_empty_difference_L.
    - by apply subseteq_empty_difference_L. }
  unfold outcome, w2. rewrite Hrun. simpl.
  split; [done|]. split; [done|]. split; [done|].
  split; [rewrite (comm_L (∪)); by apply subseteq_union_1_L|].
  split; [rewrite (comm_L (∪)); by apply subseteq_union_1_L|].
  split; by apply subseteq_empty_difference_L.
Qed.

Lemma set_new_sgf_files_id g : _new_sgf_files g = ∅ → set_new_sgf_files ∅ g = g.
Proof. destruct g. simpl. by intros ->. Qed.

Lemma set_new_sgfs_files_id g : _new_sgfs_files g = ∅ → set_new_sgfs_files ∅ g = g.
Proof. destruct g. simpl. by intros ->. Qed.

Lemma singleton_difference_elem (name : string) (X : gset string) :
  name ∈ X → ({[name]} : gset string) ∖ X = ∅.
Proof.
  intros Hin. by apply subseteq_empty_difference_L, singleton_subseteq_l.
Qed.

(** X6: on an object with no new files pending (a fresh or cleared one, or
    one whose last call found nothing new), a call that cannot add
    anything leaves the object alone and returns: a directory that does
    not exist, a path that is no file, a file of another extension, a
    file that is tracked already. *)
Theorem nothing_pending_nothing_added :
  ∀ fs w,
    _new_sgfs_files (self w) = ∅ → _new_sgf_files (self w) = ∅ →
    (∀ dir sub,
       path_exists fs dir = false →
       ∃ out, add_games fs dir sub w = (mkWorld (self w) out (stderr w), Ok tt))
    ∧ (∀ name,
         path_isfile fs name = false
         ∨ (extension name ≠ "sgf" ∧ extension name ≠ "sgfs")
         ∨ (extension name = "sgf" ∧ name ∈ _all_sgf_files (self w))
         ∨ (extension name = "sgfs" ∧ name ∈ _all_sgfs_files (self w)) →
         ∃ out, add_a_game_file fs name w = (mkWorld (self w) out (stderr w), Ok tt)).
Proof.
  intros fs w Hsgfs Hsgf. split.
  - intros dir sub Hex. eexists. unfold add_games, bind.
    rewrite add_game_file_names_run, Hex. by rewrite add_new_games_nothing.
  - intros name Hcase. unfold add_a_game_file, _add_a_game_file_name.
    destruct (path_isfile fs name) eqn:Hfile; cbn [negb].
    + destruct Hcase as [?|[[Hn1 Hn2]|[[He Hin]|[He Hin]]]]; [done| | |].
      * apply String.eqb_neq in Hn1, Hn2. rewrite Hn1, Hn2.
        eexists. step. by rewrite add_new_games_nothing.
      * rewrite He. change (String.eqb "sgf" "sgf") with true. cbv iota.
        eexists. step.
        rewrite singleton_difference_elem by done. rewrite size_empty.
        rewrite decide_True by done. step.
        rewrite set_new_sgf_files_id by done. by rewrite add_new_games_nothing.
      * rewrite He. change (String.eqb "sgfs" "sgf") with false.
        change (String.eqb "sgfs" "sgfs") with true. cbv iota. eexists. step.
        rewrite singleton_difference_elem by done. rewrite size_empty.
        rewrite decide_True by done. step.
        rewrite set_new_sgfs_files_id by done. by rewrite add_new_games_nothing.
    + eexists. step. by rewrite add_new_games_nothing.
Qed.

(** ** Files that can be read *)

Lemma for_each_fold_games sgf_strings w :
  Forall (λ s, is_Some (from_bytes s)) sgf_strings →
  for_each sgf_strings _add_a_single_sgf_string w
  = (mkWorld (fold_games (omap from_bytes sgf_strings) (self w)) (stdout w) (stderr w),
     Ok tt).
Proof.
  intros Hall. revert w. induction Hall as [|s rest [game Hs] _ IH]; intros w; simpl.
  - unfold ret. by rewrite world_eta.
  - unfold bind. rewrite (add_a_single_sgf_string_ok _ _ _ Hs), Hs. simpl. by rewrite IH.
Qed.

Lemma fold_games_app games1 games2 g :
  fold_games (games1 ++ games2) g = fold_games games2 (fold_games games1 g).
Proof. revert g. induction games1 as [|game rest IH]; intros g; simpl; [done|apply IH]. Qed.

Lemma fold_games_tracking games g :
  _all_sgfs_files (fold_games games g) = _all_sgfs_files g
  ∧ _all_sgf_files (fold_games games g) = _all_sgf_files g
  ∧ _new_sgfs_files (fold_games games g) = _new_sgfs_files g
  ∧ _new_sgf_files (fold_games games g) = _new_sgf_files g
  ∧ _elo_prior (fold_games games g) = _elo_prior g.
Proof.
  revert g. induction games as [|game rest IH]; intros g; simpl; [done|].
  destruct (IH (folded game g)) as (H1 & H2 & H3 & H4 & H5).
  by rewrite H1, H2, H3, H4, H5.
Qed.

Lemma total_games_fold_games games g :
  total_games (results (fold_games games g))
  = (total_games (results g) + Z.of_nat (length games))%Z.
Proof.
  revert g. induction games as [|game rest IH]; intros g; simpl; [lia|].
  rewrite IH. simpl. rewrite total_games_fold_table. lia.
Qed.

Lemma length_omap_parsed sgf_strings :
  Forall (λ s, is_Some (from_bytes s)) sgf_strings →
  length (omap from_bytes sgf_strings) = length sgf_strings.
Proof.
  induction 1 as [|s rest [game Hs] _ IH]; simpl; [done|].
  rewrite Hs. simpl. f_equal. exact IH.
Qed.

(** X7: a batch file that can be read and in which sgfmill reads every
    line is folded line by line: the call returns, prints nothing, and the
    table has as many more games as the file has lines.  A single-game
    file that can be read adds its one game.  A file that has vanished
    since it was listed is reported and skipped. *)
Theorem readable_file_is_folded :
  ∀ fs name w,
    (∀ content,
       path_exists fs name = true → read_bytes fs name = Ok content →
       Forall (λ s, is_Some (from_bytes s)) (readlines content) →
       _add_one_sgfs_file_to_result fs name w
       = (mkWorld (fold_games (omap from_bytes (readlines content)) (self w))
            (stdout w) (stderr w), Ok tt)
       ∧ total_games (results (state_after (_add_one_sgfs_file_to_result fs name) w))
         = (total_games (results (self w)) + Z.of_nat (length (readlines content)))%Z)
    ∧ (∀ content game,
         path_exists fs name = true → read_bytes fs name = Ok content →
         from_bytes content = Some game →
         _add_one_sgf_file_to_result fs name w
         = (mkWorld (folded game (self w)) (stdout w) (stderr w), Ok tt)
         ∧ total_games (results (state_after (_add_one_sgf_file_to_result fs name) w))
           = (total_games (results (self w)) + 1)%Z)
    ∧ (path_exists fs name = false →
       _add_one_sgfs_file_to_result fs name w
       = (mkWorld (self w) (stdout w ++ ["There is no SGFs file as " +:+ name]) (stderr w),
          Ok tt)
       ∧ _add_one_sgf_file_to_result fs name w
         = (mkWorld (self w) (stdout w ++ ["There is no SGF file as " +:+ name]) (stderr w),
            Ok tt)).
Proof.
  intros fs name w. split; [|split].
  - intros content Hex Hread Hall.
    assert (_add_one_sgfs_file_to_result fs name w
            = (mkWorld (fold_games (omap from_bytes (readlines content)) (self w))
                 (stdout w) (stderr w), Ok tt)) as Hrun.
    { unfold _add_one_sgfs_file_to_result. rewrite Hex, Hread. cbn [negb]. step.
      by apply for_each_fold_games. }
    split; [done|]. unfold state_after. rewrite Hrun. simpl.
    by rewrite total_games_fold_games, length_omap_parsed.
  - intros content game Hex Hread Hparse.
    pose proof (add_one_sgf_file_ok fs name content game w Hex Hread Hparse) as Hrun.
    split; [done|]. unfold state_after. rewrite Hrun. simpl.
    apply total_games_fold_table.
  - intros Hex. unfold _add_one_sgfs_file_to_result, _add_one_sgf_file_to_result.
    by rewrite Hex.
Qed.

(** ** The order of the files does not matter *)

Lemma bump_comm winner1 winner2 r :
  bump winner1 (bump winner2 r) = bump winner2 (bump winner1 r).
Proof.
  destruct winner1 as [[]|], winner2 as [[]|]; unfold bump; simpl; f_equal; lia.
Qed.

Lemma fold_table_comm game1 game2 t :
  fold_table game1 (fold_table game2 t) = fold_table game2 (fold_table game1 t).
Proof.
  unfold fold_table at 1 3. rewrite !lookup0_fold_table.
  destruct (decide (game_key game1 = game_key game2)) as [Heq|Hne].
  - rewrite Heq. rewrite decide_True by done. unfold fold_table.
    rewrite Heq, !insert_insert_eq. by rewrite bump_comm.
  - rewrite decide_False by congruence.
    unfold fold_table. by apply insert_insert_ne.
Qed.

Lemma folded_comm game1 game2 g :
  folded game1 (folded game2 g) = folded game2 (folded game1 g).
Proof.
  unfold folded. simpl. rewrite fold_table_comm. f_equal.
  by repeat match goal with |- context [if ?b then _ else _] => destruct b end.
Qed.

Lemma fold_games_folded games game g :
  fold_games games (folded game g) = folded game (fold_games games g).
Proof.
  revert g. induction games as [|game' rest IH]; intros g; simpl; [done|].
  by rewrite folded_comm, IH.
Qed.

Lemma fold_games_Permutation games1 games2 g :
  games1 ≡ₚ games2 → fold_games games1 g = fold_games games2 g.
Proof.
  intros Hp. revert g. induction Hp as [|game l1 l2 _ IH|x y l|l1 l2 l3 _ IH1 _ IH2];
    intros g; simpl.
  - done.
  - apply IH.
  - by rewrite folded_comm.
  - by rewrite IH1.
Qed.

Lemma add_one_sgfs_file_good fs name w :
  good_batch fs name →
  ∃ out, _add_one_sgfs_file_to_result fs name w
         = (mkWorld (fold_games (batch_games fs name) (self w)) out (stderr w), Ok tt).
Proof.
  intros [Hex|(content & Hread & Hall)]; unfold _add_one_sgfs_file_to_result, batch_games.
  - rewrite Hex. by eexists.
  - destruct (path_exists fs name); cbn [negb]; [|by eexists].
    rewrite Hread. step. rewrite for_each_fold_games by done. by eexists.
Qed.

Lemma add_one_sgf_file_good fs name w :
  good_single fs name →
  ∃ out, _add_one_sgf_file_to_result fs name w
         = (mkWorld (fold_games (single_games fs name) (self w)) out (stderr w), Ok tt).
Proof.
  intros [Hex|(content & game & Hread & Hparse)];
    unfold _add_one_sgf_file_to_result, single_games.
  - rewrite Hex. by eexists.
  - destruct (path_exists fs name); cbn [negb]; [|by eexists].
    rewrite Hread, Hparse. step. rewrite (add_a_single_sgf_string_ok _ _ _ Hparse).
    by eexists.
Qed.

(** A loop over files that all go through, whatever is printed between
    them. *)
Lemma for_counting_files {A} (games_of_file : A → list Sgf_game)
    (body : nat → A → M unit) (l : list A) idx w :
  (∀ i x w, x ∈ l →
     ∃ out, body i x w
            = (mkWorld (fold_games (games_of_file x) (self w)) out (stderr w), Ok tt)) →
  ∃ out, for_counting idx l body w
         = (mkWorld (fold_games (flat_map games_of_file l) (self w)) out (stderr w), Ok tt).
Proof.
  revert idx w. induction l as [|x l IH]; intros idx w Hbody; simpl.
  - exists (stdout w). unfold ret. by rewrite world_eta.
  - destruct (Hbody idx x w) as [out1 H1]; [by left|].
    unfold bind. rewrite H1.
    destruct (IH (S idx) (mkWorld (fold_games (games_of_file x) (self w)) out1 (stderr w)))
      as [out2 H2].
    { intros i y w' Hy. apply Hbody. by right. }
    rewrite H2. exists out2. simpl. by rewrite fold_games_app.
Qed.

Lemma add_new_games_good fs w :
  (∀ name, name ∈ _new_sgfs_files (self w) → good_batch fs name) →
  (∀ name, name ∈ _new_sgf_files (self w) → good_single fs name) →
  ∃ out, _add_new_games_to_result_dict fs w
         = (mkWorld (ingested fs (self w)) out (stderr w), Ok tt).
Proof.
  intros Hbatch Hsingle. unfold _add_new_games_to_result_dict. rewrite bind_get_self.
  destruct (for_counting_files (batch_games fs)
              (λ idx sgfs,
                 _add_one_sgfs_file_to_result fs sgfs >>
                 (if decide (idx `mod` 10 = 0)
                  then let! g := get_self in
                       print ("Addedd " +:+ pretty idx +:+ " files out of "
                              +:+ pretty (size (_new_sgfs_files g)) +:+ " sgfs files.")
                  else ret tt))
              (order iteration (_new_sgfs_files (self w))) 1 w) as [out1 H1].
  { intros i name w' Hin.
    destruct (add_one_sgfs_file_good fs name w') as [out Hrun];
      [by apply Hbatch, elem_of_order|].
    unfold bind at 1. rewrite Hrun. destruct (decide _); by eexists. }
  unfold bind at 1. rewrite H1. step.
  set (g1 := fold_games _ (self w)).
  assert (_new_sgf_files g1 = _new_sgf_files (self w)) as Hnew
    by apply fold_games_tracking.
  match goal with
  | |- context [bind (for_counting 1 _ ?body) _ ?w1] =>
      destruct (for_counting_files (single_games fs) body
                  (order iteration (_new_sgf_files g1)) 1 w1) as [out2 H2]
  end.
  { intros i name w' Hin.
    destruct (add_one_sgf_file_good fs name w') as [out Hrun].
    { apply Hsingle. rewrite <- Hnew. by apply elem_of_order. }
    unfold bind at 1. rewrite Hrun. destruct (decide _); by eexists. }
  unfold bind at 1. rewrite H2. step. eexists. unfold print. cbn [self stdout stderr].
  f_equal. f_equal. unfold ingested. rewrite Hnew. unfold g1.
  rewrite (fold_games_Permutation _ (flat_map (single_games fs)
                                       (elements (_new_sgf_files (self w))))).
  - f_equal. apply fold_games_Permutation, Permutation_flat_map, order_perm.
  - apply Permutation_flat_map, order_perm.
Qed.

(** ** A bad record among the new files *)

(** A loop over files that ends at a file which raises after folding some
    of its games. *)
Lemma for_counting_files_abort {A} (games_of_file : A → list Sgf_game)
    (body : nat → A → M unit) (l1 : list A) (x : A) (l2 : list A)
    (games_of_x : list Sgf_game) (e : exn) idx w :
  (∀ i y w, y ∈ l1 →
     ∃ out, body i y w
            = (mkWorld (fold_games (games_of_file y) (self w)) out (stderr w), Ok tt)) →
  (∀ i w,
     ∃ out, body i x w
            = (mkWorld (fold_games games_of_x (self w)) out (stderr w), Raise e)) →
  ∃ out, for_counting idx (l1 ++ x :: l2) body w
         = (mkWorld (fold_games (flat_map games_of_file l1 ++ games_of_x) (self w))
              out (stderr w), Raise e).
Proof.
  revert idx w. induction l1 as [|y l1 IH]; intros idx w Hgood Hbad; simpl.
  - destruct (Hbad idx w) as [out Hx]. unfold bind. rewrite Hx. by exists out.
  - destruct (Hgood idx y w) as [out1 H1]; [rewrite elem_of_cons; by left|].
    unfold bind. rewrite H1.
    destruct (IH (S idx) (mkWorld (fold_games (games_of_file y) (self w)) out1 (stderr w)))
      as [out2 H2].
    { intros i z w' Hz. apply Hgood. rewrite elem_of_cons. by right. }
    { exact Hbad. }
    unfold bind in H2. rewrite H2. exists out2. cbn [self stderr].
    by rewrite <- app_assoc, (fold_games_app (games_of_file y)).
Qed.

(** The second half of a public call when a batch file among the new ones
    has a record that sgfmill refuses. *)
Lemma add_new_games_abort fs w files_before name files_after content before bad after :
  Forall (λ s, is_Some (from_bytes s)) before →
  from_bytes bad = None →
  order iteration (_new_sgfs_files (self w)) = files_before ++ name :: files_after →
  Forall (good_batch fs) files_before →
  path_exists fs name = true → read_bytes fs name = Ok content →
  readlines content = before ++ bad :: after →
  ∃ out,
    _add_new_games_to_result_dict fs w
    = (mkWorld (fold_games (flat_map (batch_games fs) files_before
                            ++ omap from_bytes before) (self w))
         out (stderr w), Raise ValueError).
Proof.
  intros Hall Hbad Horder Hgood Hex Hread Hlines.
  unfold _add_new_games_to_result_dict. rewrite bind_get_self, Horder.
  match goal with
  | |- context [bind (for_counting 1 _ ?body) _ w] =>
      destruct (for_counting_files_abort (batch_games fs) body files_before name
                  files_after (omap from_bytes before) ValueError 1 w) as [out Hrun]
  end.
  - intros i y w' Hy.
    destruct (add_one_sgfs_file_good fs y w') as [out Hrun].
    { rewrite Forall_forall in Hgood. by apply Hgood. }
    unfold bind at 1. rewrite Hrun. destruct (decide _); by eexists.
  - intros i w'. exists (stdout w'). unfold bind at 1.
    rewrite (add_one_sgfs_file_abort fs name content before bad after w')
      by done.
    by rewrite for_each_fold_games.
  - exists out. unfold bind at 1. by rewrite Hrun.
Qed.

(** C6, as the code has it: a record that sgfmill refuses ends the call
    with [ValueError].  The batch files that the loop has taken before are
    folded, and so are the records that stand before the bad one in its
    file; the records after it are not, and neither is any file that was
    still waiting, batch file or single-game file: the object is the one
    after the games of the earlier files and the records before the bad
    one.  This holds for the loop over the records, for the ingestion of
    one file, for the second half of a public call, for [add_games] and
    for [add_a_game_file]. *)
Theorem parse_failure_aborts :
  ∀ before bad after,
    Forall (λ s, is_Some (from_bytes s)) before →
    from_bytes bad = None →
    (∀ w,
       for_each (before ++ bad :: after) _add_a_single_sgf_string w
       = ((for_each before _add_a_single_sgf_string w).1, Raise ValueError)
       ∧ fold_records (before ++ bad :: after) (results (self w))
         = fold_records before (results (self w)))
    ∧ (∀ fs name content w,
         path_exists fs name = true → read_bytes fs name = Ok content →
         readlines content = before ++ bad :: after →
         _add_one_sgfs_file_to_result fs name w
         = ((for_each before _add_a_single_sgf_string w).1, Raise ValueError))
    ∧ (∀ fs files_before name files_after content w,
         order iteration (_new_sgfs_files (self w))
         = files_before ++ name :: files_after →
         Forall (good_batch fs) files_before →
         path_exists fs name = true → read_bytes fs name = Ok content →
         readlines content = before ++ bad :: after →
         outcome (_add_new_games_to_result_dict fs) w = Raise ValueError
         ∧ state_after (_add_new_games_to_result_dict fs) w
           = fold_games (flat_map (batch_games fs) files_before
                         ++ omap from_bytes before) (self w))
    ∧ (∀ fs dir sub files files_before name files_after content w,
         path_exists fs dir = true → scanned fs dir sub = Ok files →
         order iteration (_new_sgfs_files (scan_tracked files (self w)))
         = files_before ++ name :: files_after →
         Forall (good_batch fs) files_before →
         path_exists fs name = true → read_bytes fs name = Ok content →
         readlines content = before ++ bad :: after →
         outcome (add_games fs dir sub) w = Raise ValueError
         ∧ state_after (add_games fs dir sub) w
           = fold_games (flat_map (batch_games fs) files_before
                         ++ omap from_bytes before)
               (scan_tracked files (self w)))
    ∧ (∀ fs name content w,
         path_isfile fs name = true → path_exists fs name = true →
         extension name = "sgfs" →
         name ∉ _all_sgfs_files (self w) →
         read_bytes fs name = Ok content →
         readlines content = before ++ bad :: after →
         outcome (add_a_game_file fs name) w = Raise ValueError
         ∧ state_after (add_a_game_file fs name) w
           = fold_games (omap from_bytes before)
               (set_all_sgfs_files (_all_sgfs_files (self w) ∪ {[name]})
                  (set_new_sgfs_files {[name]} (self w)))
         ∧ results (state_after (add_a_game_file fs name) w)
           = fold_records before (results (self w))
         ∧ stdout (add_a_game_file fs name w).1 = stdout w).
Proof.
  intros before bad after Hall Hbad. split; [|split; [|split; [|split]]].
  - intros w. split; [by apply for_each_abort|by apply fold_records_abort].
  - intros fs name content w Hex Hread Hlines. by eapply add_one_sgfs_file_abort.
  - intros fs files_before name files_after content w Horder Hgood Hex Hread Hlines.
    destruct (add_new_games_abort fs w files_before name files_after content
                before bad after) as [out Hrun]; [done..|].
    unfold outcome, state_after. by rewrite Hrun.
  - intros fs dir sub files files_before name files_after content w
      Hdir Hscan Horder Hgood Hex Hread Hlines.
    unfold outcome, state_after, add_games, bind.
    rewrite add_game_file_names_run, Hdir, Hscan.
    match goal with
    | |- context [_add_new_games_to_result_dict fs ?w1] =>
        destruct (add_new_games_abort fs w1 files_before name files_after content
                    before bad after) as [out Hrun]; [done..|]
    end.
    by rewrite Hrun.
  - intros fs name content w Hfile Hex Hext Hnew Hread Hlines.
    assert (add_a_game_file fs name w
            = ((for_each before _add_a_single_sgf_string
                  (mkWorld (set_all_sgfs_files (_all_sgfs_files (self w) ∪ {[name]})
                              (set_new_sgfs_files {[name]} (self w)))
                     (stdout w) (stderr w))).1,
               Raise ValueError)) as Hrun.
    { unfold add_a_game_file. unfold bind at 1.
      rewrite add_a_game_file_name_sgfs by done.
      unfold _add_new_games_to_result_dict. step.
      rewrite order_singleton. cbn [for_counting]. step.
      unfold bind at 1.
      erewrite add_one_sgfs_file_abort by done. reflexivity. }
    unfold outcome, state_after. rewrite Hrun. cbn [fst snd].
    split; [done|]. split; [|split].
    + by rewrite for_each_fold_games.
    + by rewrite for_each_records.
    + match goal with
      | |- context [for_each before _ ?w1] =>
          destruct (for_each_parsed before w1 Hall) as [_ ->]
      end.
      done.
Qed.

(** ** The input of the rating *)

Lemma collect_app {A B} (f : A → result B) (l1 l2 : list A) :
  collect f (l1 ++ l2)
  = result_bind (collect f l1) (λ ys1, result_map (app ys1) (collect f l2)).
Proof.
  induction l1 as [|x l1 IH]; simpl.
  - destruct (collect f l2); reflexivity.
  - destruct (f x) as [y|e]; [|done]. rewrite IH.
    destruct (collect f l1) as [ys1|e]; simpl; [|done].
    by destruct (collect f l2).
Qed.

Lemma collect_ext_in {A B} (f g : A → result B) (l : list A) :
  (∀ x, x ∈ l → f x = g x) → collect f l = collect g l.
Proof.
  induction l as [|x l IH]; intros Hfg; simpl; [done|].
  rewrite (Hfg x) by left. rewrite IH; [done|]. intros y Hy. apply Hfg. by right.
Qed.

(** Collecting over the concatenation of lists is collecting list by list. *)
Lemma collect_flat_map {A B C} (f : B → result (list C)) (g : A → list B) (l : list A) :
  result_map (@concat C) (collect f (flat_map g l))
  = result_map (@concat C)
      (collect (λ a, result_map (@concat C) (collect f (g a))) l).
Proof.
  induction l as [|a l IH]; simpl; [done|]. rewrite collect_app.
  destruct (collect f (g a)) as [ys|e]; simpl; [|done].
  destruct (collect f (flat_map g l)) as [zs|e];
    destruct (collect _ l) as [zss|e']; simpl in *; try congruence.
  injection IH as IH. by rewrite concat_app, IH.
Qed.

Lemma likelihoods_observation t a b :
  (a ≠ b → ∃ r winrate, t !! (a, b) = Some r ∧ win_rate r = Ok winrate) →
  pair_data t a b = likelihoods (observation t a b).
Proof.
  intros Hc. unfold pair_data, observation, likelihoods.
  case_decide as Hab; [done|]. destruct (Hc Hab) as (r & winrate & -> & ->). simpl.
  destruct (likelihood_of_games a b (games_of r) winrate false); simpl; [|done].
  by rewrite app_nil_r.
Qed.

Lemma sound_moderate_win_rate t key r :
  sound t → moderate t → t !! key = Some r → ∃ winrate, win_rate r = Ok winrate.
Proof.
  intros Hs Hm Hr. destruct (Hs _ _ Hr) as (Hw & Hl & Hd & Hn).
  specialize (Hm _ _ Hr). simpl in Hm. apply win_rate_ok; [done|done|done|lia].
Qed.

(** On a table with a record for every pair, the double loop hands the
    observations to [elo.likelihood_of_games] one after the other. *)
Lemma rating_input_observations t names elo_prior :
  sound t → moderate t →
  (∀ a b, a ∈ names → b ∈ names → a ≠ b → is_Some (t !! (a, b))) →
  rating_input t names elo_prior
  = result_bind (likelihoods (observations t names)) (λ data,
      result_map (λ prior, data ++ prior) (make_center_elos_prior names elo_prior)).
Proof.
  intros Hs Hm Hc.
  assert (collect (λ a, likelihoods (flat_map (observation t a) names)) names
          = collect (λ a, result_map (@concat Likelihood) (collect (pair_data t a) names))
                    names) as Hrows.
  { apply collect_ext_in. intros a Ha.
    unfold likelihoods. rewrite collect_flat_map. f_equal.
    apply collect_ext_in. intros b Hb. symmetry.
    apply likelihoods_observation. intros Hab.
    destruct (Hc a b Ha Hb Hab) as [r Hr].
    destruct (sound_moderate_win_rate t _ r Hs Hm Hr) as [winrate Hrate].
    by exists r, winrate. }
  unfold rating_input. rewrite <- Hrows.
  unfold likelihoods at 2, observations. rewrite collect_flat_map.
  change (collect (λ a, result_map (@concat Likelihood) (collect _ (flat_map _ names))) names)
    with (collect (λ a, likelihoods (flat_map (observation t a) names)) names).
  by destruct (collect (λ a, likelihoods (flat_map (observation t a) names)) names).
Qed.

Lemma pairs_ok_complete t yss :
  collect (λ a, result_map (@concat Likelihood)
                  (collect (pair_data t a) (order iteration (player_names t))))
          (order iteration (player_names t)) = Ok yss →
  complete t.
Proof.
  intros Hyss a b Ha Hb Hab.
  destruct (t !! (a, b)) as [r|] eqn:Hr; [by eexists|]. exfalso.
  eapply collect_ok_inv in Hyss as [row Hrow]; [|by apply elem_of_order, Ha].
  destruct (collect (pair_data t a) (order iteration (player_names t)))
    as [ys|e] eqn:Hys; [|done].
  eapply collect_ok_inv in Hys as [c Hcell]; [|by apply elem_of_order, Hb].
  unfold pair_data in Hcell. rewrite decide_False, Hr in Hcell by done. done.
Qed.

Lemma rating_input_ok_complete t elo_prior data :
  rating_input t (order iteration (player_names t)) elo_prior = Ok data → complete t.
Proof.
  unfold rating_input. intros Hok.
  destruct (collect _ (order iteration (player_names t))) as [yss|e] eqn:Hyss; [|done].
  by eapply pairs_ok_complete.
Qed.

Lemma rating_input_incomplete t elo_prior :
  sound t → moderate t → elo_accepts t → ¬ complete t →
  rating_input t (order iteration (player_names t)) elo_prior = Raise KeyError.
Proof.
  intros Hs Hm Ha Hc. unfold rating_input.
  destruct (collect _ (order iteration (player_names t))) as [yss|e] eqn:Hyss.
  - exfalso. by eapply Hc, pairs_ok_complete.
  - simpl. f_equal. apply collect_raise in Hyss as (x & _ & Hrow).
    destruct (collect (pair_data t x) (order iteration (player_names t)))
      as [ys|e'] eqn:Hys; [done|].
    simpl in Hrow. injection Hrow as ->.
    apply collect_raise in Hys as (y & _ & Hxy).
    by eapply pair_data_raise_KeyError.
Qed.

Lemma elem_of_observation t a b o :
  o ∈ observation t a b ↔
  a ≠ b ∧ ∃ record winrate,
    t !! (a, b) = Some record ∧ win_rate record = Ok winrate
    ∧ o = (a, b, games_of record, winrate).
Proof.
  unfold observation. case_decide as Hab.
  - split; [by intros ?%elem_of_nil|by intros [? _]].
  - destruct (t !! (a, b)) as [r|].
    + destruct (win_rate r) as [winrate|e] eqn:Hrate.
      * rewrite list_elem_of_singleton. split.
        -- intros ->. split; [done|]. by exists r, winrate.
        -- intros [_ (r' & winrate' & [= <-] & Hrate' & ->)]. congruence.
      * split; [by intros ?%elem_of_nil|].
        intros [_ (r' & winrate' & [= <-] & Hrate' & _)]. congruence.
    + split; [by intros ?%elem_of_nil|by intros [_ (? & ? & ? & _)]].
Qed.

Lemma elem_of_observations t names a b total winrate :
  (a, b, total, winrate) ∈ observations t names ↔
  a ∈ names ∧ b ∈ names ∧ a ≠ b
  ∧ ∃ record,
      t !! (a, b) = Some record ∧ total = games_of record
      ∧ win_rate record = Ok winrate.
Proof.
  unfold observations. rewrite list_elem_of_In, in_flat_map. split.
  - intros (a' & Ha' & Hin). apply in_flat_map in Hin as (b' & Hb' & Hin).
    apply list_elem_of_In, elem_of_observation in Hin
      as (Hne & r & rate & Hr & Hrate & [= -> -> -> ->]).
    apply list_elem_of_In in Ha', Hb'. split; [done|]. split; [done|].
    split; [done|]. by exists r.
  - intros (Ha & Hb & Hne & r & Hr & -> & Hrate).
    exists a. split; [by apply list_elem_of_In|].
    apply in_flat_map. exists b. split; [by apply list_elem_of_In|].
    apply list_elem_of_In, elem_of_observation. split; [done|]. by exists r, winrate.
Qed.

(** X9: the preparation of the rating input in a session, when no record
    has counted 2^53 games and [elo.likelihood_of_games] returns for the
    records of the table.  If some ordered pair of distinct players has no
    record, [_estimate_elo] raises [KeyError]; it has then not called
    [elo.compute_elos] and has printed nothing.  If every pair has its
    record, the observations go through [elo.likelihood_of_games], and the
    outcome is that of [elo.make_center_elos_prior] and of
    [elo.compute_elos], called with [verbose] on, whose lines are printed.
    The arithmetic of the win rates raises nothing, and the object is left
    as it was in every case. *)
Theorem estimate_elo_in_session :
  ∀ calls elo_prior,
    let w := session calls elo_prior in
    let t := results (self w) in
    let names := order iteration (player_names t) in
    moderate t → elo_accepts t →
    (¬ complete t → _estimate_elo w = (w, Raise KeyError))
    ∧ (complete t →
       ∃ data,
         likelihoods (observations t names) = Ok data
         ∧ _estimate_elo w
           = match make_center_elos_prior names (_elo_prior (self w)) with
             | Raise e => (w, Raise e)
             | Ok prior => printing (compute_elos (data ++ prior) true) w
             end)
    ∧ self (_estimate_elo w).1 = self w.
Proof.
  intros calls prior w t names Hm Ha.
  pose proof (sound_session calls prior) as Hs. fold w in Hs. fold t in Hs.
  split; [|split].
  - intros Hc. rewrite estimate_elo_run. fold t.
    by rewrite rating_input_incomplete.
  - intros Hc. rewrite estimate_elo_run. fold t. fold names.
    rewrite rating_input_observations; [|done|done|].
    2:{ intros a b Ha' Hb' Hab. apply Hc; [by apply elem_of_order in Ha'
                                          |by apply elem_of_order in Hb'|done]. }
    destruct (likelihoods (observations t names)) as [data|e] eqn:Hdata.
    + exists data. split; [done|]. simpl.
      by destruct (make_center_elos_prior names (_elo_prior (self w))).
    + exfalso. unfold likelihoods in Hdata.
      destruct (collect _ (observations t names)) as [yss|e'] eqn:Hyss; [done|].
      apply collect_raise in Hyss as ([[[a b] total] winrate] & Hin & Hraise).
      apply elem_of_observations in Hin as (_ & _ & _ & r & Hr & -> & Hrate).
      destruct (Ha a b r winrate Hr Hrate) as [games Hok]. congruence.
  - rewrite estimate_elo_run.
    by destruct (rating_input _ _ _).
Qed.

(** X10: what [elo] is told.  On a table in which every ordered pair of
    distinct players has a record, every record with at least one game and
    fewer than 2^53, the data of [_estimate_elo] are made of one
    observation for each ordered pair of distinct players, in the order of
    the double loop, followed by the prior: the pair, the number of games
    of its record, and the win rate that float arithmetic gives for the
    wins plus half the draws over the games, with the colour flag off.
    With these data [elo.compute_elos] is called, [verbose] on. *)
Theorem estimate_elo_observations :
  ∀ w,
    let t := results (self w) in
    let names := order iteration (player_names t) in
    sound t → moderate t → complete t →
    rating_input t names (_elo_prior (self w))
    = result_bind (likelihoods (observations t names)) (λ data,
        result_map (λ prior, data ++ prior)
                   (make_center_elos_prior names (_elo_prior (self w))))
    ∧ (∀ data,
         rating_input t names (_elo_prior (self w)) = Ok data →
         _estimate_elo w = printing (compute_elos data true) w)
    ∧ (∀ a b total winrate,
         (a, b, total, winrate) ∈ observations t names ↔
         a ∈ player_names t ∧ b ∈ player_names t ∧ a ≠ b
         ∧ ∃ record,
             t !! (a, b) = Some record ∧ total = games_of record
             ∧ win_rate record = Ok winrate)
    ∧ (∀ a b, a ∈ player_names t → b ∈ player_names t → a ≠ b →
              ∃ total winrate, (a, b, total, winrate) ∈ observations t names)
    ∧ (∀ a b total winrate,
         (a, b, total, winrate) ∈ observations t names → (1 ≤ total < 2 ^ 53)%Z).
Proof.
  intros w t names Hs Hm Hc.
  assert (∀ a b total winrate,
            (a, b, total, winrate) ∈ observations t names ↔
            a ∈ player_names t ∧ b ∈ player_names t ∧ a ≠ b
            ∧ ∃ record,
                t !! (a, b) = Some record ∧ total = games_of record
                ∧ win_rate record = Ok winrate) as Hobs.
  { intros a b total winrate. rewrite elem_of_observations.
    unfold names. by rewrite !elem_of_order. }
  split; [|split; [|split; [|split]]].
  - apply rating_input_observations; [done|done|].
    intros a b Ha Hb Hab. apply Hc; [by apply elem_of_order in Ha
                                    |by apply elem_of_order in Hb|done].
  - intros data Hdata. rewrite estimate_elo_run. fold t. fold names. by rewrite Hdata.
  - exact Hobs.
  - intros a b Ha Hb Hab. destruct (Hc a b Ha Hb Hab) as [r Hr].
    destruct (sound_moderate_win_rate t _ r Hs Hm Hr) as [winrate Hrate].
    exists (games_of r), winrate. apply Hobs. repeat split; [done..|]. by exists r.
  - intros a b total winrate (_ & _ & _ & r & Hr & -> & _)%Hobs.
    destruct (Hs _ _ Hr) as (_ & _ & _ & Hn). specialize (Hm _ _ Hr). simpl in Hm. lia.
Qed.

(** ** The player legend *)

Lemma py_len_app s1 s2 : py_len (s1 +:+ s2) = py_len s1 + py_len s2.
Proof.
  induction s1 as [|c s1 IH]; simpl; [done|]. rewrite IH.
  by destruct (continues_character c).
Qed.

Lemma py_len_spaces n : py_len (spaces n) = n.
Proof. induction n as [|n IH]; simpl; [done|]. by rewrite IH. Qed.

Lemma ljust_py_len s w : py_len s ≤ w → py_len (ljust s w) = w.
Proof. intros Hle. unfold ljust. rewrite py_len_app, py_len_spaces. lia. Qed.

(** The names of a list without [None]. *)
Lemma named_fmap (strs : list string) : named (Some <$> strs) = strs.
Proof. unfold named. induction strs as [|x r IH]; simpl; [done|by f_equal]. Qed.

Lemma fmap_named (names : list player) : None ∉ names → names = Some <$> named names.
Proof.
  induction names as [|[x|] r IH]; intros Hn; simpl.
  - done.
  - unfold named in *. simpl. f_equal. apply IH. intros H. apply Hn. by right.
  - destruct Hn. by left.
Qed.

Lemma fold_left_key_named (r : list string) (x : string) :
  ∃ best,
    fold_left
      (λ best y,
         result_bind best (λ '(b, kb),
           result_map (λ ky, if (kb <? ky)%nat then (y, ky) else (b, kb)) (len_name y)))
      (Some <$> r) (Ok (Some x, py_len x))
    = Ok (Some best, py_len best)
    ∧ py_len best = py_len x `max` max_list (py_len <$> r).
Proof.
  revert x. induction r as [|y r IH]; intros x.
  - exists x. split; [done|simpl; lia].
  - rewrite fmap_cons. cbn [fold_left result_bind len_name result_map max_list].
    rewrite fmap_cons. cbn [max_list].
    destruct (Nat.ltb_spec (py_len x) (py_len y)).
    + destruct (IH y) as (best & -> & Hlen). exists best. split; [done|].
      change (id (py_len y)) with (py_len y). lia.
    + destruct (IH x) as (best & -> & Hlen). exists best. split; [done|].
      change (id (py_len y)) with (py_len y). lia.
Qed.

Lemma py_max_key_named (strs : list string) :
  strs ≠ [] →
  ∃ longest, py_max_key len_name (Some <$> strs) = Ok (Some longest)
             ∧ py_len longest = max_list (py_len <$> strs).
Proof.
  destruct strs as [|x r]; [done|]. intros _.
  rewrite !fmap_cons. cbn [py_max_key len_name result_bind max_list].
  destruct (fold_left_key_named r x) as (best & -> & Hlen). exists best.
  split; [done|]. change (id (py_len x)) with (py_len x). lia.
Qed.

Lemma fold_left_key_raise (r : list player) e :
  fold_left
    (λ best y,
       result_bind best (λ '(b, kb),
         result_map (λ ky, if (kb <? ky)%nat then (y, ky) else (b, kb)) (len_name y)))
    r (Raise e)
  = Raise e.
Proof. induction r as [|y r IH]; simpl; [done|apply IH]. Qed.

Lemma fold_left_key_anonymous (r : list player) (p : player * nat) :
  None ∈ r →
  fold_left
    (λ best y,
       result_bind best (λ '(b, kb),
         result_map (λ ky, if (kb <? ky)%nat then (y, ky) else (b, kb)) (len_name y)))
    r (Ok p)
  = Raise TypeError.
Proof.
  revert p. induction r as [|y r IH]; intros [b kb] Hin; [by apply elem_of_nil in Hin|].
  simpl. destruct y as [s|]; simpl.
  - apply IH. apply elem_of_cons in Hin as [Hin|Hin]; [done|exact Hin].
  - apply fold_left_key_raise.
Qed.

Lemma py_max_key_anonymous (names : list player) :
  None ∈ names → py_max_key len_name names = Raise TypeError.
Proof.
  destruct names as [|[x|] r]; intros Hin; simpl.
  - by apply elem_of_nil in Hin.
  - rewrite fold_left_key_anonymous; [done|].
    apply elem_of_cons in Hin as [Hin|Hin]; [done|exact Hin].
  - done.
Qed.

Lemma for_counting_print {A} (line : nat → A → string) (l : list A) idx w :
  for_counting idx l (λ i x, print (line i x)) w
  = (mkWorld (self w) (stdout w ++ imap (λ i x, line (idx + i) x) l) (stderr w), Ok tt).
Proof.
  revert idx w. induction l as [|x l IH]; intros idx w; simpl.
  - unfold ret. by rewrite app_nil_r, world_eta.
  - rewrite bind_print, IH. cbn [self stdout stderr]. rewrite <- app_assoc. simpl.
    rewrite Nat.add_0_r. do 4 f_equal. apply imap_ext. intros i y _. simpl.
    by rewrite Nat.add_succ_r.
Qed.

Lemma for_counting_legend (strs : list string) width idx w :
  for_counting idx (Some <$> strs)
    (λ i pla, let! padded := lift (format_left pla width) in
              print (padded +:+ ": " +:+ pretty i)) w
  = (mkWorld (self w)
       (stdout w ++ imap (λ i pla, ljust pla width +:+ ": " +:+ pretty (idx + i)) strs)
       (stderr w), Ok tt).
Proof.
  revert idx w. induction strs as [|x r IH]; intros idx w; simpl.
  - unfold ret. by rewrite app_nil_r, world_eta.
  - rewrite bind_bind. unfold bind at 1, lift. simpl. rewrite bind_print, IH.
    cbn [self stdout stderr]. rewrite <- app_assoc. simpl.
    rewrite Nat.add_0_r. do 4 f_equal. apply imap_ext. intros i y _. simpl.
    by rewrite Nat.add_succ_r.
Qed.

Lemma print_player_info_run w :
  _print_player_info w
  = match order iteration (player_names (results (self w))) with
    | [] => (w, Raise ValueError)
    | names =>
        if decide (None ∈ names) then (w, Raise TypeError)
        else (mkWorld (self w) (stdout w ++ legend (named names)) (stderr w), Ok tt)
    end.
Proof.
  unfold _print_player_info. rewrite bind_get_self.
  set (names := order iteration (player_names (results (self w)))).
  destruct names as [|x r] eqn:Hnames; [done|].
  destruct (decide (None ∈ x :: r)) as [Hin|Hin].
  - unfold bind at 1. unfold lift at 1. by rewrite py_max_key_anonymous.
  - rewrite (fmap_named (x :: r) Hin).
    destruct (py_max_key_named (named (x :: r))) as (longest & Hmax & Hlen).
    { intros Hnil. apply (f_equal (fmap Some)) in Hnil.
      rewrite <- fmap_named in Hnil by done. discriminate Hnil. }
    unfold bind at 1. unfold lift at 1. rewrite Hmax. cbn [len_name].
    rewrite bind_lift_ok, Hlen, bind_print.
    rewrite for_counting_legend. cbn [self stdout stderr]. rewrite <- app_assoc.
    by rewrite named_fmap.
Qed.

(** X11: the player legend.  Without any player [_print_player_info]
    raises [ValueError]; when sgfmill gave [None] for a player of some
    record it raises [TypeError], on the length of [None]; in both cases
    it prints nothing.  Otherwise it prints a heading and one line for each
    player, in the order of the rows of the matrix, numbered from 0, and
    the colon stands in the same column on every line, counted in
    characters, because no name is longer than the name column. *)
Theorem player_legend :
  ∀ w,
    let names := order iteration (player_names (results (self w))) in
    let space := legend_space (named names) in
    (names = [] → _print_player_info w = (w, Raise ValueError))
    ∧ (None ∈ names → _print_player_info w = (w, Raise TypeError))
    ∧ (names ≠ [] → None ∉ names →
       _print_player_info w
       = (mkWorld (self w) (stdout w ++ legend (named names)) (stderr w), Ok tt))
    ∧ (None ∉ names → names = Some <$> named names)
    ∧ length (legend (named names)) = S (length (named names))
    ∧ (∀ i pla,
         named names !! i = Some pla →
         legend (named names) !! S i = Some (ljust pla space +:+ ": " +:+ pretty i)
         ∧ py_len (ljust pla space) = space)
    ∧ py_len (ljust "Player Name" space) = space.
Proof.
  intros w names space. split; [|split; [|split; [|split; [|split; [|split]]]]].
  - intros Hn. rewrite print_player_info_run. fold names. by rewrite Hn.
  - intros Hin. rewrite print_player_info_run. fold names.
    destruct names as [|x r]; [by apply elem_of_nil in Hin|].
    by rewrite decide_True.
  - intros Hn Hin. rewrite print_player_info_run. fold names.
    destruct names as [|x r]; [done|]. by rewrite decide_False.
  - apply fmap_named.
  - unfold legend. simpl. by rewrite length_imap.
  - intros i pla Hi. split.
    + unfold legend. simpl. by rewrite list_lookup_imap, Hi.
    + apply ljust_py_len. unfold space, legend_space.
      assert (py_len pla ≤ max_list (py_len <$> named names)).
      { apply max_list_elem_of_le, list_elem_of_fmap. exists pla.
        split; [done|]. by eapply list_elem_of_lookup_2. }
      lia.
  - apply ljust_py_len. unfold space, legend_space. lia.
Qed.

(** ** The report of the matrix *)

Lemma for_counting_print_ok {A} (line : nat → A → string) (l : list A) idx w :
  ∃ out, for_counting idx l (λ i x, print (line i x)) w
         = (mkWorld (self w) out (stderr w), Ok tt).
Proof. rewrite for_counting_print. by eexists. Qed.

Lemma print_result_matrix_run w :
  ∃ out,
    _print_result_matrix w
    = match matrix_width (results (self w)) with
      | Raise e => (w, Raise e)
      | Ok width => (mkWorld (self w) out (stderr w), Ok tt)
      end.
Proof.
  unfold _print_result_matrix, matrix_width. unfold bind at 1.
  rewrite build_result_matrix_collect. cbv zeta.
  destruct (collect _ (order iteration (player_names (results (self w)))))
    as [m|e]; [|by exists []].
  cbn [result_bind]. unfold bind at 1.
  rewrite (for_fold_snoc (py_max cell_gt)).
  2:{ intros acc row. unfold bind, lift, ret. by destruct (py_max cell_gt row). }
  destruct (collect (py_max cell_gt) m) as [maxima|e]; [|by exists []].
  cbn [result_map result_bind app]. unfold bind at 1, lift.
  destruct (py_max cell_gt maxima) as [largest|e]; [|by exists []].
  cbn [result_bind]. unfold bind at 1.
  destruct (int_log10 (cell_val largest)) as [digits|e]; [|by exists []].
  cbn [result_map]. rewrite bind_print. rewrite for_counting_print. by eexists.
Qed.

Lemma fold_left_cell_max (r : list cell) (x : cell) :
  let best := fold_left (λ best y, if cell_gt y best then y else best) r x in
  (cell_val x <= cell_val best)%Q
  ∧ (∀ y, y ∈ r → (cell_val y <= cell_val best)%Q).
Proof.
  revert x. induction r as [|y r IH]; intros x; simpl.
  - split; [apply Qle_refl|]. by intros y ?%elem_of_nil.
  - unfold cell_gt at 2 4.
    destruct (Qle_bool (cell_val y) (cell_val x)) eqn:Hle; simpl.
    + apply Qle_bool_iff in Hle. destruct (IH x) as [Hx Hr]. split; [done|].
      intros z [->|Hz]%elem_of_cons; [by eapply Qle_trans|by apply Hr].
    + assert (cell_val x <= cell_val y)%Q as Hxy.
      { apply Qlt_le_weak, Qnot_le_lt. intros H. apply Qle_bool_iff in H. congruence. }
      destruct (IH y) as [Hy Hr]. split; [by eapply Qle_trans|].
      intros z [->|Hz]%elem_of_cons; [done|by apply Hr].
Qed.

Lemma py_max_cells (l : list cell) :
  l ≠ [] →
  ∃ best, py_max cell_gt l = Ok best ∧ ∀ y, y ∈ l → (cell_val y <= cell_val best)%Q.
Proof.
  destruct l as [|x r]; [done|]. intros _. eexists. split; [reflexivity|].
  destruct (fold_left_cell_max r x) as [Hx Hr].
  intros y [->|Hy]%elem_of_cons; [done|by apply Hr].
Qed.

Lemma collect_row_maxima (m : list (list cell)) :
  (∀ row, row ∈ m → row ≠ []) →
  ∃ maxima, collect (py_max cell_gt) m = Ok maxima
            ∧ length maxima = length m
            ∧ ∀ row c, row ∈ m → c ∈ row →
                       ∃ best, best ∈ maxima ∧ (cell_val c <= cell_val best)%Q.
Proof.
  induction m as [|row m IH]; intros Hne; simpl.
  - exists []. split; [done|]. split; [done|]. by intros row c ?%elem_of_nil.
  - destruct (py_max_cells row) as (best & Hbest & Hle); [apply Hne; by left|].
    destruct IH as (maxima & Hm & Hlen & Hall); [intros r Hr; apply Hne; by right|].
    rewrite Hbest, Hm. exists (best :: maxima). split; [done|].
    split; [simpl; by rewrite Hlen|].
    intros r c [->|Hr]%elem_of_cons Hc.
    + exists best. split; [by left|by apply Hle].
    + destruct (Hall r c Hr Hc) as (b & Hb & Hcb). exists b. split; [by right|done].
Qed.

Lemma games_won_both t a b :
  (games_won t a b + games_won t b a
   == inject_Z (games_of (lookup0 t (a, b)) + games_of (lookup0 t (b, a))))%Q.
Proof. unfold games_won, games_of. rewrite !inject_Z_plus. ring. Qed.

Lemma int_log10_positive x : (0 < x)%Q → ∃ digits, int_log10 x = Ok digits.
Proof.
  intros Hx. unfold int_log10.
  destruct (Qle_bool x (inject_Z 0)) eqn:Hle; [|by eexists].
  apply Qle_bool_iff in Hle. exfalso. by apply (Qlt_not_le _ _ Hx).
Qed.

Lemma matrix_width_ok t a b :
  sound t → complete t → a ∈ player_names t → b ∈ player_names t → a ≠ b →
  ∃ width, matrix_width t = Ok width.
Proof.
  intros Hs Hc Ha Hb Hab. unfold matrix_width.
  set (names := order iteration (player_names t)).
  assert (a ∈ names ∧ b ∈ names) as [Han Hbn] by (split; by apply elem_of_order).
  rewrite (collect_ok _ (λ x, map (expected_cell t x) names)).
  2:{ intros x Hx. apply collect_ok. intros y Hy. apply elem_of_order in Hx, Hy.
      by apply cell_of_complete. }
  cbn [result_bind].
  destruct (collect_row_maxima (map (λ x, map (expected_cell t x) names) names))
    as (maxima & Hm & Hlen & Hall).
  { intros row (x & -> & _)%list_elem_of_fmap Hnil.
    apply fmap_nil_inv in Hnil. rewrite Hnil in Han. by apply elem_of_nil in Han. }
  rewrite Hm. cbn [result_bind].
  destruct (py_max_cells maxima) as (largest & Hl & Hle).
  { intros ->. rewrite length_map in Hlen. destruct names; [by apply elem_of_nil in Han|done]. }
  rewrite Hl. cbn [result_bind].
  assert (0 < cell_val largest)%Q as Hpos.
  { destruct (Hc a b Ha Hb Hab) as [r_ab Hr_ab].
    destruct (Hc b a Hb Ha) as [r_ba Hr_ba]; [congruence|].
    destruct (Hs _ _ Hr_ab) as (_ & _ & _ & Hn1).
    destruct (Hs _ _ Hr_ba) as (_ & _ & _ & Hn2).
    pose proof (games_won_both t a b) as Hsum.
    rewrite (lookup0_Some _ _ _ Hr_ab), (lookup0_Some _ _ _ Hr_ba) in Hsum.
    assert (∀ x y, x ∈ names → y ∈ names → x ≠ y →
                   (games_won t x y <= cell_val largest)%Q) as Hbound.
    { intros x y Hx Hy Hxy.
      destruct (Hall (map (expected_cell t x) names) (expected_cell t x y))
        as (best & Hbest & Hcb).
      - apply list_elem_of_fmap. by exists x.
      - apply list_elem_of_fmap. by exists y.
      - rewrite expected_cell_off_diagonal in Hcb by done.
        eapply Qle_trans; [exact Hcb|by apply Hle]. }
    pose proof (Hbound a b Han Hbn Hab) as H1.
    assert (b ≠ a) as Hba by congruence.
    pose proof (Hbound b a Hbn Han Hba) as H2.
    apply Qnot_le_lt. intros Hle0.
    assert (inject_Z (games_of r_ab + games_of r_ba) <= 0 + 0)%Q as Hbad.
    { rewrite <- Hsum. apply Qplus_le_compat; by eapply Qle_trans. }
    unfold Qle in Hbad. simpl in Hbad. lia. }
  destruct (int_log10_positive _ Hpos) as [digits ->]. by eexists.
Qed.

Lemma matrix_width_lonely t a :
  order iteration (player_names t) = [a] → matrix_width t = Raise ValueError.
Proof.
  intros Hn. unfold matrix_width. rewrite Hn. simpl.
  unfold cell_of. by rewrite decide_True.
Qed.

Lemma matrix_width_complete t width : matrix_width t = Ok width → complete t.
Proof.
  intros Hw a b Ha Hb Hab.
  destruct (t !! (a, b)) as [r|] eqn:Hr; [by eexists|]. exfalso.
  unfold matrix_width in Hw.
  set (names := order iteration (player_names t)) in *.
  destruct (collect _ names) as [m|e] eqn:Hm; [|done].
  eapply collect_ok_inv in Hm as [row Hrow]; [|by apply elem_of_order, Ha].
  eapply collect_ok_inv in Hrow as [c Hcell]; [|by apply elem_of_order, Hb].
  unfold cell_of in Hcell. rewrite decide_False, Hr in Hcell by done. done.
Qed.

Lemma print_game_results_run w :
  outcome print_game_results w
  = match order iteration (player_names (results (self w))) with
    | [] => Raise ValueError
    | names =>
        if decide (None ∈ names) then Raise TypeError
        else result_map (λ _, tt) (matrix_width (results (self w)))
    end.
Proof.
  unfold outcome, print_game_results. rewrite bind_print.
  unfold bind at 1. rewrite print_player_info_run. cbn [self stdout stderr].
  destruct (order iteration (player_names (results (self w)))) as [|x r]; [done|].
  destruct (decide (None ∈ x :: r)); [done|].
  rewrite bind_print. cbn [self stdout stderr].
  match goal with
  | |- context [_print_result_matrix ?w1] =>
      destruct (print_result_matrix_run w1) as [out Hrun]
  end.
  cbn [self stdout stderr] in Hrun. rewrite Hrun.
  by destruct (matrix_width (results (self w))) as [width|e].
Qed.

Lemma print_game_results_ok_iff w :
  sound (results (self w)) →
  (outcome print_game_results w = Ok tt ↔
   ((None ∉ player_names (results (self w)))
    ∧ complete (results (self w))
    ∧ ∃ a b, a ∈ player_names (results (self w)) ∧ b ∈ player_names (results (self w))
             ∧ a ≠ b)).
Proof.
  set (t := results (self w)). intros Hs.
  pose proof (print_game_results_run w) as Hrun. fold t in Hrun.
  pose proof (NoDup_order (player_names t)) as Hnd.
  pose proof (elem_of_order (player_names t)) as Hel. split.
  - intros Hok. destruct (order iteration (player_names t)) as [|x [|y r]] eqn:Hn.
    + rewrite Hrun in Hok. discriminate Hok.
    + rewrite Hrun in Hok. cbv beta iota zeta in Hok. revert Hok.
      destruct (decide (None ∈ [x])); [discriminate|].
      by rewrite (matrix_width_lonely t x Hn).
    + rewrite Hrun in Hok. cbv beta iota zeta in Hok. revert Hok.
      destruct (decide (None ∈ x :: y :: r)) as [|Hnone]; [discriminate|].
      destruct (matrix_width t) as [width|e] eqn:Hw; [intros _|discriminate].
      split; [by rewrite <- Hel|]. split; [by eapply matrix_width_complete|].
      exists x, y. split; [apply Hel; by left|].
      split; [apply Hel; right; by left|].
      apply NoDup_cons in Hnd as [Hx _]. intros ->. apply Hx. by left.
  - intros (Hnone & Hc & a & b & Ha & Hb & Hab).
    destruct (matrix_width_ok t a b Hs Hc Ha Hb Hab) as [width Hw].
    destruct (order iteration (player_names t)) as [|x r] eqn:Hn.
    + apply Hel in Ha. by apply elem_of_nil in Ha.
    + rewrite Hrun, Hw. rewrite decide_False; [done|]. by rewrite Hel.
Qed.


(** ** The console is write-only *)

Lemma console_blind_bind {A B} (c : M A) (k : A → M B) :
  console_blind c → (∀ a, console_blind (k a)) → console_blind (bind c k).
Proof.
  intros Hc Hk w1 w2 Hw. unfold bind. destruct (Hc w1 w2 Hw) as [Hs Hr].
  destruct (c w1) as [w1' [a1|e1]], (c w2) as [w2' [a2|e2]]; simpl in *;
    try discriminate Hr.
  - injection Hr as <-. by apply Hk.
  - by injection Hr as <-.
Qed.

Lemma console_blind_ret {A} (a : A) : console_blind (ret a).
Proof. by intros w1 w2 Hw. Qed.

Lemma console_blind_raise {A} e : console_blind (raise (A:=A) e).
Proof. by intros w1 w2 Hw. Qed.

Lemma console_blind_lift {A} (r : result A) : console_blind (lift r).
Proof. by intros w1 w2 Hw. Qed.

Lemma console_blind_get_self : console_blind get_self.
Proof. intros w1 w2 Hw. simpl. by rewrite Hw. Qed.

Lemma console_blind_getitem key : console_blind (getitem key).
Proof. intros w1 w2 Hw. unfold getitem. rewrite Hw. by destruct (_ !! _). Qed.

Lemma console_blind_update f : console_blind (update f).
Proof. intros w1 w2 Hw. simpl. by rewrite Hw. Qed.

Lemma console_blind_print line : console_blind (print line).
Proof. by intros w1 w2 Hw. Qed.

Lemma console_blind_warn msg : console_blind (warn msg).
Proof. by intros w1 w2 Hw. Qed.

Lemma console_blind_printing {A} (call : list string * result A) :
  console_blind (printing call).
Proof. by intros w1 w2 Hw. Qed.

Lemma console_blind_for_each {A} (l : list A) body :
  (∀ x, console_blind (body x)) → console_blind (for_each l body).
Proof.
  intros Hb. induction l as [|x l IH]; simpl.
  - apply console_blind_ret.
  - apply console_blind_bind; [apply Hb|by intros _].
Qed.

Lemma console_blind_for_counting {A} (l : list A) idx body :
  (∀ i x, console_blind (body i x)) → console_blind (for_counting idx l body).
Proof.
  intros Hb. revert idx. induction l as [|x l IH]; intros idx; simpl.
  - apply console_blind_ret.
  - apply console_blind_bind; [apply Hb|intros _; apply IH].
Qed.

Lemma console_blind_for_fold {A B} (l : list A) (acc : B) body :
  (∀ b x, console_blind (body b x)) → console_blind (for_fold l acc body).
Proof.
  intros Hb. revert acc. induction l as [|x l IH]; intros acc; simpl.
  - apply console_blind_ret.
  - apply console_blind_bind; [apply Hb|intros b; apply IH].
Qed.

Ltac blind :=
  repeat first
    [ apply console_blind_ret | apply console_blind_raise | apply console_blind_lift
    | apply console_blind_get_self | apply console_blind_getitem
    | apply console_blind_update | apply console_blind_print | apply console_blind_warn
    | apply console_blind_printing
    | apply console_blind_bind; [|intros ?]
    | apply console_blind_for_each; intros ?
    | apply console_blind_for_counting; intros ? ?
    | apply console_blind_for_fold; intros ? ?
    | match goal with
      | |- console_blind (if ?b then _ else _) => destruct b
      | |- console_blind (match ?o with Some _ => _ | None => _ end) => destruct o
      | |- console_blind (match ?o with Black => _ | White => _ end) => destruct o
      end ].

Lemma console_blind_add_a_single_sgf_string sgf_string :
  console_blind (_add_a_single_sgf_string sgf_string).
Proof. unfold _add_a_single_sgf_string, setitem. blind. Qed.

Lemma console_blind_add_new_games fs : console_blind (_add_new_games_to_result_dict fs).
Proof.
  unfold _add_new_games_to_result_dict, _add_one_sgfs_file_to_result,
    _add_one_sgf_file_to_result.
  blind; apply console_blind_add_a_single_sgf_string.
Qed.

Lemma console_blind_perform c w1 w2 :
  self w1 = self w2 → self (perform c w1) = self (perform c w2).
Proof.
  intros Hw. destruct c as [fs dir sub|fs name| | |]; simpl.
  - apply (console_blind_bind _ _); [|intros _; apply console_blind_add_new_games|done].
    unfold _add_game_file_names. blind.
  - apply (console_blind_bind _ _); [|intros _; apply console_blind_add_new_games|done].
    unfold _add_a_game_file_name. blind.
  - by rewrite Hw.
  - assert (console_blind print_game_results) as Hb; [|by apply Hb].
    unfold print_game_results, _print_player_info, _print_result_matrix,
      _build_result_matrix. blind.
  - assert (console_blind print_elos) as Hb; [|by apply Hb].
    unfold print_elos, _estimate_elo. blind.
Qed.

(** X13: [clear] makes the object new.  After [clear], any sequence of
    calls leaves the object that the same calls leave on a freshly made
    aggregator with the same prior: nothing of the earlier files, games or
    warnings is remembered, and every file of a directory ingested before
    is taken for new again. *)
Theorem clear_makes_new :
  ∀ w calls,
    self (clear w).1 = __init__ (_elo_prior (self w))
    ∧ self (fold_left (λ w c, perform c w) calls (clear w).1)
      = self (session calls (_elo_prior (self w))).
Proof.
  intros w calls. split; [done|]. unfold session.
  assert (self (clear w).1 = self (new_world (_elo_prior (self w)))) as Hstart by done.
  revert Hstart. generalize (new_world (_elo_prior (self w))) as w2.
  generalize (clear w).1 as w1. clear w.
  induction calls as [|c calls IH]; intros w1 w2 Hw; simpl; [done|].
  apply IH. by apply console_blind_perform.
Qed.

(** ** The players *)

Lemma player_names_fold_table_union game t :
  player_names (fold_table game t)
  = player_names t ∪ {[get_player_name game Black; get_player_name game White]}.
Proof.
  apply set_eq. intros p.
  rewrite elem_of_union, !elem_of_player_names, elem_of_union, !elem_of_singleton.
  unfold fold_table. split.
  - intros (a & b & Hsome & Hp).
    destruct (decide ((a, b) = game_key game)) as [Hkey|Hkey].
    + right. unfold game_key in Hkey. injection Hkey as -> ->. exact Hp.
    + rewrite lookup_insert_ne in Hsome by done. left. by exists a, b.
  - intros [(a & b & Hsome & Hp)|Hp].
    + exists a, b. split; [|done].
      destruct (decide ((a, b) = game_key game)) as [->|Hkey].
      * rewrite lookup_insert_eq. by eexists.
      * by rewrite lookup_insert_ne.
    + exists (get_player_name game Black), (get_player_name game White).
      split; [|done]. fold (game_key game). rewrite lookup_insert_eq. by eexists.
Qed.

Lemma player_names_reaches n w w' :
  reaches n w w' → player_names (results (self w)) ⊆ player_names (results (self w')).
Proof.
  induction 1 as [w|n w w1 w2 _ IH Heq|n w w1 s _ IH Hok].
  - done.
  - by rewrite Heq.
  - unfold outcome in Hok. destruct (from_bytes s) as [game|] eqn:Hparse.
    + rewrite (add_a_single_sgf_string_ok _ _ _ Hparse). simpl.
      rewrite player_names_fold_table_union. etrans; [exact IH|apply union_subseteq_l].
    + by rewrite (add_a_single_sgf_string_fail _ _ Hparse) in Hok.
Qed.

(** X14: the player index lists every name once, and exactly the names
    that stand in some key of the table, as first or as second player.
    Folding a game adds its two players and nobody else, and the ingestion
    calls never drop a player from the index. *)
Theorem player_index :
  (∀ t, NoDup (order iteration (player_names t))
        ∧ ∀ p, p ∈ order iteration (player_names t) ↔
               ∃ a b, is_Some (t !! (a, b)) ∧ (p = a ∨ p = b))
  ∧ (∀ game t,
       player_names (fold_table game t)
       = player_names t ∪ {[get_player_name game Black; get_player_name game White]})
  ∧ (∀ fs w,
       (∀ dir sub, player_names (results (self w))
                   ⊆ player_names (results (self (add_games fs dir sub w).1)))
       ∧ (∀ name, player_names (results (self w))
                  ⊆ player_names (results (self (add_a_game_file fs name w).1)))).
Proof.
  split; [|split].
  - intros t. split; [apply NoDup_order|]. intros p.
    by rewrite elem_of_order, elem_of_player_names.
  - apply player_names_fold_table_union.
  - intros fs w. split.
    + intros dir sub.
      destruct (preserves_add_games reaches_some reaches_some_refl reaches_some_trans
                  reaches_some_console reaches_some_aside reaches_some_game
                  fs dir sub w) as [n Hn].
      by eapply player_names_reaches.
    + intros name.
      destruct (preserves_add_a_game_file reaches_some reaches_some_refl
                  reaches_some_trans reaches_some_console reaches_some_aside
                  reaches_some_game fs name w) as [n Hn].
      by eapply player_names_reaches.
Qed.

(** ** The calls that go well *)

Lemma ingested_tracking fs g :
  _all_sgfs_files (ingested fs g) = _all_sgfs_files g
  ∧ _all_sgf_files (ingested fs g) = _all_sgf_files g
  ∧ total_games (results (ingested fs g))
    = (total_games (results g)
       + Z.of_nat (length (flat_map (batch_games fs) (elements (_new_sgfs_files g))))
       + Z.of_nat (length (flat_map (single_games fs) (elements (_new_sgf_files g)))))%Z.
Proof.
  unfold ingested.
  destruct (fold_games_tracking
              (flat_map (single_games fs) (elements (_new_sgf_files g)))
              (fold_games (flat_map (batch_games fs) (elements (_new_sgfs_files g))) g))
    as (H1 & H2 & _).
  destruct (fold_games_tracking
              (flat_map (batch_games fs) (elements (_new_sgfs_files g))) g)
    as (K1 & K2 & _).
  rewrite H1, H2, K1, K2, !total_games_fold_games. done.
Qed.

(** X15: a scan that goes well.  When the directory exists and can be
    listed, and every file the scan takes for new is gone or can be read
    and parsed, [add_games] returns; the object is the one in which the
    listed files of the two extensions are tracked and exactly the games of
    the files not tracked before have been folded, so the table has as many
    more games as these files hold.  When the path exists but cannot be
    listed, the call raises and leaves the world alone. *)
Theorem add_games_goes_well :
  ∀ fs dir sub w,
    path_exists fs dir = true →
    (∀ files,
       scanned fs dir sub = Ok files →
       let g := scan_tracked files (self w) in
       (∀ name, name ∈ _new_sgfs_files g → good_batch fs name) →
       (∀ name, name ∈ _new_sgf_files g → good_single fs name) →
       outcome (add_games fs dir sub) w = Ok tt
       ∧ state_after (add_games fs dir sub) w = ingested fs g
       ∧ total_games (results (state_after (add_games fs dir sub) w))
         = (total_games (results (self w))
            + Z.of_nat (length (flat_map (batch_games fs) (elements (_new_sgfs_files g))))
            + Z.of_nat (length (flat_map (single_games fs) (elements (_new_sgf_files g)))))%Z)
    ∧ (∀ e, scanned fs dir sub = Raise e → add_games fs dir sub w = (w, Raise e)).
Proof.
  intros fs dir sub w Hex. split.
  - intros files Hscan g Hb Hs.
    assert (∃ out, add_games fs dir sub w = (mkWorld (ingested fs g) out (stderr w), Ok tt))
      as [out Hrun].
    { unfold add_games, bind. rewrite add_game_file_names_run, Hex, Hscan.
      match goal with
      | |- context [_add_new_games_to_result_dict fs ?w1] =>
          destruct (add_new_games_good fs w1) as [out Hout]; [done|done|]
      end.
      rewrite Hout. by eexists. }
    unfold outcome, state_after. rewrite Hrun. simpl. split; [done|]. split; [done|].
    by destruct (ingested_tracking fs g) as (_ & _ & ->).
  - intros e Hscan. unfold add_games, bind.
    by rewrite add_game_file_names_run, Hex, Hscan.
Qed.

(** X16: a file added by name that goes well.  A single-game file that is
    not tracked yet, can be read and parsed, added to an object on which no
    batch file is pending, is tracked and its one game is folded; a batch
    file under the same conditions, with no single-game file pending, is
    tracked and its lines are folded one by one.  The call returns. *)
Theorem add_a_game_file_goes_well :
  ∀ fs name content w,
    path_isfile fs name = true → path_exists fs name = true →
    read_bytes fs name = Ok content →
    (∀ game,
       extension name = "sgf" → name ∉ _all_sgf_files (self w) →
       _new_sgfs_files (self w) = ∅ →
       from_bytes content = Some game →
       outcome (add_a_game_file fs name) w = Ok tt
       ∧ state_after (add_a_game_file fs name) w
         = folded game (set_all_sgf_files (_all_sgf_files (self w) ∪ {[name]})
                          (set_new_sgf_files {[name]} (self w))))
    ∧ (extension name = "sgfs" → name ∉ _all_sgfs_files (self w) →
       _new_sgf_files (self w) = ∅ →
       Forall (λ s, is_Some (from_bytes s)) (readlines content) →
       outcome (add_a_game_file fs name) w = Ok tt
       ∧ state_after (add_a_game_file fs name) w
         = fold_games (omap from_bytes (readlines content))
             (set_all_sgfs_files (_all_sgfs_files (self w) ∪ {[name]})
                (set_new_sgfs_files {[name]} (self w)))).
Proof.
  intros fs name content w Hfile Hex Hread. split.
  - intros game Hext Hnew Hpending Hparse.
    assert (∃ out, add_a_game_file fs name w
                   = (mkWorld (folded game
                                 (set_all_sgf_files (_all_sgf_files (self w) ∪ {[name]})
                                    (set_new_sgf_files {[name]} (self w))))
                        out (stderr w), Ok tt)) as [out Hrun].
    { unfold add_a_game_file. unfold bind at 1.
      rewrite add_a_game_file_name_sgf by done.
      erewrite add_new_games_single_sgf; [by eexists|done..]. }
    unfold outcome, state_after. by rewrite Hrun.
  - intros Hext Hnew Hpending Hall.
    assert (∃ out, add_a_game_file fs name w
                   = (mkWorld (fold_games (omap from_bytes (readlines content))
                                 (set_all_sgfs_files (_all_sgfs_files (self w) ∪ {[name]})
                                    (set_new_sgfs_files {[name]} (self w))))
                        out (stderr w), Ok tt)) as [out Hrun].
    { unfold add_a_game_file. unfold bind at 1.
      rewrite add_a_game_file_name_sgfs by done.
      unfold _add_new_games_to_result_dict. step.
      rewrite order_singleton. cbn [for_counting]. step.
      unfold bind at 1. unfold _add_one_sgfs_file_to_result at 1.
      rewrite Hex, Hread. cbn [negb]. step.
      rewrite for_each_fold_games by done. cbn [self stdout stderr].
      destruct (decide (1 `mod` 10 = 0)) as [H|_]; [by vm_compute in H|]. step.
      destruct (fold_games_tracking (omap from_bytes (readlines content))
                  (set_all_sgfs_files (_all_sgfs_files (self w) ∪ {[name]})
                     (set_new_sgfs_files {[name]} (self w)))) as (_ & _ & _ & Hk & _).
      rewrite Hk. cbn [set_all_sgfs_files set_new_sgfs_files _new_sgf_files].
      rewrite Hpending, order_empty. cbn [for_counting]. step. by eexists. }
    unfold outcome, state_after. by rewrite Hrun.
Qed.

(** ** The rating report and the script *)

Lemma print_elos_run w :
  print_elos w
  = match rating_input (results (self w))
            (order iteration (player_names (results (self w)))) (_elo_prior (self w))
    with
    | Raise e => (w, Raise e)
    | Ok data =>
        match compute_elos data true with
        | (lines, Raise e) =>
            (mkWorld (self w) (stdout w ++ lines) (stderr w), Raise e)
        | (lines, Ok elo_info) =>
            (mkWorld (self w)
               (stdout w ++ lines
                ++ [EloInfo_str elo_info;
                    "The prior is set as " +:+ float_str (_elo_prior (self w))
                    +:+ ", and the estimated Bayes Elo:"])
               (stderr w
                ++ (if _warning (self w)
                    then ["There are handicap games or games with komi < 5.5 or komi > 7.5"]
                    else [])),
             Ok elo_info)
        end
    end.
Proof.
  unfold print_elos. unfold bind at 1. rewrite estimate_elo_run.
  destruct (rating_input _ _ _) as [data|e]; [|done].
  unfold printing. destruct (compute_elos data true) as [lines [elo_info|e]]; [|done].
  cbn [fst snd]. step. rewrite <- !(assoc_L (++)). cbn [app].
  destruct (_warning (self w)).
  - unfold bind, warn, ret. reflexivity.
  - unfold bind, ret. cbn [self stdout stderr]. by rewrite app_nil_r.
Qed.

(** X17: the rating report.  When the rating input cannot be prepared,
    [print_elos] raises what the preparation raises and prints nothing;
    on the tables of sessions that is [KeyError] for a pair of players
    without a record.  Otherwise [elo.compute_elos] is called with
    [verbose] on and its lines are printed; if it raises, so does
    [print_elos]; if it returns the ratings, [print_elos] prints them and
    then the line with the prior, sends the warning about unusual games to
    the warning channel exactly when the flag is set, and returns the
    ratings.  The object is left alone in every case. *)
Theorem print_elos_report :
  ∀ w,
    let t := results (self w) in
    let names := order iteration (player_names t) in
    print_elos w
    = match rating_input t names (_elo_prior (self w)) with
      | Raise e => (w, Raise e)
      | Ok data =>
          match compute_elos data true with
          | (lines, Raise e) =>
              (mkWorld (self w) (stdout w ++ lines) (stderr w), Raise e)
          | (lines, Ok elo_info) =>
              (mkWorld (self w)
                 (stdout w ++ lines
                  ++ [EloInfo_str elo_info;
                      "The prior is set as " +:+ float_str (_elo_prior (self w))
                      +:+ ", and the estimated Bayes Elo:"])
                 (stderr w
                  ++ (if _warning (self w)
                      then ["There are handicap games or games with komi < 5.5 or komi > 7.5"]
                      else [])),
               Ok elo_info)
          end
      end
    ∧ (sound t → moderate t → elo_accepts t → ¬ complete t →
       print_elos w = (w, Raise KeyError))
    ∧ (sound t → moderate t → elo_accepts t → complete t →
       ∀ prior,
         make_center_elos_prior names (_elo_prior (self w)) = Ok prior →
         ∃ data, rating_input t names (_elo_prior (self w)) = Ok data)
    ∧ self (print_elos w).1 = self w.
Proof.
  intros w t names. split; [apply print_elos_run|]. split; [|split].
  - intros Hs Hm Ha Hc. rewrite print_elos_run. fold t.
    by rewrite rating_input_incomplete.
  - intros Hs Hm Ha Hc prior Hprior.
    rewrite rating_input_observations; [|done|done|].
    2:{ intros a b Ha' Hb' Hab. apply Hc; [by apply elem_of_order in Ha'
                                          |by apply elem_of_order in Hb'|done]. }
    rewrite Hprior.
    destruct (likelihoods (observations t names)) as [data|e] eqn:Hdata;
      [by eexists|].
    exfalso. unfold likelihoods in Hdata.
    destruct (collect _ (observations t names)) as [yss|e'] eqn:Hyss; [done|].
    apply collect_raise in Hyss as ([[[a b] total] winrate] & Hin & Hraise).
    apply elem_of_observations in Hin as (_ & _ & _ & r & Hr & -> & Hrate).
    destruct (Ha a b r winrate Hr Hrate) as [games Hok]. congruence.
  - apply print_elos_same_self.
Qed.

Lemma add_games_keeps_prior fs dir sub w :
  _elo_prior (self (add_games fs dir sub w).1) = _elo_prior (self w).
Proof.
  unfold add_games, bind. rewrite add_game_file_names_run.
  destruct (path_exists fs dir).
  - destruct (scanned fs dir sub) as [files|e]; [|done].
    match goal with
    | |- context [_add_new_games_to_result_dict fs ?w1] =>
        destruct (add_new_games_keeps_tracking fs w1) as (_ & _ & _ & _ & Hp)
    end.
    exact Hp.
  - match goal with
    | |- context [_add_new_games_to_result_dict fs ?w1] =>
        destruct (add_new_games_keeps_tracking fs w1) as (_ & _ & _ & _ & Hp)
    end.
    exact Hp.
Qed.

Lemma scan_all_keeps_prior fs dirs sub w :
  _elo_prior (self (for_each dirs (λ dir, add_games fs dir sub) w).1)
  = _elo_prior (self w).
Proof.
  revert w. induction dirs as [|dir dirs IH]; intros w; [done|].
  cbn [for_each]. unfold bind at 1.
  pose proof (add_games_keeps_prior fs dir sub w) as Hp.
  destruct (add_games fs dir sub w) as [w1 [[]|e]]; simpl in *; [|done].
  by rewrite IH.
Qed.

Lemma scan_all_sound fs dirs sub w :
  sound (results (self w)) →
  sound (results (self (for_each dirs (λ dir, add_games fs dir sub) w).1)).
Proof.
  intros Hs.
  assert (reaches_some w (for_each dirs (λ dir, add_games fs dir sub) w).1) as [n Hn].
  { apply (preserves_for_each reaches_some reaches_some_refl reaches_some_trans).
    intros dir.
    apply (preserves_add_games reaches_some reaches_some_refl reaches_some_trans
             reaches_some_console reaches_some_aside reaches_some_game). }
  by eapply sound_reaches.
Qed.

(** X18: the script.  Started on a new aggregator, it returns the ratings
    exactly when the scan of every directory returns, the games found name
    all their players and leave at least two players of whom every ordered
    pair has a record, the rating input can be prepared from the table the
    scans left and the prior of the command line, and [elo.compute_elos]
    returns these ratings for it.  In any case the two reports leave the
    object as the scans left it. *)
Theorem script_returns_iff :
  ∀ fs input_dirs search_subdir elo_prior,
    let scans := for_each input_dirs (λ dir, add_games fs dir search_subdir) in
    let w0 := new_world elo_prior in
    let t := results (state_after scans w0) in
    let names := order iteration (player_names t) in
    (∀ elo_info,
       outcome (main fs input_dirs search_subdir) w0 = Ok elo_info ↔
       (outcome scans w0 = Ok tt
        ∧ (None ∉ player_names t) ∧ complete t
        ∧ (∃ a b, a ∈ player_names t ∧ b ∈ player_names t ∧ a ≠ b)
        ∧ ∃ data, rating_input t names elo_prior = Ok data
                  ∧ (compute_elos data true).2 = Ok elo_info))
    ∧ state_after (main fs input_dirs search_subdir) w0 = state_after scans w0.
Proof.
  intros fs dirs sub prior scans w0 t names.
  pose proof (scan_all_sound fs dirs sub w0 sound_empty) as Hs.
  pose proof (scan_all_keeps_prior fs dirs sub w0) as Hp.
  unfold names, t, outcome, state_after, main. fold scans. fold scans in Hs, Hp.
  unfold bind at 1 3.
  destruct (scans w0) as [w1 [[]|e]]; cbn [fst snd] in *.
  2: { split; [|done]. intros info. split; [done|by intros [H _]]. }
  pose proof (print_game_results_ok_iff w1 Hs) as Hiff.
  pose proof (print_game_results_same_self w1) as Hself.
  unfold outcome in Hiff. unfold bind.
  destruct (print_game_results w1) as [w2 [[]|e]]; cbn [fst snd] in *.
  2: { split; [|done]. intros info. split; [done|].
       intros (_ & Hn & Hc & Hab & _). destruct Hiff as [_ Hiff].
       discriminate (Hiff (conj Hn (conj Hc Hab))). }
  destruct Hiff as [Hiff _]. destruct (Hiff eq_refl) as (Hn & Hc & Hab).
  rewrite print_elos_run, Hself. change (_elo_prior (self w0)) with prior in Hp.
  rewrite Hp.
  destruct (rating_input (results (self w1))
              (order iteration (player_names (results (self w1)))) prior)
    as [data|e] eqn:Hdata.
  - destruct (compute_elos data true) as [lines [info|e]] eqn:Hrun; cbn [fst snd].
    + split; [|done]. intros info'. split.
      * intros [= <-]. split; [done|]. split; [done|]. split; [done|]. split; [done|].
        exists data. by rewrite Hrun.
      * intros (_ & _ & _ & _ & data' & [= <-] & Hinfo). rewrite Hrun in Hinfo.
        exact Hinfo.
    + split; [|done]. intros info'. split; [done|].
      intros (_ & _ & _ & _ & data' & [= <-] & Hinfo). rewrite Hrun in Hinfo.
      discriminate Hinfo.
  - cbn [fst snd]. split; [|by rewrite Hself]. intros info'. split; [done|].
    by intros (_ & _ & _ & _ & data' & Hbad & _).
Qed.

End GameResultSummary.

(** ** The properties on the fixtures *)

Ltac by_computation := vm_compute; repeat split; reflexivity.
Ltac member := apply (bool_decide_unpack _); vm_compute; exact I.
Ltac toy_elo := intros ? ? ? ? _ _; by eexists.

(** C1: [games/b.sgf] is tracked after the scan of [games]; adding it again
    by name reports it as added before and leaves the tracked sets alone,
    but runs over the batch file that the scan had found new and adds its
    game a second time. *)
Lemma tracked_file_added_again :
  let w1 := (add_games elements_order toy_from_bytes toy_fs "games" false
               (new_world 0)).1 in
  let w2 := (add_a_game_file elements_order toy_from_bytes toy_fs "games/b.sgf" w1).1 in
  "games/b.sgf" ∈ _all_sgf_files (self w1)
  ∧ _all_sgfs_files (self w2) = _all_sgfs_files (self w1)
  ∧ _all_sgf_files (self w2) = _all_sgf_files (self w1)
  ∧ results (self w1) !! (Some "Alice", Some "Bob") = Some (mkRecord 1 1 0)
  ∧ results (self w2) !! (Some "Alice", Some "Bob") = Some (mkRecord 2 1 0)
  ∧ drop 3 (stdout w2)
    = ["File name games/b.sgf has been added before";
       "We have added additional 1 sgfs files into the results.";
       "We have added additional 0 sgf files into the results."].
Proof. intros w1 w2. split; [member|by_computation]. Qed.

(** C5: the directory [nodir] does not exist; asking for it after a scan
    of [games] prints the complaint, leaves the tracked sets alone, and
    folds the two files of the earlier scan a second time. *)
Lemma missing_directory_folds_again :
  let w1 := (add_games elements_order toy_from_bytes toy_fs "games" false
               (new_world 0)).1 in
  let w2 := (add_games elements_order toy_from_bytes toy_fs "nodir" false w1).1 in
  path_exists toy_fs "nodir" = false
  ∧ _all_sgfs_files (self w2) = _all_sgfs_files (self w1)
  ∧ _all_sgf_files (self w2) = _all_sgf_files (self w1)
  ∧ results (self w1) !! (Some "Alice", Some "Bob") = Some (mkRecord 1 1 0)
  ∧ results (self w2) !! (Some "Alice", Some "Bob") = Some (mkRecord 2 2 0)
  ∧ drop 3 (stdout w2)
    = ["There is no directory under name nodir";
       "We have added additional 1 sgfs files into the results.";
       "We have added additional 1 sgf files into the results."].
Proof. intros w1 w2. by_computation. Qed.

(** C9: when no input directory exists the table stays empty and the
    script ends in [ValueError] right after the heading of the player
    legend; the matrix report raises on its own as well. *)
Lemma empty_reports_raise :
  let run := main elements_order toy_from_bytes _ _ toy_likelihood_of_games
               toy_make_center_elos_prior toy_compute_elos toy_EloInfo_str
               toy_float_str toy_fs ["nodir"; "nowhere"] false (new_world 0) in
  run.2 = Raise ValueError
  ∧ results (self run.1) = ∅
  ∧ last (stdout run.1) = Some "Player information:"
  ∧ outcome (_print_player_info elements_order) (new_world 0) = Raise ValueError
  ∧ outcome (_print_result_matrix elements_order) (new_world 0) = Raise ValueError
  ∧ outcome (_build_result_matrix elements_order) (new_world 0) = Ok [].
Proof. intros run. by_computation. Qed.

(** C2 fails on the matrix: after the one game of [one.sgf] the table is as
    the claim says, and no matrix comes out of it. *)
Lemma single_game_has_no_matrix :
  let w := (add_a_game_file elements_order toy_from_bytes toy_fs "one.sgf"
              (new_world 0)).1 in
  map_to_list (results (self w)) = [(Some "Alice", Some "Bob", mkRecord 1 0 0)]
  ∧ ¬ ∃ m, outcome (_build_result_matrix elements_order) w = Ok m.
Proof.
  intros w. split; [by_computation|].
  intros [m Hm]. vm_compute in Hm. discriminate Hm.
Qed.

(** The folding law on a game that white wins, and the scenario on the
    file [one.sgf]. *)
Lemma fold_one_game_witness :
  let w := (add_a_game_file elements_order toy_from_bytes toy_fs "one.sgf"
              (new_world 0)).1 in
  (results (state_after (_add_a_single_sgf_string toy_from_bytes (bytes_of "w"))
                        (new_world 0))
   = <[(Some "Alice", Some "Bob") := mkRecord 0 (0 + 1) 0]> ∅)
  ∧ results (self w) = {[ (Some "Alice", Some "Bob") := mkRecord 1 0 0 ]}
  ∧ _build_result_matrix elements_order w = (w, Raise KeyError).
Proof.
  intros w.
  destruct (fold_one_game elements_order toy_from_bytes) as [Hfold Hfile].
  destruct (Hfold (bytes_of "w") (toy_game (Some White) None) (new_world 0))
    as [_ Ht]; [reflexivity|].
  destruct (Hfile toy_fs "one.sgf" (bytes_of "b") (toy_game (Some Black) None) 0%Q)
    as (_ & Ht' & Hraise & _); [reflexivity..|].
  split; [exact Ht|]. split; [exact Ht'|exact Hraise].
Defined.





(** C6 fails on [bad.sgfs]: its second record is refused, the call ends in
    [ValueError], and the third record, which sgfmill reads, is not in the
    table. *)
Lemma bad_record_discards_the_rest :
  let run := add_a_game_file elements_order toy_from_bytes toy_fs "bad.sgfs"
               (new_world 0) in
  read_bytes toy_fs "bad.sgfs" = Ok (lines_of ["b"; "?"; "w"])
  ∧ is_Some (toy_from_bytes (bytes_of "w" ++ [newline]))
  ∧ run.2 = Raise ValueError
  ∧ map_to_list (results (self run.1)) = [(Some "Alice", Some "Bob", mkRecord 1 0 0)].
Proof. intros run. split; [by_computation|]. split; [by eexists|by_computation]. Qed.

(** The scan of [league] finds three batch files and a single game.  The
    loop takes [round3.sgfs] first and folds its two games, folds the
    first record of [round1.sgfs] and ends at its second: the third
    record, the two games of [round2.sgfs] and the game of [final.sgf] are
    not in the table, which holds three games.  The batch file [bad.sgfs]
    added by name: one record folded, then the refused one. *)
Lemma parse_failure_aborts_witness :
  let files := ["league/round1.sgfs"; "league/round2.sgfs"; "league/round3.sgfs";
                "league/final.sgf"] in
  let scan := add_games elements_order toy_from_bytes league_fs "league" false in
  let run := add_a_game_file elements_order toy_from_bytes toy_fs "bad.sgfs"
               (new_world 0) in
  order elements_order (_new_sgfs_files (scan_tracked files (self (new_world 0))))
  = ["league/round3.sgfs"] ++ "league/round1.sgfs" :: ["league/round2.sgfs"]
  ∧ _new_sgf_files (scan_tracked files (self (new_world 0))) = {["league/final.sgf"]}
  ∧ outcome scan (new_world 0) = Raise ValueError
  ∧ state_after scan (new_world 0)
    = fold_games
        (flat_map (batch_games toy_from_bytes league_fs) ["league/round3.sgfs"]
         ++ omap toy_from_bytes [bytes_of "b" ++ [newline]])
        (scan_tracked files (self (new_world 0)))
  ∧ map_to_list (results (state_after scan (new_world 0)))
    = [(Some "Bob", Some "Alice", mkRecord 0 1 0);
       (Some "Alice", Some "Bob", mkRecord 1 0 1)]
  ∧ run.2 = Raise ValueError
  ∧ results (self run.1)
    = fold_records toy_from_bytes [bytes_of "b" ++ [newline]] ∅
  ∧ stdout run.1 = [].
Proof.
  intros files scan run.
  assert (Forall (λ s, is_Some (toy_from_bytes s)) [bytes_of "b" ++ [newline]])
    as Hbefore by (repeat constructor; by eexists).
  destruct (parse_failure_aborts elements_order toy_from_bytes
              [bytes_of "b" ++ [newline]] (bytes_of "?" ++ [newline])
              [bytes_of "w" ++ [newline]] Hbefore eq_refl)
    as (_ & _ & _ & Hscan & Hname).
  assert (order elements_order
            (_new_sgfs_files (scan_tracked files (self (new_world 0))))
          = ["league/round3.sgfs"] ++ "league/round1.sgfs" :: ["league/round2.sgfs"])
    as Horder by (vm_compute; reflexivity).
  destruct (Hscan league_fs "league" false files ["league/round3.sgfs"]
              "league/round1.sgfs" ["league/round2.sgfs"]
              (lines_of ["b"; "?"; "w"]) (new_world 0))
    as [Hraise Hstate];
    [reflexivity|reflexivity|exact Horder| |reflexivity|reflexivity|reflexivity|].
  { constructor; [|constructor]. right. exists (lines_of ["wx"; "d"]).
    split; [reflexivity|]. repeat constructor; by eexists. }
  split; [exact Horder|]. split; [vm_compute; reflexivity|].
  split; [exact Hraise|]. split; [exact Hstate|].
  split; [unfold scan; rewrite Hstate; vm_compute; reflexivity|].
  destruct (Hname toy_fs "bad.sgfs" (lines_of ["b"; "?"; "w"]) (new_world 0))
    as (Hrun & _ & Hresults & Hout);
    [reflexivity|reflexivity|reflexivity|apply not_elem_of_empty
    |reflexivity|reflexivity|].
  split; [exact Hrun|]. split; [exact Hresults|exact Hout].
Defined.



(** A komi of 5.0 sets the flag, a later komi of 5.5 keeps it, and a komi
    of 5.5 on a fresh object does not set it. *)
Lemma warning_flag_sticky_witness :
  let low := _add_a_single_sgf_string toy_from_bytes (bytes_of "bk") in
  let edge := _add_a_single_sgf_string toy_from_bytes (bytes_of "wm") in
  _warning (state_after low (new_world 0)) = true
  ∧ _warning (state_after edge (low (new_world 0)).1) = true
  ∧ _warning (state_after edge (new_world 0)) = false.
Proof.
  intros low edge.
  destruct (warning_flag_sticky elements_order toy_from_bytes _ _
              toy_likelihood_of_games toy_make_center_elos_prior toy_compute_elos
              toy_EloInfo_str toy_float_str)
    as (Hset & _ & Hkept & _ & _ & Hedge).
  assert (_warning (state_after low (new_world 0)) = true) as Hlow.
  { apply (Hset (bytes_of "bk") (toy_game (Some Black) (Some x6b)));
      [reflexivity|]. right; left. reflexivity. }
  split; [exact Hlow|]. split.
  - destruct (Hkept (low (new_world 0)).1 Hlow) as [Hnext _].
    apply (Hnext (bytes_of "wm")).
  - apply (Hedge (bytes_of "wm") (toy_game (Some White) (Some x6d)));
      [reflexivity|reflexivity|left; reflexivity|reflexivity].
Defined.

(** A scan of [games] folds two games, [clear] empties the table, and the
    file [one.sgf] added afterwards is the one game folded since: the
    table of the session holds one game, not three.  One drawn game is
    counted once, a refused record not at all. *)
Lemma counter_conservation_witness :
  let calls := [AddGames toy_fs "games" false; Clear; AddAGameFile toy_fs "one.sgf"] in
  let run := session elements_order toy_from_bytes _ _ toy_likelihood_of_games
               toy_make_center_elos_prior toy_compute_elos toy_EloInfo_str
               toy_float_str in
  let w := (_add_a_single_sgf_string toy_from_bytes (bytes_of "d") (new_world 0)).1 in
  total_games (results (self (run [AddGames toy_fs "games" false] 0%Q))) = 2%Z
  ∧ results (state_after clear (run [AddGames toy_fs "games" false] 0%Q)) = ∅
  ∧ folded_since_clear elements_order toy_from_bytes _ _ toy_likelihood_of_games
      toy_make_center_elos_prior toy_compute_elos toy_EloInfo_str toy_float_str
      0 calls 1
  ∧ total_games (results (self (run calls 0%Q))) = 1%Z
  ∧ total_games (results (self w)) = (total_games (results (new_world 0).(self)) + 1)%Z
  ∧ state_after (_add_a_single_sgf_string toy_from_bytes (bytes_of "?")) w = self w.
Proof.
  intros calls run w.
  destruct (counter_conservation elements_order toy_from_bytes _ _
              toy_likelihood_of_games toy_make_center_elos_prior toy_compute_elos
              toy_EloInfo_str toy_float_str)
    as (Hgame & Hbad & _ & _ & _ & Hclear & Hcalls).
  destruct (Hgame (bytes_of "d") (toy_game None None) (new_world 0) eq_refl)
    as (_ & _ & _ & Htotal).
  destruct (Hcalls calls 0%Q) as [[n Hn] Hcount].
  assert (total_games (results (self (run calls 0%Q))) = 1%Z) as Hone
    by (vm_compute; reflexivity).
  assert (n = 1) as ->.
  { apply Nat2Z.inj. rewrite <- (Hcount n Hn). exact Hone. }
  split; [vm_compute; reflexivity|]. split; [apply Hclear|].
  split; [exact Hn|]. split; [exact Hone|]. split; [exact Htotal|by apply Hbad].
Defined.

(** ** Further properties *)

(** X8: the order in which Python walks through its sets of new files does
    not show in the results.  When every new file is gone or can be read
    and parsed, the call returns under every order and leaves the same
    object; this holds for the second half of a call and so for
    [add_games] and [add_a_game_file]. *)
Theorem ingestion_order_irrelevant :
  ∀ (order1 order2 : SetOrder) from_bytes fs w,
    ((∀ name, name ∈ _new_sgfs_files (self w) → good_batch from_bytes fs name) →
     (∀ name, name ∈ _new_sgf_files (self w) → good_single from_bytes fs name) →
     outcome (_add_new_games_to_result_dict order1 from_bytes fs) w = Ok tt
     ∧ self (_add_new_games_to_result_dict order1 from_bytes fs w).1
       = self (_add_new_games_to_result_dict order2 from_bytes fs w).1)
    ∧ (∀ dir sub,
         let w' := (_add_game_file_names fs dir sub w).1 in
         (∀ name, name ∈ _new_sgfs_files (self w') → good_batch from_bytes fs name) →
         (∀ name, name ∈ _new_sgf_files (self w') → good_single from_bytes fs name) →
         outcome (add_games order1 from_bytes fs dir sub) w
         = outcome (add_games order2 from_bytes fs dir sub) w
         ∧ self (add_games order1 from_bytes fs dir sub w).1
           = self (add_games order2 from_bytes fs dir sub w).1)
    ∧ (∀ name,
         let w' := (_add_a_game_file_name fs name w).1 in
         (∀ name, name ∈ _new_sgfs_files (self w') → good_batch from_bytes fs name) →
         (∀ name, name ∈ _new_sgf_files (self w') → good_single from_bytes fs name) →
         outcome (add_a_game_file order1 from_bytes fs name) w
         = outcome (add_a_game_file order2 from_bytes fs name) w
         ∧ self (add_a_game_file order1 from_bytes fs name w).1
           = self (add_a_game_file order2 from_bytes fs name w).1).
Proof.
  intros order1 order2 from_bytes fs w.
  assert (∀ w0,
            (∀ name, name ∈ _new_sgfs_files (self w0) → good_batch from_bytes fs name) →
            (∀ name, name ∈ _new_sgf_files (self w0) → good_single from_bytes fs name) →
            outcome (_add_new_games_to_result_dict order1 from_bytes fs) w0
            = outcome (_add_new_games_to_result_dict order2 from_bytes fs) w0
            ∧ outcome (_add_new_games_to_result_dict order1 from_bytes fs) w0 = Ok tt
            ∧ self (_add_new_games_to_result_dict order1 from_bytes fs w0).1
              = self (_add_new_games_to_result_dict order2 from_bytes fs w0).1) as Hhalf.
  { intros w0 Hb Hs.
    destruct (add_new_games_good order1 from_bytes fs w0 Hb Hs) as [out1 H1].
    destruct (add_new_games_good order2 from_bytes fs w0 Hb Hs) as [out2 H2].
    unfold outcome. by rewrite H1, H2. }
  split; [|split].
  - intros Hb Hs. destruct (Hhalf w Hb Hs) as (_ & Hok & Heq). by split.
  - intros dir sub w' Hb Hs. unfold outcome, add_games, bind. unfold w' in Hb, Hs.
    destruct (_add_game_file_names fs dir sub w) as [w1 [[]|e]]; [|done].
    destruct (Hhalf w1 Hb Hs) as (Hout & _ & Heq). by split.
  - intros name w' Hb Hs. unfold outcome, add_a_game_file, bind. unfold w' in Hb, Hs.
    destruct (_add_a_game_file_name fs name w) as [w1 [[]|e]]; [|done].
    destruct (Hhalf w1 Hb Hs) as (Hout & _ & Heq). by split.
Qed.


(** The directory [games] scanned twice. *)
Lemma rescan_adds_nothing_witness :
  let w1 := (add_games elements_order toy_from_bytes toy_fs "games" false
               (new_world 0)).1 in
  let w2 := (add_games elements_order toy_from_bytes toy_fs "games" false w1).1 in
  outcome (add_games elements_order toy_from_bytes toy_fs "games" false) w1 = Ok tt
  ∧ results (self w2) = results (self w1)
  ∧ _new_sgfs_files (self w2) = ∅ ∧ _new_sgf_files (self w2) = ∅.
Proof.
  intros w1 w2.
  destruct (rescan_adds_nothing elements_order toy_from_bytes toy_fs "games" false
              ["games/a.sgfs"; "games/b.sgf"; "games/notes.txt"] (new_world 0))
    as (Hok & Hr & _ & _ & _ & Hn1 & Hn2); [reflexivity|reflexivity|].
  split; [exact Hok|]. split; [exact Hr|]. split; [exact Hn1|exact Hn2].
Defined.

(** A new aggregator asked for a directory that does not exist and for a
    text file. *)
Lemma nothing_pending_nothing_added_witness :
  (∃ out, add_games elements_order toy_from_bytes toy_fs "nodir" false (new_world 0)
          = (mkWorld (__init__ 0) out [], Ok tt))
  ∧ (∃ out, add_a_game_file elements_order toy_from_bytes toy_fs "games/notes.txt"
              (new_world 0)
            = (mkWorld (__init__ 0) out [], Ok tt)).
Proof.
  destruct (nothing_pending_nothing_added elements_order toy_from_bytes toy_fs
              (new_world 0) eq_refl eq_refl) as [Hdir Hfile].
  split.
  - apply (Hdir "nodir" false). reflexivity.
  - apply (Hfile "games/notes.txt"). right; left. split; discriminate.
Defined.

(** The batch file [games/a.sgfs] with its one line, and a file that is
    not there. *)
Lemma readable_file_is_folded_witness :
  total_games
    (results (state_after (_add_one_sgfs_file_to_result toy_from_bytes toy_fs
                             "games/a.sgfs") (new_world 0)))
  = (total_games (results (self (new_world 0))) + 1)%Z
  ∧ _add_one_sgf_file_to_result toy_from_bytes toy_fs "gone.sgf" (new_world 0)
    = (mkWorld (__init__ 0) ["There is no SGF file as gone.sgf"] [], Ok tt).
Proof.
  destruct (readable_file_is_folded toy_from_bytes toy_fs "games/a.sgfs" (new_world 0))
    as (Hbatch & _ & _).
  destruct (Hbatch (bytes_of "b")) as [_ Htotal];
    [reflexivity|reflexivity|repeat constructor; by eexists|].
  destruct (readable_file_is_folded toy_from_bytes toy_fs "gone.sgf" (new_world 0))
    as (_ & _ & Hgone).
  destruct (Hgone eq_refl) as [_ Hsingle].
  split; [exact Htotal|exact Hsingle].
Defined.

(** The directory [pool] holds two batch files and two single games.  The
    order of [elements] and its reverse walk through both sets of new
    files in different orders, and the scan leaves the same object with
    its five games under both. *)
Lemma ingestion_order_irrelevant_witness :
  let w' := (_add_game_file_names league_fs "pool" false (new_world 0)).1 in
  let scan iteration :=
    add_games iteration toy_from_bytes league_fs "pool" false (new_world 0) in
  order elements_order (_new_sgfs_files (self w')) = ["pool/west.sgfs"; "pool/east.sgfs"]
  ∧ order reverse_order (_new_sgfs_files (self w')) = ["pool/east.sgfs"; "pool/west.sgfs"]
  ∧ order elements_order (_new_sgf_files (self w')) = ["pool/second.sgf"; "pool/first.sgf"]
  ∧ order reverse_order (_new_sgf_files (self w')) = ["pool/first.sgf"; "pool/second.sgf"]
  ∧ (scan elements_order).2 = (scan reverse_order).2
  ∧ self (scan elements_order).1 = self (scan reverse_order).1
  ∧ (scan elements_order).2 = Ok tt
  ∧ total_games (results (self (scan elements_order).1)) = 5%Z.
Proof.
  intros w' scan.
  destruct (ingestion_order_irrelevant elements_order reverse_order toy_from_bytes
              league_fs (new_world 0)) as (_ & Hscan & _).
  destruct (Hscan "pool" false) as [Hout Hself].
  - intros name Hin.
    assert (_new_sgfs_files (self (_add_game_file_names league_fs "pool" false
                                     (new_world 0)).1)
            = {["pool/east.sgfs"]} ∪ {["pool/west.sgfs"]}) as Hset
      by (vm_compute; reflexivity).
    rewrite Hset in Hin. apply elem_of_union in Hin as [Hin|Hin];
      apply elem_of_singleton in Hin; subst name; right.
    + exists (lines_of ["b"; "wx"]). split; [reflexivity|].
      repeat constructor; by eexists.
    + exists (lines_of ["d"]). split; [reflexivity|].
      repeat constructor; by eexists.
  - intros name Hin.
    assert (_new_sgf_files (self (_add_game_file_names league_fs "pool" false
                                    (new_world 0)).1)
            = {["pool/first.sgf"]} ∪ {["pool/second.sgf"]}) as Hset
      by (vm_compute; reflexivity).
    rewrite Hset in Hin. apply elem_of_union in Hin as [Hin|Hin];
      apply elem_of_singleton in Hin; subst name; right.
    + exists (bytes_of "bk"). eexists. split; reflexivity.
    + exists (bytes_of "wx"). eexists. split; reflexivity.
  - split; [vm_compute; reflexivity|]. split; [vm_compute; reflexivity|].
    split; [vm_compute; reflexivity|]. split; [vm_compute; reflexivity|].
    split; [exact Hout|]. split; [exact Hself|].
    split; vm_compute; reflexivity.
Defined.

(** Alice and Bob after one game with each colour: the rating is computed
    from two observations and its line is printed.  After the game of
    [one.sgf] alone the preparation ends in [KeyError]. *)
Lemma estimate_elo_in_session_witness :
  let run := session elements_order toy_from_bytes _ _ toy_likelihood_of_games
               toy_make_center_elos_prior toy_compute_elos toy_EloInfo_str
               toy_float_str in
  let estimate := _estimate_elo elements_order _ _ toy_likelihood_of_games
                    toy_make_center_elos_prior toy_compute_elos in
  let w := run [AddAGameFile toy_fs "one.sgf"; AddAGameFile toy_fs "back.sgf"] 0%Q in
  let w1 := run [AddAGameFile toy_fs "one.sgf"] 0%Q in
  (∃ data,
     likelihoods _ toy_likelihood_of_games
       (observations (results (self w))
          (order elements_order (player_names (results (self w))))) = Ok data
     ∧ estimate w = printing (toy_compute_elos (data ++ []) true) w)
  ∧ estimate w1 = (w1, Raise KeyError).
Proof.
  intros run estimate w w1. split.
  - destruct (estimate_elo_in_session elements_order toy_from_bytes _ _
                toy_likelihood_of_games toy_make_center_elos_prior toy_compute_elos
                toy_EloInfo_str toy_float_str
                [AddAGameFile toy_fs "one.sgf"; AddAGameFile toy_fs "back.sgf"] 0%Q)
      as (_ & Hcomplete & _); [unfold moderate; member|toy_elo|].
    destruct Hcomplete as (data & Hdata & Hrun);
      [apply complete_check_spec; vm_compute; reflexivity|].
    exists data. split; [exact Hdata|exact Hrun].
  - destruct (estimate_elo_in_session elements_order toy_from_bytes _ _
                toy_likelihood_of_games toy_make_center_elos_prior toy_compute_elos
                toy_EloInfo_str toy_float_str [AddAGameFile toy_fs "one.sgf"] 0%Q)
      as (Hincomplete & _ & _); [unfold moderate; member|toy_elo|].
    apply Hincomplete. intros Hc.
    destruct (Hc (Some "Bob") (Some "Alice")) as [r Hr]; [member|member|discriminate|].
    vm_compute in Hr. discriminate Hr.
Defined.

(** Alice and Bob after one game with each colour: the two observations
    carry the win rates 0.0 and 1.0, and every observation counts at least
    one game.  One win in three games gives the float
    6004799503160661 / 2^54, which Python writes 0.3333333333333333, and
    one draw gives 0.5. *)
Lemma estimate_elo_observations_witness :
  let w := session elements_order toy_from_bytes _ _ toy_likelihood_of_games
             toy_make_center_elos_prior toy_compute_elos toy_EloInfo_str
             toy_float_str
             [AddAGameFile toy_fs "one.sgf"; AddAGameFile toy_fs "back.sgf"] 0 in
  let t := results (self w) in
  let names := order elements_order (player_names t) in
  (∃ total winrate, (Some "Alice", Some "Bob", total, winrate) ∈ observations t names)
  ∧ (∀ a b total winrate,
       (a, b, total, winrate) ∈ observations t names → (1 ≤ total < 2 ^ 53)%Z)
  ∧ observations t names
    = [(Some "Bob", Some "Alice", 1%Z, S754_zero false);
       (Some "Alice", Some "Bob", 1%Z, S754_finite false 4503599627370496 (-52))]
  ∧ win_rate (mkRecord 1 2 0) = Ok (S754_finite false 6004799503160661 (-54))
  ∧ win_rate (mkRecord 0 0 1) = Ok (S754_finite false 4503599627370496 (-53)).
Proof.
  intros w t names.
  assert (sound t) as Hs by apply sound_session.
  assert (moderate t) as Hm by (unfold moderate; member).
  assert (complete t) as Hc
    by (apply complete_check_spec; vm_compute; reflexivity).
  destruct (estimate_elo_observations elements_order _ _ toy_likelihood_of_games
              toy_make_center_elos_prior toy_compute_elos w Hs Hm Hc)
    as (_ & _ & _ & Hpairs & Hbounds).
  split; [|split; [exact Hbounds|by_computation]].
  apply (Hpairs (Some "Alice") (Some "Bob")); [member|member|discriminate].
Defined.


(** The directory [games] scanned by a new aggregator: two games. *)
Lemma add_games_goes_well_witness :
  outcome (add_games elements_order toy_from_bytes toy_fs "games" false) (new_world 0)
  = Ok tt
  ∧ total_games
      (results (state_after (add_games elements_order toy_from_bytes toy_fs "games"
                               false) (new_world 0)))
    = 2%Z.
Proof.
  destruct (add_games_goes_well elements_order toy_from_bytes toy_fs "games" false
              (new_world 0) eq_refl) as [Hwell _].
  destruct (Hwell ["games/a.sgfs"; "games/b.sgf"; "games/notes.txt"] eq_refl)
    as (Hok & _ & Htotal).
  - intros name Hin.
    assert (_new_sgfs_files
              (scan_tracked ["games/a.sgfs"; "games/b.sgf"; "games/notes.txt"]
                 (self (new_world 0))) = {["games/a.sgfs"]}) as Hset
      by (vm_compute; reflexivity).
    rewrite Hset in Hin. apply elem_of_singleton in Hin. subst name.
    right. exists (bytes_of "b"). split; [reflexivity|].
    repeat constructor. by eexists.
  - intros name Hin.
    assert (_new_sgf_files
              (scan_tracked ["games/a.sgfs"; "games/b.sgf"; "games/notes.txt"]
                 (self (new_world 0))) = {["games/b.sgf"]}) as Hset
      by (vm_compute; reflexivity).
    rewrite Hset in Hin. apply elem_of_singleton in Hin. subst name.
    right. exists (bytes_of "w"). eexists. split; reflexivity.
  - split; [exact Hok|]. rewrite Htotal. vm_compute. reflexivity.
Defined.

(** The files [one.sgf] and [games/a.sgfs] added by name to a new
    aggregator. *)
Lemma add_a_game_file_goes_well_witness :
  outcome (add_a_game_file elements_order toy_from_bytes toy_fs "one.sgf") (new_world 0)
  = Ok tt
  ∧ outcome (add_a_game_file elements_order toy_from_bytes toy_fs "games/a.sgfs")
      (new_world 0)
    = Ok tt.
Proof.
  split.
  - destruct (add_a_game_file_goes_well elements_order toy_from_bytes toy_fs "one.sgf"
                (bytes_of "b") (new_world 0) eq_refl eq_refl eq_refl) as [Hsingle _].
    edestruct Hsingle as [Hok _]; [reflexivity|apply not_elem_of_empty|reflexivity
                                  |reflexivity|exact Hok].
  - destruct (add_a_game_file_goes_well elements_order toy_from_bytes toy_fs
                "games/a.sgfs" (bytes_of "b") (new_world 0) eq_refl eq_refl eq_refl)
      as [_ Hbatch].
    destruct Hbatch as [Hok _];
      [reflexivity|apply not_elem_of_empty|reflexivity
      |repeat constructor; by eexists|exact Hok].
Defined.

(** Alice and Bob after one game with each colour: the input of the rating
    is prepared and the ratings are returned. *)
Lemma print_elos_report_witness :
  let w := session elements_order toy_from_bytes _ _ toy_likelihood_of_games
             toy_make_center_elos_prior toy_compute_elos toy_EloInfo_str
             toy_float_str
             [AddAGameFile toy_fs "one.sgf"; AddAGameFile toy_fs "back.sgf"] 0 in
  ∃ info, outcome (print_elos elements_order _ _ toy_likelihood_of_games
                     toy_make_center_elos_prior toy_compute_elos toy_EloInfo_str
                     toy_float_str) w = Ok info.
Proof.
  intros w.
  assert (sound (results (self w))) as Hs by apply sound_session.
  assert (moderate (results (self w))) as Hm by (unfold moderate; member).
  assert (complete (results (self w))) as Hc
    by (apply complete_check_spec; vm_compute; reflexivity).
  destruct (print_elos_report elements_order _ _ toy_likelihood_of_games
              toy_make_center_elos_prior toy_compute_elos toy_EloInfo_str
              toy_float_str w) as (Hrun & _ & Hinput & _).
  assert (elo_accepts _ toy_likelihood_of_games (results (self w))) as Ha by toy_elo.
  destruct (Hinput Hs Hm Ha Hc [] eq_refl) as [data Hdata].
  exists (length data). unfold outcome. rewrite Hrun, Hdata. reflexivity.
Defined.
